(** * M3U8 downloader: download engine, muxer driver and playlist resolver

    A shallow embedding of the server-side core of the downloader
    (download-engine.ts, video-merger.ts, m3u8-parser.ts, routes.ts) and the
    properties of it that the specification states.

    Conventions of the embedding.
    - JavaScript numbers that hold counts and byte sizes are [Z]; numbers
      that hold ratios, seconds and percentages are exact rationals [Q].
      Double rounding is not modelled.  The two comparisons of the
      completion check, [d / t >= 0.98] and [f <= t * 0.02] on integer
      counts, have the same answer on doubles as on rationals for counts
      below [10^13]: the quotient and the product are then either on the
      right side of the threshold exactly or farther from it than the
      rounding error.
    - Strings are [string] and hold the UTF-8 bytes of the JavaScript
      string; the patterns the code searches for are ASCII, so matching on
      bytes agrees with matching on UTF-16 code units, and [trim] removes
      the white space of ECMAScript in its UTF-8 form.
    - The [Map] fields of the engine and the metadata store are [gmap]s keyed
      by the job id; the file system is a [gmap] from paths to file contents.
    - Everything the outside world decides (HTTP answers, I/O failures, the
      clock, the external muxer) is read from an explicit environment record.
    - Asynchronous functions are state transformers that end in a settled
      promise: [Resolved v] or [Rejected e]. *)

From Stdlib Require Import ZArith QArith Qround Qminmax Lia List Permutation Sorted Ascii String.
From stdpp Require Import gmap strings list pretty sorting.

Local Open Scope string_scope.
Local Open Scope list_scope.
Local Open Scope Z_scope.

(* ===================================================================== *)
(** * JavaScript values and string primitives                             *)
(* ===================================================================== *)

Module JS.

(** [x || d] on [number | null | undefined]: the default replaces a missing
    value and also the falsy number [0]. *)
Definition or_default (x : option Z) (d : Z) : Z :=
  match x with
  | Some v => if v =? 0 then d else v
  | None => d
  end.

(** [Math.round]: nearest integer, halves towards plus infinity. *)
Definition Math_round (x : Q) : Z := Qfloor (x + (1 # 2)).

(** [Math.round(x * 100) / 100]. *)
Definition round2 (x : Q) : Q := inject_Z (Math_round (x * 100)) / 100.

(** An [Error] object: the constructor's name and the message. *)
Record Error := { err_name : string; err_message : string }.

Definition mkError (msg : string) : Error :=
  {| err_name := "Error"; err_message := msg |}.

(** [Error.prototype.toString], which a template literal [`${e}`] calls:
    [name: message], and the one alone when the other is empty. *)
Definition Error_toString (e : Error) : string :=
  match err_name e, err_message e with
  | EmptyString, message => message
  | name, EmptyString => name
  | name, message => name +:+ ": " +:+ message
  end.

(** A settled promise. *)
Inductive Promise (A : Type) : Type :=
| Resolved (a : A)
| Rejected (e : Error).
Arguments Resolved {A} a.
Arguments Rejected {A} e.

Definition is_rejected {A} (p : Promise A) : bool :=
  match p with Resolved _ => false | Rejected _ => true end.

(** [s.startsWith(p)]. *)
Definition startsWith (s p : string) : bool := String.prefix p s.

(** [s.includes(needle)]. *)
Fixpoint includes (s needle : string) : bool :=
  match s with
  | EmptyString => String.prefix needle EmptyString
  | String _ s' => String.prefix needle s || includes s' needle
  end.

(** [s.split(sep)] for a one-character separator. *)
Fixpoint split (sep : ascii) (s : string) : list string :=
  match s with
  | EmptyString => [EmptyString]
  | String c s' =>
      if Ascii.eqb c sep then EmptyString :: split sep s'
      else match split sep s' with
           | [] => [String c EmptyString]
           | w :: ws => String c w :: ws
           end
  end.

(** A string is truthy when it is not empty. *)
Definition truthy (s : string) : bool :=
  match s with EmptyString => false | _ => true end.

(** [\d] *)
Definition is_digit (c : ascii) : bool :=
  let n := nat_of_ascii c in (48 <=? n)%nat && (n <=? 57)%nat.

Definition digit_value (c : ascii) : Z := Z.of_nat (nat_of_ascii c) - 48.

(** [parseInt] on a string of decimal digits (exact; a double holds the
    value exactly up to [2^53]). *)
Definition parseInt (ds : list ascii) : Z :=
  fold_left (fun acc c => 10 * acc + digit_value c) ds 0.

(** The longest prefix of digits, and what follows it. *)
Fixpoint take_digits (s : string) : list ascii * string :=
  match s with
  | EmptyString => ([], EmptyString)
  | String c s' =>
      if is_digit c then
        let '(ds, rest) := take_digits s' in (c :: ds, rest)
      else ([], s)
  end.

Fixpoint strip_prefix (p s : string) : option string :=
  match p, s with
  | EmptyString, _ => Some s
  | String a p', String b s' => if Ascii.eqb a b then strip_prefix p' s' else None
  | String _ _, EmptyString => None
  end.

(** A string of the model holds the UTF-8 bytes of the JavaScript string. *)
Definition utf8 (bytes : list nat) : string :=
  string_of_list_ascii (map ascii_of_nat bytes).

(** The code points [String.prototype.trim] removes, WhiteSpace and
    LineTerminator of ECMAScript, in UTF-8: U+0009 to U+000D, U+0020,
    U+00A0, U+1680, U+2000 to U+200A, U+2028, U+2029, U+202F, U+205F,
    U+3000 and U+FEFF. *)
Definition whiteSpace : list string :=
  map utf8
    [[9]; [10]; [11]; [12]; [13]; [32]; [194; 160]; [225; 154; 128];
     [226; 128; 128]; [226; 128; 129]; [226; 128; 130]; [226; 128; 131];
     [226; 128; 132]; [226; 128; 133]; [226; 128; 134]; [226; 128; 135];
     [226; 128; 136]; [226; 128; 137]; [226; 128; 138];
     [226; 128; 168]; [226; 128; 169]; [226; 128; 175]; [226; 129; 159];
     [227; 128; 128]; [239; 187; 191]]%nat.

(** One of the [patterns] taken off the head of [s]. *)
Fixpoint strip_any (patterns : list string) (s : string) : option string :=
  match patterns with
  | [] => None
  | p :: rest =>
      match strip_prefix p s with
      | Some s' => Some s'
      | None => strip_any rest s
      end
  end.

(** The [patterns] are taken off the head of [s] as long as one is there;
    [n] bounds the number of rounds. *)
Fixpoint strip_all (patterns : list string) (n : nat) (s : string) : string :=
  match n with
  | O => s
  | S n' =>
      match strip_any patterns s with
      | Some s' => strip_all patterns n' s'
      | None => s
      end
  end.

Definition trimStart (s : string) : string :=
  strip_all whiteSpace (String.length s) s.

(** White space is taken off the end on the reversed bytes; no byte that
    starts one of these code points occurs inside another code point. *)
Definition trimEnd (s : string) : string :=
  String.rev (strip_all (map String.rev whiteSpace) (String.length s) (String.rev s)).

Definition trim (s : string) : string := trimEnd (trimStart s).

(** [path.join(dir, name)]; the normalisation of [.] and [..] components is
    not modelled. *)
Definition path_join (dir name : string) : string := dir +:+ "/" +:+ name.

End JS.

(* ===================================================================== *)
(** * video-merger.ts: the muxer driver                                   *)
(* ===================================================================== *)

Module VideoMerger.
Import JS.

Record MergeOptions := {
  outputPath : string;
  filename : string;
  segmentPaths : list string
}.

Record MergeResult := {
  success : bool;
  outputFile : option string;
  error : option string;
  duration : option Q
}.

(** What the driver reads and writes: the files, and the static
    [ffmpegPath] field of the class. *)
Record World := {
  disk : gmap string (list Byte.byte);
  ffmpegPath : option string
}.

Definition set_disk (f : gmap string (list Byte.byte) -> gmap string (list Byte.byte))
    (w : World) : World :=
  {| disk := f (disk w); ffmpegPath := ffmpegPath w |}.

(** How a run of the external muxer ends: the ['end'] event, with the bytes
    of the container it wrote, or the ['error'] event with its message. *)
Inductive RunOutcome :=
| RunEnd (output : list Byte.byte)
| RunError (message : string).

Record Env := {
  cwd : string;
  (** [execSync(`${p} -version`)] returns normally *)
  probe : string -> bool;
  (** [ffmpegInstaller.path]; [None] when using it throws *)
  installer_path : option string;
  (** [fs.mkdir(outputPath, { recursive: true })] *)
  mkdir_error : option Error;
  (** [fs.writeFile(concatFilePath, concatContent)] *)
  manifest_write_error : option Error;
  ffmpeg_run : RunOutcome;
  (** [fs.unlink(concatFilePath)] *)
  manifest_unlink_error : option Error;
  (** [ffprobe]: [None] is the error callback *)
  ffprobe_duration : option Q;
  (** [fs.unlink(segmentPath)] throws for this path *)
  unlink_fails : string -> bool;
  (** the ['error'] event of the write stream *)
  stream_error : option Error;
  (** that event fires while the segments are still read, before the
      listeners of the stream are attached *)
  stream_error_early : bool
}.

(** The state after an asynchronous call of the driver, the array the caller
    passed (sorted in place by then) and the settled promise. *)
Record Outcome := {
  world_after : World;
  paths_after : list string;
  settled : Promise MergeResult
}.

Definition possiblePaths : list string :=
  ["/opt/homebrew/bin/ffmpeg"; "/usr/local/bin/ffmpeg"; "/usr/bin/ffmpeg"; "ffmpeg"].

Definition initialize (env : Env) (w : World) : World * Promise unit :=
  let found :=
    match List.find (probe env) possiblePaths with
    | Some p => Some p
    | None => installer_path env
    end in
  match found with
  | Some p => ({| disk := disk w; ffmpegPath := Some p |}, Resolved tt)
  | None =>
      (w, Rejected (mkError
        "FFmpeg not found. Please install FFmpeg or add @ffmpeg-installer/ffmpeg."))
  end.

(** [/_segment_(\d+)\./] anchored at the start of [s]: the digits of the
    capture group.  The digits are taken greedily; when no dot follows them
    no shorter run of digits is followed by a dot either. *)
Definition match_segment_here (s : string) : option (list ascii) :=
  match strip_prefix "_segment_" s with
  | Some rest =>
      match take_digits rest with
      | (d :: ds, String c _) =>
          if Ascii.eqb c "." then Some (d :: ds) else None
      | _ => None
      end
  | None => None
  end.

(** [a.match(/_segment_(\d+)\./)]: the leftmost match. *)
Fixpoint match_segment (s : string) : option (list ascii) :=
  match match_segment_here s with
  | Some ds => Some ds
  | None =>
      match s with
      | EmptyString => None
      | String _ s' => match_segment s'
      end
  end.

(** [aMatch ? parseInt(aMatch[1]) : 0] *)
Definition segmentIndex (a : string) : Z :=
  match match_segment a with
  | Some ds => parseInt ds
  | None => 0
  end.

(** The comparator handed to [sort]. *)
Definition compareSegments (a b : string) : Z := segmentIndex a - segmentIndex b.

(** [Array.prototype.sort] is stable; with this comparator, which orders by
    a key, its result is the stable sort by that key whatever algorithm the
    engine runs.  Insertion from the right keeps equal keys in input order. *)
Fixpoint insertSegment (a : string) (l : list string) : list string :=
  match l with
  | [] => [a]
  | b :: l' =>
      if compareSegments a b <=? 0 then a :: l else b :: insertSegment a l'
  end.

Definition sortSegments (l : list string) : list string :=
  foldr insertSegment [] l.

(** The order of the sort: by the index in the name. *)
Definition indexLe (a b : string) : Prop := segmentIndex a <= segmentIndex b.

Definition endsWith (s suffix : string) : bool :=
  String.prefix (String.rev suffix) (String.rev s).

(** [filename.endsWith('.mkv') ? filename.slice(0, -4) : filename] *)
Definition cleanFilename (filename : string) : string :=
  if endsWith filename ".mkv"
  then String.substring 0 (String.length filename - 4) filename
  else filename.

Definition outputFilePath (options : MergeOptions) : string :=
  path_join (outputPath options) (cleanFilename (filename options) +:+ ".mkv").

Definition concatFilePath (options : MergeOptions) : string :=
  path_join (outputPath options) (filename options +:+ "_concat.txt").

(** [path.resolve(p)] *)
Definition path_resolve (env : Env) (p : string) : string :=
  if startsWith p "/" then p else path_join (cwd env) p.

Definition newline : string := String (ascii_of_nat 10) EmptyString.

(** The concat manifest: one [file '<absolute path>'] line per segment. *)
Definition concatContent (env : Env) (sortedSegments : list string) : string :=
  String.concat newline
    (map (fun segmentPath => "file '" +:+ path_resolve env segmentPath +:+ "'")
         sortedSegments).

(** Every unlink is wrapped in its own [try]; the call never throws. *)
Definition cleanupSegmentFiles (env : Env) (paths : list string) (w : World) : World :=
  set_disk (fun d =>
    fold_left (fun d p => if unlink_fails env p then d else delete p d) paths d) w.

(** [metadata.format.duration || 0], and [0] when the probe errs. *)
Definition getVideoDuration (env : Env) : Q :=
  match ffprobe_duration env with
  | Some d => d
  | None => 0%Q
  end.

Definition failure (msg : string) : MergeResult :=
  {| success := false; outputFile := None; error := Some msg; duration := None |}.

(** The [try] block of [mergeSegmentsToMKV]: the manifest, the run of the
    muxer and the handlers of its ['end'] and ['error'] events. *)
Definition muxSegments (env : Env) (options : MergeOptions) (w1 : World) : Outcome :=
  match mkdir_error env with
  | Some e =>
      {| world_after := w1; paths_after := segmentPaths options;
         settled := Resolved (failure ("Failed to merge segments: " +:+ err_message e)) |}
  | None =>
      let sortedSegments := sortSegments (segmentPaths options) in
      match manifest_write_error env with
      | Some e =>
          {| world_after := w1; paths_after := sortedSegments;
             settled := Resolved (failure ("Failed to merge segments: " +:+ err_message e)) |}
      | None =>
          let manifest := list_byte_of_string (concatContent env sortedSegments) in
          let w2 := set_disk (insert (concatFilePath options) manifest) w1 in
          let unlink_manifest (w : World) :=
            match manifest_unlink_error env with
            | Some _ => w
            | None => set_disk (delete (concatFilePath options)) w
            end in
          match ffmpeg_run env with
          | RunError message =>
              {| world_after := unlink_manifest w2; paths_after := sortedSegments;
                 settled := Resolved (failure message) |}
          | RunEnd output =>
              let w3 := set_disk (insert (outputFilePath options) output) w2 in
              match manifest_unlink_error env with
              | Some cleanupError =>
                  {| world_after := w3; paths_after := sortedSegments;
                     settled := Resolved
                       {| success := true;
                          outputFile := Some (outputFilePath options);
                          error := Some ("Merge successful but cleanup failed: "
                                         +:+ Error_toString cleanupError);
                          duration := None |} |}
              | None =>
                  {| world_after :=
                       cleanupSegmentFiles env sortedSegments (unlink_manifest w3);
                     paths_after := sortedSegments;
                     settled := Resolved
                       {| success := true;
                          outputFile := Some (outputFilePath options);
                          error := None;
                          duration := Some (getVideoDuration env) |} |}
              end
          end
      end
  end.

(** [initialize] is called outside the [try]: when it throws, the promise
    of [mergeSegmentsToMKV] rejects. *)
Definition mergeSegmentsToMKV (env : Env) (options : MergeOptions) (w : World) : Outcome :=
  let '(w1, init) :=
    match ffmpegPath w with
    | None => initialize env w
    | Some _ => (w, Resolved tt)
    end in
  match init with
  | Rejected e =>
      {| world_after := w1; paths_after := segmentPaths options; settled := Rejected e |}
  | Resolved _ => muxSegments env options w1
  end.

(** The segments read one after the other until a file is missing: the bytes
    read so far, and the path whose [readFile] threw. *)
Fixpoint readSegments (d : gmap string (list Byte.byte)) (paths : list string)
    : list Byte.byte * option string :=
  match paths with
  | [] => ([], None)
  | p :: rest =>
      match d !! p with
      | None => ([], Some p)
      | Some bytes =>
          let '(more, missing) := readSegments d rest in (bytes ++ more, missing)
      end
  end.

(** [mergeSegmentsBinary] when the ['error'] event of the write stream, if
    there is one, reaches the listeners that are attached after the reads:
    the promise is settled.  [mergeSegmentsBinaryCall] below covers the
    event that fires before. *)
Definition mergeSegmentsBinary (env : Env) (options : MergeOptions) (w : World) : Outcome :=
  match mkdir_error env with
  | Some e =>
      {| world_after := w; paths_after := segmentPaths options;
         settled := Resolved (failure ("Binary merge failed: " +:+ err_message e)) |}
  | None =>
      let sortedSegments := sortSegments (segmentPaths options) in
      let '(bytes, missing) := readSegments (disk w) sortedSegments in
      let w1 := set_disk (insert (outputFilePath options) bytes) w in
      match missing with
      | Some p =>
          {| world_after := w1; paths_after := sortedSegments;
             settled := Resolved (failure
               ("Binary merge failed: ENOENT: no such file or directory, open '"
                +:+ p +:+ "'")) |}
      | None =>
          match stream_error env with
          | Some e =>
              {| world_after := w; paths_after := sortedSegments;
                 settled := Resolved (failure ("Binary merge failed: " +:+ err_message e)) |}
          | None =>
              {| world_after := cleanupSegmentFiles env sortedSegments w1;
                 paths_after := sortedSegments;
                 settled := Resolved
                   {| success := true;
                      outputFile := Some (outputFilePath options);
                      error := None;
                      duration := None |} |}
          end
      end
  end.

(** The muxer binary is known already or [initialize] locates it: the call
    at the head of [mergeSegmentsToMKV] does not throw. *)
Definition muxerFound (env : Env) (w : World) : bool :=
  match ffmpegPath w with
  | Some _ => true
  | None => negb (is_rejected (initialize env w).2)
  end.

(** ** mergeSegmentsBinary and an early error of the write stream *)

(** The listeners of the write stream are attached after the loop that
    awaits the reads (lines 194 to 197).  With a segment to read, an
    ['error'] event of the stream that fires during the loop finds no
    listener: Node throws it as an uncaught exception, and the promise of
    the call is never settled, [None].  With no segment the loop awaits
    nothing and the listeners are attached before an event can fire. *)
Definition mergeSegmentsBinaryCall (env : Env) (options : MergeOptions) (w : World)
    : option Outcome :=
  match mkdir_error env with
  | Some _ => Some (mergeSegmentsBinary env options w)
  | None =>
      match stream_error env, sortSegments (segmentPaths options) with
      | Some _, _ :: _ =>
          if stream_error_early env then None
          else Some (mergeSegmentsBinary env options w)
      | _, _ => Some (mergeSegmentsBinary env options w)
      end
  end.

(** ** The run of the external muxer on its manifest *)

(** The promise [mergeSegmentsToMKV] returns once the manifest is written
    (lines 93 to 135): the run of the muxer in the world [w2] that holds the
    manifest, and the handlers of its ['end'] and ['error'] events. *)
Definition runMuxer (env : Env) (options : MergeOptions) (sortedSegments : list string)
    (w2 : World) : Outcome :=
  let unlink_manifest (w : World) :=
    match manifest_unlink_error env with
    | Some _ => w
    | None => set_disk (delete (concatFilePath options)) w
    end in
  match ffmpeg_run env with
  | RunError message =>
      {| world_after := unlink_manifest w2; paths_after := sortedSegments;
         settled := Resolved (failure message) |}
  | RunEnd output =>
      let w3 := set_disk (insert (outputFilePath options) output) w2 in
      match manifest_unlink_error env with
      | Some cleanupError =>
          {| world_after := w3; paths_after := sortedSegments;
             settled := Resolved
               {| success := true;
                  outputFile := Some (outputFilePath options);
                  error := Some ("Merge successful but cleanup failed: "
                                 +:+ Error_toString cleanupError);
                  duration := None |} |}
      | None =>
          {| world_after := cleanupSegmentFiles env sortedSegments (unlink_manifest w3);
             paths_after := sortedSegments;
             settled := Resolved
               {| success := true;
                  outputFile := Some (outputFilePath options);
                  error := None;
                  duration := Some (getVideoDuration env) |} |}
      end
  end.

(** ** The comparator on doubles *)

(** [parseInt] returns a double: the one nearest to the integer the digits
    spell, ties to the even mantissa, and [Infinity], here [None], from
    [2^1024 - 2^970] on.  Below [2^53] every integer is a double. *)
Definition toNumber (z : Z) : option Z :=
  if z <? 2 ^ 53 then Some z
  else
    let e := Z.log2 z - 52 in
    let q := z / 2 ^ e in
    let r := z mod 2 ^ e in
    let half := 2 ^ (e - 1) in
    let q' := if (half <? r) || ((r =? half) && Z.odd q) then q + 1 else q in
    if q' * 2 ^ e <? 2 ^ 1024 then Some (q' * 2 ^ e) else None.

(** [aIndex - bIndex] on doubles, as [sort] reads it: the difference of two
    finite doubles has the sign of the exact difference; [Infinity -
    Infinity] is [NaN], which [sort] takes for [0]. *)
Definition compareNumbers (x y : option Z) : Z :=
  match x, y with
  | Some a, Some b => a - b
  | None, None => 0
  | None, Some _ => 1
  | Some _, None => -1
  end.

(** The comparator of lines 77 to 83 with the indices as doubles. *)
Definition compareSegmentNumbers (a b : string) : Z :=
  compareNumbers (toNumber (segmentIndex a)) (toNumber (segmentIndex b)).

Fixpoint insertSegmentNumber (a : string) (l : list string) : list string :=
  match l with
  | [] => [a]
  | b :: l' =>
      if compareSegmentNumbers a b <=? 0 then a :: l else b :: insertSegmentNumber a l'
  end.

(** The sort of the driver on doubles; [sortSegments] is this sort for
    indices below [2^53]. *)
Definition sortSegmentNumbers (l : list string) : list string :=
  foldr insertSegmentNumber [] l.

End VideoMerger.

(* ===================================================================== *)
(** * download-engine.ts: the engine and the job supervisor               *)
(* ===================================================================== *)

Module DownloadEngine.
Import JS.

Inductive Status :=
| queued | downloading | paused | merging | completed | error | cancelled.

(** The job record of the metadata store (shared/schema.ts), without the
    URLs and the timestamps.  Nullable columns are options. *)
Record Download := {
  id : string;
  filename : string;
  status : Status;
  progress : Q;
  totalSegments : option Z;
  downloadedSegments : option Z;
  fileSize : option Z;
  downloadedBytes : option Z;
  speed : option Q;
  eta : option Z;
  threads : option Z;
  outputPath : string;
  outputFile : option string;
  duration : option Q;
  errorMessage : option string;
  segments : option (list string)
}.

(** One field of a [Partial<Download>] passed to [storage.updateDownload]. *)
Inductive Field :=
| set_status (s : Status)
| set_progress (p : Q)
| set_downloadedSegments (n : Z)
| set_downloadedBytes (n : Z)
| set_speed (v : Q)
| set_eta (n : Z)
| set_outputFile (f : option string)
| set_duration (d : option Q)
| set_errorMessage (m : string).

Definition assign (d : Download) (f : Field) : Download :=
  let '{| id := i; filename := fn; status := st; progress := pr;
          totalSegments := ts; downloadedSegments := ds; fileSize := fs;
          downloadedBytes := db; speed := sp; eta := et; threads := th;
          outputPath := op; outputFile := ofile; duration := du;
          errorMessage := em; segments := sg |} := d in
  match f with
  | set_status s =>
      Build_Download i fn s pr ts ds fs db sp et th op ofile du em sg
  | set_progress p =>
      Build_Download i fn st p ts ds fs db sp et th op ofile du em sg
  | set_downloadedSegments n =>
      Build_Download i fn st pr ts (Some n) fs db sp et th op ofile du em sg
  | set_downloadedBytes n =>
      Build_Download i fn st pr ts ds fs (Some n) sp et th op ofile du em sg
  | set_speed v =>
      Build_Download i fn st pr ts ds fs db (Some v) et th op ofile du em sg
  | set_eta n =>
      Build_Download i fn st pr ts ds fs db sp (Some n) th op ofile du em sg
  | set_outputFile f =>
      Build_Download i fn st pr ts ds fs db sp et th op f du em sg
  | set_duration x =>
      Build_Download i fn st pr ts ds fs db sp et th op ofile x em sg
  | set_errorMessage m =>
      Build_Download i fn st pr ts ds fs db sp et th op ofile du (Some m) sg
  end.

(** The entry of [downloadStats]. *)
Record Stats := {
  startTime : Z;
  stats_downloadedBytes : Z;
  totalBytes : Z
}.

(** Messages handed to [onProgress]. *)
Inductive WebSocketMessage :=
| download_status (downloadId : string) (status : Status)
    (errorMessage outputFile message : option string)
| download_progress (downloadId : string) (progress : Q) (downloadedSegments : Z)
    (speed : Q) (eta : Z) (downloadedBytes : Z)
| merge_progress (downloadId : string) (progress : Z).

(** What the engine does to the outside, in the order it does it.
    [Launch] is the call of [processDownload], which [startDownload] does
    not await: the workers it starts fetch the listed segments. *)
Inductive Effect :=
| Emit (m : WebSocketMessage)
| HttpGet (url : string)
| Sleep (ms : Z)
| Launch (downloadId : string) (missingSegments : list (nat * string)) (totalSegments : nat).

Record Engine := {
  store : gmap string Download;
  activeDownloads : gmap string bool;
  downloadStats : gmap string Stats;
  segmentFiles : gmap string (list string);
  failedSegments : gmap string (gset nat);
  world : VideoMerger.World;
  trace : list Effect
}.

Definition with_store (f : gmap string Download -> gmap string Download) (s : Engine) :=
  {| store := f (store s); activeDownloads := activeDownloads s;
     downloadStats := downloadStats s; segmentFiles := segmentFiles s;
     failedSegments := failedSegments s; world := world s; trace := trace s |}.

Definition with_activeDownloads (f : gmap string bool -> gmap string bool) (s : Engine) :=
  {| store := store s; activeDownloads := f (activeDownloads s);
     downloadStats := downloadStats s; segmentFiles := segmentFiles s;
     failedSegments := failedSegments s; world := world s; trace := trace s |}.

Definition with_downloadStats (f : gmap string Stats -> gmap string Stats) (s : Engine) :=
  {| store := store s; activeDownloads := activeDownloads s;
     downloadStats := f (downloadStats s); segmentFiles := segmentFiles s;
     failedSegments := failedSegments s; world := world s; trace := trace s |}.

Definition with_segmentFiles
    (f : gmap string (list string) -> gmap string (list string)) (s : Engine) :=
  {| store := store s; activeDownloads := activeDownloads s;
     downloadStats := downloadStats s; segmentFiles := f (segmentFiles s);
     failedSegments := failedSegments s; world := world s; trace := trace s |}.

Definition with_failedSegments
    (f : gmap string (gset nat) -> gmap string (gset nat)) (s : Engine) :=
  {| store := store s; activeDownloads := activeDownloads s;
     downloadStats := downloadStats s; segmentFiles := segmentFiles s;
     failedSegments := f (failedSegments s); world := world s; trace := trace s |}.

Definition with_world (f : VideoMerger.World -> VideoMerger.World) (s : Engine) :=
  {| store := store s; activeDownloads := activeDownloads s;
     downloadStats := downloadStats s; segmentFiles := segmentFiles s;
     failedSegments := failedSegments s; world := f (world s); trace := trace s |}.

Definition with_trace (f : list Effect -> list Effect) (s : Engine) :=
  {| store := store s; activeDownloads := activeDownloads s;
     downloadStats := downloadStats s; segmentFiles := segmentFiles s;
     failedSegments := failedSegments s; world := world s; trace := f (trace s) |}.

Definition disk (s : Engine) : gmap string (list Byte.byte) := VideoMerger.disk (world s).

(** An answer to one [axios.get]. *)
Inductive HttpOutcome :=
| TransportError (e : Error)
| Response (status : Z) (data : list Byte.byte).

Record Env := {
  (** [Date.now()], in milliseconds *)
  now : Z;
  (** [fs.mkdir(download.outputPath, { recursive: true })] *)
  mkdir_error : option Error;
  (** the answer to the [k]-th GET of a URL within one call of [downloadSegment] *)
  http : string -> nat -> HttpOutcome;
  (** [fs.writeFile(segmentPath, data)] at that attempt *)
  segment_write_error : string -> nat -> option Error;
  merger : VideoMerger.Env
}.

(** ** Asynchronous methods: state and rejection *)

Definition M (A : Type) : Type := Engine -> Engine * Promise A.

Definition ret {A} (a : A) : M A := fun s => (s, Resolved a).

Definition throw {A} (e : Error) : M A := fun s => (s, Rejected e).

Definition bind {A B} (m : M A) (k : A -> M B) : M B :=
  fun s =>
    match m s with
    | (s', Resolved a) => k a s'
    | (s', Rejected e) => (s', Rejected e)
    end.

(** [try { m } catch (e) { h e }] *)
Definition try_catch {A} (m : M A) (h : Error -> M A) : M A :=
  fun s =>
    match m s with
    | (s', Resolved a) => (s', Resolved a)
    | (s', Rejected e) => h e s'
    end.

Definition modify (f : Engine -> Engine) : M unit := fun s => (f s, Resolved tt).

Definition gets {A} (f : Engine -> A) : M A := fun s => (s, Resolved (f s)).

Notation "x <~ m ;; k" := (bind m (fun x => k))
  (at level 100, m at next level, right associativity).
Notation "m ;;; k" := (bind m (fun _ => k))
  (at level 100, right associativity).

Definition perform (e : Effect) : M unit := modify (with_trace (fun t => t ++ [e])).

(** [this.onProgress(m)] *)
Definition onProgress (m : WebSocketMessage) : M unit := perform (Emit m).

(** [storage.getDownload(id)] *)
Definition getDownload (downloadId : string) : M (option Download) :=
  gets (fun s => store s !! downloadId).

(** [storage.updateDownload(id, update)]: nothing happens for an absent id. *)
Definition updateDownload (downloadId : string) (update : list Field) : M unit :=
  modify (with_store (fun st =>
    match st !! downloadId with
    | Some existing => <[downloadId := fold_left assign update existing]> st
    | None => st
    end)).

(** The deterministic path of segment [i] of a job. *)
Definition segmentPath (download : Download) (i : nat) : string :=
  path_join (outputPath download)
            (filename download +:+ "_segment_" +:+ pretty i +:+ ".ts").

(** ** checkExistingSegments *)

(** The file of segment [i] is there and is not empty. *)
Definition presentb (d : gmap string (list Byte.byte)) (download : Download) (i : nat)
    : bool :=
  match d !! segmentPath download i with
  | Some (_ :: _) => true
  | _ => false
  end.

Record SegmentCheck := {
  existingSegments : list (nat * string);
  missingSegments : list (nat * string);
  existingSegmentPaths : list string
}.

(** The loop body for the indices from [i] on; [fs.stat] throws for an
    absent file. *)
Fixpoint checkSegmentsFrom (d : gmap string (list Byte.byte)) (download : Download)
    (i : nat) (urls : list string) : SegmentCheck :=
  match urls with
  | [] => {| existingSegments := []; missingSegments := []; existingSegmentPaths := [] |}
  | segmentUrl :: rest =>
      let r := checkSegmentsFrom d download (S i) rest in
      let nonempty :=
        match d !! segmentPath download i with
        | Some bytes => 0 <? Z.of_nat (List.length bytes)
        | None => false
        end in
      if nonempty then
        {| existingSegments := (i, segmentUrl) :: existingSegments r;
           missingSegments := missingSegments r;
           existingSegmentPaths := segmentPath download i :: existingSegmentPaths r |}
      else
        {| existingSegments := existingSegments r;
           missingSegments := (i, segmentUrl) :: missingSegments r;
           existingSegmentPaths := existingSegmentPaths r |}
  end.

Definition checkExistingSegments (download : Download) (allSegments : list string)
    : M SegmentCheck :=
  gets (fun s => checkSegmentsFrom (disk s) download 0 allSegments).

(** ** downloadSegment *)

Definition maxRetries : nat := 3.

(** What axios throws for a status outside 2xx. *)
Definition axiosStatusError (status : Z) : Error :=
  {| err_name := "AxiosError";
     err_message := "Request failed with status code " +:+ pretty status |}.

(** The body of the [try] of one attempt: the GET, the check of the body,
    the write of the segment file and the update of the per-job file list. *)
Definition attemptSegment (env : Env) (segmentUrl : string) (segmentIndex : nat)
    (download : Download) (attempt : nat) : M Z :=
  perform (HttpGet segmentUrl) ;;;
  match http env segmentUrl attempt with
  | TransportError e => throw e
  | Response status data =>
      if negb ((200 <=? status) && (status <? 300)) then
        throw (axiosStatusError status)
      else if Z.of_nat (List.length data) =? 0 then
        throw (mkError ("Empty response for segment " +:+ pretty segmentIndex))
      else
        let path := segmentPath download segmentIndex in
        match segment_write_error env path attempt with
        | Some e => throw e
        | None =>
            modify (with_world (VideoMerger.set_disk (insert path data))) ;;;
            modify (with_segmentFiles (fun m =>
              <[id download := default [] (m !! id download) ++ [path]]> m)) ;;;
            ret (Z.of_nat (List.length data))
        end
  end.

(** The engine after a successful attempt: the GET, the file, the list. *)
Definition fetched (segmentUrl : string) (segmentIndex : nat) (download : Download)
    (data : list Byte.byte) (s : Engine) : Engine :=
  let path := segmentPath download segmentIndex in
  with_segmentFiles
    (fun m => <[id download := default [] (m !! id download) ++ [path]]> m)
    (with_world (VideoMerger.set_disk (insert path data))
       (with_trace (fun t => t ++ [HttpGet segmentUrl]) s)).

(** The [for] loop over the attempts still to make; [lastError] is the error
    of the attempt before. *)
Fixpoint downloadSegmentLoop (env : Env) (segmentUrl : string) (segmentIndex : nat)
    (download : Download) (attempts : list nat) (lastError : option Error) : M Z :=
  match attempts with
  | [] =>
      throw (mkError ("Failed to download segment " +:+ pretty segmentIndex
                      +:+ " after " +:+ pretty maxRetries +:+ " attempts: "
                      +:+ match lastError with
                          | Some e => Error_toString e
                          | None => "undefined"
                          end))
  | attempt :: rest =>
      try_catch (attemptSegment env segmentUrl segmentIndex download attempt)
        (fun e =>
           (if (attempt <? maxRetries)%nat
            then perform (Sleep (Z.min (1000 * Z.of_nat attempt) 5000))
            else ret tt) ;;;
           downloadSegmentLoop env segmentUrl segmentIndex download rest (Some e))
  end.

Definition downloadSegment (env : Env) (segmentUrl : string) (segmentIndex : nat)
    (download : Download) : M Z :=
  downloadSegmentLoop env segmentUrl segmentIndex download (seq 1 maxRetries) None.

(** ** updateDownloadProgress *)

(** [this.failedSegments.get(downloadId)?.size || 0] *)
Definition failedCount (downloadId : string) (s : Engine) : Z :=
  match failedSegments s !! downloadId with
  | Some failedSet => Z.of_nat (size failedSet)
  | None => 0
  end.

(** [a || b] on two nullable numbers. *)
Definition or_else (a b : option Z) : option Z :=
  match a with
  | Some v => if v =? 0 then b else a
  | None => b
  end.

Definition Qlt_bool (x y : Q) : bool := negb (Qle_bool y x).

(** Events only: nothing is fetched and nothing is launched. *)
Definition emitsOnly (events : list Effect) : Prop :=
  Forall (fun e => exists m, e = Emit m) events.

(** The figures one call computes. *)
Record Figures := {
  newDownloadedSegments : Z;
  rawProgress : Q;
  elapsedSeconds : Q;
  newSpeed : Q;
  remainingSegments : Z;
  avgSegmentTime : Q;
  newEta : Z
}.

Definition figures (env : Env) (download : Download) (stats : Stats)
    (failed : Z) (totalSegments : option Z) : Figures :=
  let newDownloadedSegments := or_default (downloadedSegments download) 0 + 1 in
  let totalSegs := or_default (or_else totalSegments (DownloadEngine.totalSegments download)) 1 in
  let progress := (inject_Z newDownloadedSegments / inject_Z totalSegs * 100)%Q in
  let elapsedSeconds := (inject_Z (now env - startTime stats) / 1000)%Q in
  let speed :=
    if Qlt_bool 0 elapsedSeconds
    then (inject_Z (stats_downloadedBytes stats) / elapsedSeconds)%Q else 0%Q in
  let remainingSegments := totalSegs - newDownloadedSegments - failed in
  let avgSegmentTime :=
    (elapsedSeconds
     / inject_Z (newDownloadedSegments - or_default (downloadedSegments download) 0 + 1))%Q in
  let eta :=
    if (0 <? remainingSegments) && Qlt_bool 0 avgSegmentTime
    then Math_round (inject_Z remainingSegments * avgSegmentTime) else 0 in
  {| newDownloadedSegments := newDownloadedSegments;
     rawProgress := progress;
     elapsedSeconds := elapsedSeconds;
     newSpeed := speed;
     remainingSegments := remainingSegments;
     avgSegmentTime := avgSegmentTime;
     newEta := eta |}.

Definition updateDownloadProgress (env : Env) (downloadId : string) (segmentIndex : nat)
    (segmentSize : Z) (totalSegments : option Z) : M unit :=
  download <~ getDownload downloadId ;;
  match download with
  | None => ret tt
  | Some download =>
      stats <~ gets (fun s => downloadStats s !! downloadId) ;;
      match stats with
      | None => ret tt
      | Some stats =>
          let stats :=
            {| startTime := startTime stats;
               stats_downloadedBytes := stats_downloadedBytes stats + segmentSize;
               totalBytes := totalBytes stats |} in
          modify (with_downloadStats (insert downloadId stats)) ;;;
          failed <~ gets (failedCount downloadId) ;;
          let f := figures env download stats failed totalSegments in
          updateDownload downloadId
            [set_downloadedSegments (newDownloadedSegments f);
             set_progress (round2 (rawProgress f));
             set_downloadedBytes (stats_downloadedBytes stats);
             set_speed (newSpeed f);
             set_eta (newEta f)] ;;;
          onProgress (download_progress downloadId (rawProgress f)
                        (newDownloadedSegments f) (newSpeed f) (newEta f)
                        (stats_downloadedBytes stats))
      end
  end.

(** ** mergeSegments *)

Definition mergeOptions (download : Download) (files : list string)
    : VideoMerger.MergeOptions :=
  {| VideoMerger.outputPath := outputPath download;
     VideoMerger.filename := filename download;
     VideoMerger.segmentPaths := files |}.

(** A call into the muxer driver.  It works on the engine's files, and the
    array it sorts in place is the one [segmentFiles] holds for the job. *)
Definition callMerger (downloadId : string)
    (call : VideoMerger.World -> VideoMerger.Outcome) : M VideoMerger.MergeResult :=
  fun s =>
    let out := call (world s) in
    (with_segmentFiles (insert downloadId (VideoMerger.paths_after out))
       (with_world (fun _ => VideoMerger.world_after out) s),
     VideoMerger.settled out).

(** [result.error || 'Unknown merge error'] *)
Definition mergeErrorText (result : VideoMerger.MergeResult) : string :=
  match VideoMerger.error result with
  | Some msg => if truthy msg then msg else "Unknown merge error"
  | None => "Unknown merge error"
  end.

(** The inner [try]: the external muxer first; when that call rejects, the
    status message and the binary concatenation. *)
Definition runMerger (env : Env) (downloadId : string) (download : Download)
    (files : list string) : M VideoMerger.MergeResult :=
  try_catch
    (callMerger downloadId
       (VideoMerger.mergeSegmentsToMKV (merger env) (mergeOptions download files)))
    (fun ffmpegError =>
       onProgress (download_status downloadId merging None None
                     (Some "FFmpeg not available, using binary merge...")) ;;;
       files <~ gets (fun s => default [] (segmentFiles s !! downloadId)) ;;
       callMerger downloadId
         (VideoMerger.mergeSegmentsBinary (merger env) (mergeOptions download files))).

Definition mergeSegments (env : Env) (downloadId : string) : M unit :=
  download <~ getDownload downloadId ;;
  match download with
  | None => ret tt
  | Some download =>
      files <~ gets (fun s => default [] (segmentFiles s !! downloadId)) ;;
      match files with
      | [] => ret tt
      | _ :: _ =>
          onProgress (download_status downloadId merging None None None) ;;;
          updateDownload downloadId [set_status merging] ;;;
          try_catch
            (result <~ runMerger env downloadId download files ;;
             if VideoMerger.success result then
               updateDownload downloadId
                 [set_status completed;
                  set_outputFile (VideoMerger.outputFile result);
                  set_duration (VideoMerger.duration result)] ;;;
               modify (with_segmentFiles (delete downloadId)) ;;;
               onProgress (download_status downloadId completed None
                             (VideoMerger.outputFile result) None)
             else throw (mkError (mergeErrorText result)))
            (fun error =>
               updateDownload downloadId
                 [set_status completed;
                  set_errorMessage ("Merge failed but segments available: "
                                    +:+ err_message error);
                  set_progress 100] ;;;
               onProgress (download_status downloadId completed
                             (Some ("Merge failed but segments downloaded: "
                                    +:+ err_message error)) None None))
      end
  end.

(** ** checkDownloadCompletion *)

Definition completionThreshold : Q := 98 # 100.

Definition shouldComplete (downloadedSegments totalSegments failedSegments : Z) : bool :=
  let progress := (inject_Z downloadedSegments / inject_Z totalSegments)%Q in
  (totalSegments <=? downloadedSegments)
  || (Qle_bool completionThreshold progress && (0 <? downloadedSegments))
  || ((totalSegments <=? downloadedSegments + failedSegments)
      && Qle_bool (inject_Z failedSegments)
                  (Qmax 2 (inject_Z totalSegments * (2 # 100)))).

Definition checkDownloadCompletion (env : Env) (downloadId : string) : M unit :=
  download <~ getDownload downloadId ;;
  match download with
  | None => ret tt
  | Some download =>
      let downloadedSegments := or_default (downloadedSegments download) 0 in
      let totalSegments := or_default (totalSegments download) 1 in
      failedSegments <~ gets (failedCount downloadId) ;;
      let progress := (inject_Z downloadedSegments / inject_Z totalSegments)%Q in
      if shouldComplete downloadedSegments totalSegments failedSegments then
        let finalProgress := Z.min 100 (Math_round (progress * 100)) in
        updateDownload downloadId
          [set_status completed; set_progress (inject_Z finalProgress)] ;;;
        mergeSegments env downloadId ;;;
        modify (with_activeDownloads (delete downloadId)) ;;;
        modify (with_downloadStats (delete downloadId)) ;;;
        modify (with_failedSegments (delete downloadId)) ;;;
        onProgress (download_status downloadId completed None None None)
      else ret tt
  end.

(** ** startDownload, pauseDownload, cancelDownload *)

(** The task [processDownload] queues for one missing segment: the check
    of the liveness flag, then the fetch and the progress update, with the
    index added to the failed set when the fetch throws.  The sentinel of a
    paused or cancelled job is thrown outside the [try]. *)
Definition segmentTask (env : Env) (downloadId : string) (download : Download)
    (segmentInfo : nat * string) (totalSegments : nat) : M Z :=
  active <~ gets (fun s => activeDownloads s !! downloadId) ;;
  match active with
  | Some true =>
      try_catch
        (segmentSize <~ downloadSegment env (snd segmentInfo) (fst segmentInfo) download ;;
         updateDownloadProgress env downloadId (fst segmentInfo) segmentSize
           (Some (Z.of_nat totalSegments)) ;;;
         ret segmentSize)
        (fun error =>
           modify (with_failedSegments (fun m =>
             <[downloadId := default ∅ (m !! downloadId) ∪ {[fst segmentInfo]}]> m)) ;;;
           throw error)
  | _ => throw (mkError "Download paused or cancelled")
  end.

(** [processDownload] is started and not awaited; the engine state records
    the call.  Its workers run [segmentTask] for the listed segments, at
    most [threads] at a time, and [checkDownloadCompletion] once all have
    settled. *)
Definition processDownload (downloadId : string) (missing : list (nat * string))
    (total : nat) : M unit :=
  perform (Launch downloadId missing total).

Definition startDownload (env : Env) (downloadId : string) : M unit :=
  download <~ getDownload downloadId ;;
  match download with
  | None => throw (mkError "Download not found or no segments available")
  | Some download =>
      match segments download with
      | None => throw (mkError "Download not found or no segments available")
      | Some segments =>
          updateDownload downloadId [set_status downloading] ;;;
          check <~ checkExistingSegments download segments ;;
          let existing := Z.of_nat (List.length (existingSegments check)) in
          (if 0 <? existing then
             let progress :=
               (inject_Z existing / inject_Z (Z.of_nat (List.length segments)) * 100)%Q in
             updateDownload downloadId
               [set_downloadedSegments existing; set_progress (round2 progress)]
           else ret tt) ;;;
          modify (with_downloadStats (insert downloadId
            {| startTime := now env;
               stats_downloadedBytes := or_default (downloadedBytes download) 0;
               totalBytes := or_default (fileSize download) 0 |})) ;;;
          modify (with_segmentFiles (insert downloadId (existingSegmentPaths check))) ;;;
          modify (with_failedSegments (insert downloadId ∅)) ;;;
          match mkdir_error env with
          | Some e => throw e
          | None =>
              modify (with_activeDownloads (insert downloadId true)) ;;;
              onProgress (download_status downloadId downloading None None None) ;;;
              match missingSegments check with
              | [] => checkDownloadCompletion env downloadId
              | _ :: _ =>
                  processDownload downloadId (missingSegments check)
                                  (List.length segments)
              end
          end
      end
  end.

(** The record of the job when [startDownload] has reconciled it with the
    disk: marked downloading, and given the count of the existing segments
    and the progress when there is at least one. *)
Definition reconciledRecord (download : Download) (segs : list string)
    (check : SegmentCheck) : Download :=
  let existing := Z.of_nat (List.length (existingSegments check)) in
  let started := assign download (set_status downloading) in
  if 0 <? existing then
    fold_left assign
      [set_downloadedSegments existing;
       set_progress (round2 (inject_Z existing
                             / inject_Z (Z.of_nat (List.length segs)) * 100))]
      started
  else started.

Definition pauseDownload (downloadId : string) : M unit :=
  modify (with_activeDownloads (insert downloadId false)) ;;;
  updateDownload downloadId [set_status paused] ;;;
  onProgress (download_status downloadId paused None None None).

Definition cancelDownload (downloadId : string) : M unit :=
  modify (with_activeDownloads (delete downloadId)) ;;;
  updateDownload downloadId [set_status cancelled] ;;;
  modify (with_downloadStats (delete downloadId)) ;;;
  modify (with_segmentFiles (delete downloadId)) ;;;
  modify (with_failedSegments (delete downloadId)) ;;;
  onProgress (download_status downloadId cancelled None None None).

(** routes.ts, [POST /api/downloads/:id/start]: the HTTP status and the
    [message] of the JSON answer. *)
Definition postStart (env : Env) (downloadId : string) (s : Engine)
    : Engine * (Z * string) :=
  match startDownload env downloadId s with
  | (s', Resolved _) => (s', (200, "Download started"))
  | (s', Rejected e) => (s', (500, err_message e))
  end.

(** ** createConcurrencyLimiter *)

(** The state of the closure [createConcurrencyLimiter] returns.  Tasks are
    named by numbers.  [waiting] is the array [queue]; the counter
    [running] is the length of [runningTasks], the tasks started and not yet
    settled; [startedTasks] keeps every task started, in the order of the
    starts. *)
Record Limiter := {
  waiting : list nat;
  runningTasks : list nat;
  startedTasks : list nat
}.

Definition newLimiter : Limiter :=
  {| waiting := []; runningTasks := []; startedTasks := [] |}.

Definition running (l : Limiter) : Z := Z.of_nat (List.length (runningTasks l)).

(** [const next = queue.shift(); if (next) next();]: the wrapper of the
    task increments [running] and calls the task. *)
Definition startNext (l : Limiter) : Limiter :=
  match waiting l with
  | [] => l
  | t :: q =>
      {| waiting := q;
         runningTasks := runningTasks l ++ [t];
         startedTasks := startedTasks l ++ [t] |}
  end.

(** A call [limit(fn)] of the limiter: the wrapper is queued, and the head
    of the queue is started when a slot is free. *)
Definition limiterSubmit (limit : Z) (t : nat) (l : Limiter) : Limiter :=
  let l1 := {| waiting := waiting l ++ [t];
               runningTasks := runningTasks l;
               startedTasks := startedTasks l |} in
  if running l1 <? limit then startNext l1 else l1.

Fixpoint removeTask (t : nat) (ts : list nat) : list nat :=
  match ts with
  | [] => []
  | u :: rest => if (u =? t)%nat then rest else u :: removeTask t rest
  end.

(** The task [t] settles: the [finally] block of its wrapper decrements
    [running] and starts the head of the queue when there is one and a slot
    is free.  Only a task that runs can settle. *)
Definition limiterSettle (limit : Z) (t : nat) (l : Limiter) : Limiter :=
  if existsb (Nat.eqb t) (runningTasks l) then
    let l1 := {| waiting := waiting l;
                 runningTasks := removeTask t (runningTasks l);
                 startedTasks := startedTasks l |} in
    if (0 <? Z.of_nat (List.length (waiting l1))) && (running l1 <? limit)
    then startNext l1 else l1
  else l.

Inductive LimiterEvent :=
| Submitted (t : nat)
| Settled (t : nat).

Definition limiterStep (limit : Z) (l : Limiter) (e : LimiterEvent) : Limiter :=
  match e with
  | Submitted t => limiterSubmit limit t l
  | Settled t => limiterSettle limit t l
  end.

(** The limiter after a sequence of calls and settlements. *)
Definition limiterRun (limit : Z) (events : list LimiterEvent) : Limiter :=
  fold_left (limiterStep limit) events newLimiter.

(** The tasks handed to the limiter, in the order of the calls. *)
Definition submittedTasks (events : list LimiterEvent) : list nat :=
  flat_map (fun e => match e with Submitted t => [t] | Settled _ => [] end) events.

(** ** processDownload for a job with one thread *)

(** [download.threads || 8], the size of the limiter. *)
Definition maxConcurrency (download : Download) : Z := or_default (threads download) 8.

(** The attempt [k] at a segment goes through: a 2xx answer with a body
    that is not empty, and the file written. *)
Definition attemptOk (env : Env) (segmentUrl : string) (segmentIndex : nat)
    (download : Download) (k : nat) : bool :=
  match http env segmentUrl k with
  | TransportError _ => false
  | Response status data =>
      (200 <=? status) && (status <? 300)
      && negb (Z.of_nat (List.length data) =? 0)
      && match segment_write_error env (segmentPath download segmentIndex) k with
         | Some _ => false
         | None => true
         end
  end.

(** One of the three attempts goes through. *)
Definition fetchOk (env : Env) (segmentUrl : string) (segmentIndex : nat)
    (download : Download) : bool :=
  attemptOk env segmentUrl segmentIndex download 1
  || attemptOk env segmentUrl segmentIndex download 2
  || attemptOk env segmentUrl segmentIndex download 3.

(** The tasks of [processDownload] under a limiter of one slot
    ([maxConcurrency download = 1]): each task starts when the one before
    it has settled, in the order of the list.
    [taskEnv i] is what the task of segment [i] meets (its HTTP answers, its
    write errors, its clock).  A rejected task is only logged
    ([Promise.allSettled]). *)
Fixpoint runTasks (taskEnv : nat -> Env) (downloadId : string) (download : Download)
    (missing : list (nat * string)) (total : nat) : M unit :=
  match missing with
  | [] => ret tt
  | segmentInfo :: rest =>
      try_catch
        (segmentTask (taskEnv (fst segmentInfo)) downloadId download segmentInfo total ;;;
         ret tt)
        (fun _ => ret tt) ;;;
      runTasks taskEnv downloadId download rest total
  end.

(** [processDownload] for a job whose [threads] is 1: the record is read
    once, the tasks run one after the other, then the completion check. *)
Definition processDownloadOneThread (taskEnv : nat -> Env) (env : Env)
    (downloadId : string) (missing : list (nat * string)) (total : nat) : M unit :=
  download <~ getDownload downloadId ;;
  match download with
  | None => ret tt
  | Some download =>
      runTasks taskEnv downloadId download missing total ;;;
      checkDownloadCompletion env downloadId
  end.

(** The segments of a list whose fetch goes through, and the others. *)
Definition fetchedOf (taskEnv : nat -> Env) (download : Download)
    (missing : list (nat * string)) : list (nat * string) :=
  List.filter (fun seg => fetchOk (taskEnv (fst seg)) (snd seg) (fst seg) download) missing.

Definition lostOf (taskEnv : nat -> Env) (download : Download)
    (missing : list (nat * string)) : list (nat * string) :=
  List.filter (fun seg => negb (fetchOk (taskEnv (fst seg)) (snd seg) (fst seg) download))
              missing.

(** ** handleDownloadError, and the launch of processDownload *)

Definition handleDownloadError (downloadId : string) (message : string) : M unit :=
  updateDownload downloadId [set_status error; set_errorMessage message] ;;;
  modify (with_activeDownloads (delete downloadId)) ;;;
  modify (with_downloadStats (delete downloadId)) ;;;
  onProgress (download_status downloadId error (Some message) None None).

(** [this.processDownload(...).catch(error => this.handleDownloadError(...))]
    for a job of one thread. *)
Definition launchOneThread (taskEnv : nat -> Env) (env : Env)
    (downloadId : string) (missing : list (nat * string)) (total : nat) : M unit :=
  try_catch (processDownloadOneThread taskEnv env downloadId missing total)
            (fun error => handleDownloadError downloadId (err_message error)).

(** ** updateDownloadProgress, from its first await on *)

(** What [updateDownloadProgress] does once [storage.getDownload] has
    answered with [download]: the byte counter, the figures computed from
    the record that was read, the write and the event. *)
Definition commitDownloadProgress (env : Env) (downloadId : string)
    (segmentSize : Z) (totalSegments : option Z) (download : Download) : M unit :=
  stats <~ gets (fun s => downloadStats s !! downloadId) ;;
  match stats with
  | None => ret tt
  | Some stats =>
      let stats :=
        {| startTime := startTime stats;
           stats_downloadedBytes := stats_downloadedBytes stats + segmentSize;
           totalBytes := totalBytes stats |} in
      modify (with_downloadStats (insert downloadId stats)) ;;;
      failed <~ gets (failedCount downloadId) ;;
      let f := figures env download stats failed totalSegments in
      updateDownload downloadId
        [set_downloadedSegments (newDownloadedSegments f);
         set_progress (round2 (rawProgress f));
         set_downloadedBytes (stats_downloadedBytes stats);
         set_speed (newSpeed f);
         set_eta (newEta f)] ;;;
      onProgress (download_progress downloadId (rawProgress f)
                    (newDownloadedSegments f) (newSpeed f) (newEta f)
                    (stats_downloadedBytes stats))
  end.

(** ** retryMerge *)

(** The loop of [retryMerge]: the paths of the segments below
    [totalSegments || 0] that [fs.access] finds, empty files included. *)
Definition reconstructedPaths (d : gmap string (list Byte.byte)) (download : Download)
    : list string :=
  List.filter (fun p => bool_decide (is_Some (d !! p)))
    (map (segmentPath download)
         (seq 0 (Z.to_nat (or_default (totalSegments download) 0)))).

Definition retryMerge (env : Env) (downloadId : string) : M unit :=
  download <~ getDownload downloadId ;;
  match download with
  | None => throw (mkError "Download not found")
  | Some download =>
      files <~ gets (fun s => default [] (segmentFiles s !! downloadId)) ;;
      (match files with
       | [] =>
           paths <~ gets (fun s => reconstructedPaths (disk s) download) ;;
           modify (with_segmentFiles (insert downloadId paths))
       | _ :: _ => ret tt
       end) ;;;
      mergeSegments env downloadId
  end.

(** ** routes.ts: the answers of the routes that call the engine *)


(** [storage.deleteDownload(id)]: the job goes from the store; the answer
    says whether there was one, as [Map.delete] does in [MemStorage]. *)
Definition deleteDownload (downloadId : string) : M bool :=
  present <~ gets (fun s => bool_decide (is_Some (store s !! downloadId))) ;;
  modify (with_store (delete downloadId)) ;;;
  ret present.

(** [DELETE /api/downloads/:id] *)
Definition deleteRoute (downloadId : string) (s : Engine) : Engine * (Z * string) :=
  match (cancelDownload downloadId ;;; deleteDownload downloadId) s with
  | (s', Resolved true) => (s', (200, "Download deleted"))
  | (s', Resolved false) => (s', (404, "Download not found"))
  | (s', Rejected _) => (s', (500, "Failed to delete download"))
  end.

(** [POST /api/downloads/:id/pause] and [.../cancel] *)
Definition postPause (downloadId : string) (s : Engine) : Engine * (Z * string) :=
  match pauseDownload downloadId s with
  | (s', Resolved _) => (s', (200, "Download paused"))
  | (s', Rejected _) => (s', (500, "Failed to pause download"))
  end.

Definition postCancel (downloadId : string) (s : Engine) : Engine * (Z * string) :=
  match cancelDownload downloadId s with
  | (s', Resolved _) => (s', (200, "Download cancelled"))
  | (s', Rejected _) => (s', (500, "Failed to cancel download"))
  end.

End DownloadEngine.

(* ===================================================================== *)
(** * m3u8-parser.ts: the playlist resolver                               *)
(* ===================================================================== *)

Module M3U8Parser.
Import JS.

(** The parsed playlist.  [totalDuration] sums [parseFloat] results and is
    left out: it is a floating-point figure no property below reads. *)
Record M3U8Playlist := {
  url : string;
  segments : list string;
  isLive : bool
}.

(** The answer to the GET of the playlist: an error thrown by axios, or
    [response.data] of a 2xx response.  That is the body as a string, unless
    axios has parsed the body as JSON into a value that is not a string
    (a number, an object, [null]): [content.split] then throws the
    [TypeError] [e]. *)
Inductive Fetch :=
| FetchError (e : Error)
| FetchBody (content : string)
| FetchParsed (e : Error).

(** [content.split('\n').map(line => line.trim()).filter(line => line)] *)
Definition playlistLines (content : string) : list string :=
  List.filter truthy (map trim (split (ascii_of_nat 10) content)).

(** The first [if] of the loop body: the liveness flag after a line. *)
Definition liveStep (isLive : bool) (line : string) : bool :=
  if includes line "#EXT-X-PLAYLIST-TYPE:VOD" then false
  else if includes line "#EXT-X-PLAYLIST-TYPE:LIVE"
          || includes line "#EXT-X-TARGETDURATION" then true
  else isLive.

(** The characters of a reversed string up to the first slash are dropped:
    what is left, reversed back, ends with the last slash of the string. *)
Fixpoint dropToSlash (reversed : string) : string :=
  match reversed with
  | EmptyString => EmptyString
  | String c rest => if Ascii.eqb c "/" then reversed else dropToSlash rest
  end.

(** [m3u8Url.substring(0, m3u8Url.lastIndexOf('/') + 1)] *)
Definition baseUrl (m3u8Url : string) : string :=
  String.rev (dropToSlash (String.rev m3u8Url)).

(** The last [if] of the loop body: the segment URL a line contributes. *)
Definition segmentStep (m3u8Url line : string) : list string :=
  if negb (startsWith line "#") && (0 <? Z.of_nat (String.length line)) then
    [if startsWith line "http" then line else baseUrl m3u8Url +:+ line]
  else [].

Definition parseLines (m3u8Url : string) (lines : list string) : M3U8Playlist :=
  let '(segments, isLive) :=
    fold_left (fun '(segments, isLive) line =>
                 (segments ++ segmentStep m3u8Url line, liveStep isLive line))
              lines ([], false) in
  {| url := m3u8Url; segments := segments; isLive := isLive |}.

Definition parsePlaylist (fetch : Fetch) (m3u8Url : string) : Promise M3U8Playlist :=
  match fetch with
  | FetchError e =>
      Rejected (mkError ("Failed to parse M3U8 playlist: " +:+ Error_toString e))
  | FetchBody content => Resolved (parseLines m3u8Url (playlistLines content))
  | FetchParsed e =>
      Rejected (mkError ("Failed to parse M3U8 playlist: " +:+ Error_toString e))
  end.

(** ** The filters at the end of a detection *)

(** [self.findIndex(d => d.url === url)] from position [i] on; [-1] when no
    detection has the URL. *)
Fixpoint findIndexFrom (i : nat) (url : string) (self : list string) : Z :=
  match self with
  | [] => -1
  | u :: rest => if String.eqb u url then Z.of_nat i else findIndexFrom (S i) url rest
  end.

Definition findIndex (url : string) (self : list string) : Z := findIndexFrom 0 url self.

(** [self.filter((detection, index, self) =>
      index === self.findIndex(d => d.url === detection.url))]
    on the URLs of the detections, for the elements from [index] on. *)
Fixpoint keepFirstFrom (self : list string) (index : nat) (rest : list string)
    : list string :=
  match rest with
  | [] => []
  | url :: rest' =>
      if Z.of_nat index =? findIndex url self
      then url :: keepFirstFrom self (S index) rest'
      else keepFirstFrom self (S index) rest'
  end.

Definition uniqueUrls (detections : list string) : list string :=
  keepFirstFrom detections 0 detections.

(** [isValidM3U8Url]; [parses url] says that [new URL(url)] does not
    throw. *)
Definition isValidM3U8Url (parses : string -> bool) (url : string) : bool :=
  parses url
  && (includes url ".m3u8"
      && (startsWith url "http://" || startsWith url "https://")).

(** [uniqueDetections], by the URLs of the detections. *)
Definition uniqueDetections (parses : string -> bool) (detections : list string)
    : list string :=
  List.filter (isValidM3U8Url parses) (uniqueUrls detections).

End M3U8Parser.

(* ===================================================================== *)
(** * The rules as the specification words them                           *)
(* ===================================================================== *)

Module Spec.
Import JS.

(** The completion rule of the supervisor, with the ceiling on two per cent
    of the segments in its third clause. *)
Definition completionRule (downloaded total failed : Z) : Prop :=
  total <= downloaded
  \/ ((98 # 100 <= inject_Z downloaded / inject_Z total)%Q /\ 0 < downloaded)
  \/ (total <= downloaded + failed
      /\ failed <= Z.max 2 (Qceiling (inject_Z total * (2 # 100)))).

(** The estimated time left: the segments still to fetch times the average
    time of a segment fetched in this run. *)
Definition eta (total downloaded failed : Z) (elapsedSeconds : Q)
    (segmentsThisRun : Z) : Z :=
  let remaining := total - downloaded - failed in
  if remaining <=? 0 then 0
  else Math_round (inject_Z remaining * (elapsedSeconds / inject_Z segmentsThisRun)).

(** The liveness of a media playlist: VOD whenever the VOD directive
    appears, else live when the LIVE directive or a target duration does. *)
Definition isLive (lines : list string) : bool :=
  if existsb (fun line => includes line "#EXT-X-PLAYLIST-TYPE:VOD") lines then false
  else existsb (fun line => includes line "#EXT-X-PLAYLIST-TYPE:LIVE") lines
       || existsb (fun line => includes line "#EXT-X-TARGETDURATION") lines.

(** The causes the specification names for a failed fetch attempt. *)
Definition attemptFails (answer : DownloadEngine.HttpOutcome) : Prop :=
  match answer with
  | DownloadEngine.TransportError _ => True
  | DownloadEngine.Response status data =>
      ~ (200 <= status < 300) \/ data = []
  end.

(** The GETs and the sleeps of [n] attempts that start with attempt [k]:
    [min(1000 * k, 5000)] milliseconds go by between attempt [k] and the
    next one. *)
Fixpoint retryTrace (url : string) (k n : nat) : list DownloadEngine.Effect :=
  match n with
  | O => []
  | S n' =>
      match n' with
      | O => [DownloadEngine.HttpGet url]
      | S _ =>
          DownloadEngine.HttpGet url
            :: DownloadEngine.Sleep (Z.min (1000 * Z.of_nat k) 5000)
            :: retryTrace url (S k) n'
      end
  end.

End Spec.

(* ===================================================================== *)
(** * The rules as the code has them, where they differ                   *)
(* ===================================================================== *)

Module Amended.
Import JS DownloadEngine.

(** A fetch attempt fails for one of the causes the specification names, or
    because the segment file cannot be written. *)
Definition attemptFails (env : Env) (segmentUrl : string) (segmentIndex : nat)
    (download : Download) (k : nat) : Prop :=
  Spec.attemptFails (http env segmentUrl k)
  \/ segment_write_error env (segmentPath download segmentIndex) k <> None.

End Amended.

(* ===================================================================== *)
(** * Concrete jobs, engines and environments                             *)
(* ===================================================================== *)

Module Examples.
Import JS DownloadEngine.

(** A job named [movie] that writes under [downloads]. *)
Definition job (downloaded total : Z) (segs : option (list string)) : Download :=
  {| id := "job"; filename := "movie"; status := downloading; progress := 0;
     totalSegments := Some total; downloadedSegments := Some downloaded;
     fileSize := Some 0; downloadedBytes := Some 0; speed := None; eta := None;
     threads := Some 4; outputPath := "downloads"; outputFile := None;
     duration := None; errorMessage := None; segments := segs |}.

Definition twoUrls : list string := ["http://cdn/0.ts"; "http://cdn/1.ts"].

(** A muxer driver for which every file operation works and whose muxer run
    ends as given. *)
Definition driver (run : VideoMerger.RunOutcome) : VideoMerger.Env :=
  {| VideoMerger.cwd := "/srv";
     VideoMerger.probe := fun _ => true;
     VideoMerger.installer_path := None;
     VideoMerger.mkdir_error := None;
     VideoMerger.manifest_write_error := None;
     VideoMerger.ffmpeg_run := run;
     VideoMerger.manifest_unlink_error := None;
     VideoMerger.ffprobe_duration := None;
     VideoMerger.unlink_fails := fun _ => false;
     VideoMerger.stream_error := None;
     VideoMerger.stream_error_early := false |}.

Definition oneByte : list Byte.byte := [Byte.x47].

(** Every GET answers 200 with one byte; segment writes fail as given. *)
Definition env (clock : Z) (writeError : option Error) (run : VideoMerger.RunOutcome)
    : Env :=
  {| now := clock;
     mkdir_error := None;
     http := fun _ _ => Response 200 oneByte;
     segment_write_error := fun _ _ => writeError;
     merger := driver run |}.

Definition engine (d : Download) (failed : gset nat) (files : list string)
    (onDisk : gmap string (list Byte.byte)) : Engine :=
  {| store := {[ "job" := d ]};
     activeDownloads := ∅;
     downloadStats := ∅;
     segmentFiles := {[ "job" := files ]};
     failedSegments := {[ "job" := failed ]};
     world := {| VideoMerger.disk := onDisk; VideoMerger.ffmpegPath := None |};
     trace := [] |}.

(** The error of a write on a full disk. *)
Definition diskFull : Error := mkError "ENOSPC: no space left on device, write".

(** The engine of a job of two segments, none fetched, nothing on disk. *)
Definition fresh : Engine := engine (job 0 2 (Some twoUrls)) ∅ [] ∅.

(** Ten segments, two fetched since the start of the run at time 0, and the
    third just written. *)
Definition running : Engine :=
  with_downloadStats
    (insert "job" {| startTime := 0; stats_downloadedBytes := 2; totalBytes := 0 |})
    (engine (job 2 10 (Some twoUrls)) ∅ [] ∅).

Definition nl : string := String (ascii_of_nat 10) EmptyString.

(** A media playlist whose type directive comes before the target
    duration. *)
Definition vodFirst : string :=
  "#EXTM3U" +:+ nl +:+ "#EXT-X-PLAYLIST-TYPE:VOD" +:+ nl
  +:+ "#EXT-X-TARGETDURATION:10" +:+ nl +:+ "#EXTINF:10," +:+ nl
  +:+ "seg0.ts" +:+ nl +:+ "#EXT-X-ENDLIST" +:+ nl.

End Examples.


(* ===================================================================== *)
(** * Jobs of one thread                                                  *)
(* ===================================================================== *)

Module Scenarios.
Import JS DownloadEngine.

(** The job of [Examples] with one thread and two segments, [downloaded] of
    them counted. *)
Definition solo (downloaded : Z) : Download :=
  {| id := "job"; filename := "movie"; status := downloading; progress := 0;
     totalSegments := Some 2; downloadedSegments := Some downloaded;
     fileSize := Some 0; downloadedBytes := Some 0; speed := None; eta := None;
     threads := Some 1; outputPath := "downloads"; outputFile := None;
     duration := None; errorMessage := None; segments := Some Examples.twoUrls |}.

Definition soloJob : Download := solo 0.

(** Every GET is answered, every write works, the muxer ends. *)
Definition quiet : Env := Examples.env 0 None (VideoMerger.RunEnd []).

(** Every GET is answered 404. *)
Definition notFound : Env :=
  {| now := 0;
     mkdir_error := None;
     http := fun _ _ => Response 404 [];
     segment_write_error := fun _ _ => None;
     merger := Examples.driver (VideoMerger.RunEnd []) |}.


(** The task of segment 1 meets only 404 answers. *)
Definition secondLost : nat -> Env :=
  fun i => if (i =? 1)%nat then notFound else quiet.

(** The engine of the started job: marked active, its statistics set. *)
Definition live : Engine :=
  with_activeDownloads (insert "job" true)
    (with_downloadStats
       (insert "job" {| startTime := 0; stats_downloadedBytes := 0; totalBytes := 0 |})
       (Examples.engine soloJob ∅ [] ∅)).



(** The creation of the output directory fails. *)
Definition readOnly : Env :=
  {| now := 0;
     mkdir_error := Some (mkError "EACCES: permission denied, mkdir 'downloads'");
     http := fun _ _ => Response 200 Examples.oneByte;
     segment_write_error := fun _ _ => None;
     merger := Examples.driver (VideoMerger.RunEnd []) |}.

(** A muxer driver whose write stream cannot open the output file, because
    a directory has its name; [early] says that the ['error'] event fires
    while the segments are read. *)
Definition streamFails (early : bool) : VideoMerger.Env :=
  {| VideoMerger.cwd := "/srv";
     VideoMerger.probe := fun _ => false;
     VideoMerger.installer_path := None;
     VideoMerger.mkdir_error := None;
     VideoMerger.manifest_write_error := None;
     VideoMerger.ffmpeg_run := VideoMerger.RunEnd [];
     VideoMerger.manifest_unlink_error := None;
     VideoMerger.ffprobe_duration := None;
     VideoMerger.unlink_fails := fun _ => false;
     VideoMerger.stream_error :=
       Some {| err_name := "Error";
               err_message :=
                 "EISDIR: illegal operation on a directory, open 'downloads/movie.mkv'" |};
     VideoMerger.stream_error_early := early |}.

End Scenarios.
(* ===================================================================== *)
(** * Properties                                                          *)
(* ===================================================================== *)

Import JS.

(** Unfolds the plumbing of the asynchronous methods and leaves the calls
    into the muxer driver folded. *)
Ltac run_step :=
  cbv beta iota delta
    [DownloadEngine.bind DownloadEngine.try_catch DownloadEngine.ret
     DownloadEngine.throw DownloadEngine.getDownload DownloadEngine.gets
     DownloadEngine.onProgress DownloadEngine.perform DownloadEngine.modify
     DownloadEngine.updateDownload DownloadEngine.processDownload
     DownloadEngine.checkExistingSegments fst snd].

(** ** The engine's calls into the muxer driver *)

Section EngineFrames.
Import DownloadEngine.

Lemma runMerger_store (env : Env) (downloadId : string) (d : Download)
    (files : list string) (s : Engine) :
  store (runMerger env downloadId d files s).1 = store s.
Proof.
  unfold runMerger, callMerger. run_step.
  destruct (VideoMerger.settled _); reflexivity.
Qed.

Lemma runMerger_resolves (env : Env) (downloadId : string) (d : Download)
    (files : list string) (s : Engine) :
  exists r, (runMerger env downloadId d files s).2 = Resolved r.
Proof.
  unfold runMerger, callMerger. run_step.
  destruct (VideoMerger.settled (VideoMerger.mergeSegmentsToMKV _ _ _)) eqn:E.
  - eauto.
  - cbn. unfold VideoMerger.mergeSegmentsBinary.
    repeat (match goal with |- context [match ?x with _ => _ end] => destruct x end;
            cbn; eauto).
Qed.

(** The record of the job after [mergeSegments]: untouched when there is
    nothing to merge, else marked completed on both branches. *)
Lemma mergeSegments_record (env : Env) (downloadId : string) (s : Engine) (d : Download) :
  store s !! downloadId = Some d ->
  exists d',
    store (mergeSegments env downloadId s).1 !! downloadId = Some d'
    /\ (d' = d \/ status d' = completed)
    /\ downloadedSegments d' = downloadedSegments d
    /\ (mergeSegments env downloadId s).2 = Resolved tt.
Proof.
  intros Hs. unfold mergeSegments. run_step. rewrite Hs.
  destruct (default [] (segmentFiles s !! downloadId)) as [|p files].
  - eauto 6.
  - match goal with |- context [runMerger ?e ?i ?dd ?ff ?ss] =>
      pose proof (runMerger_store e i dd ff ss) as Hst;
      destruct (runMerger_resolves e i dd ff ss) as [r Hr];
      destruct (runMerger e i dd ff ss) as [s2 res] end.
    simpl in Hr; subst res.
    simpl in Hst; unfold with_store in Hst; simpl in Hst; rewrite Hs in Hst.
    destruct (VideoMerger.success r); simpl; rewrite Hst, lookup_insert_eq,
      insert_insert_eq, lookup_insert_eq;
      (eexists; split; [reflexivity|]); destruct d; simpl; auto.
Qed.

End EngineFrames.

(** ** The completion check *)

Section Completion.
Import DownloadEngine.

Lemma or_default_zero (d : Z) : or_default (Some d) 0 = d.
Proof. unfold or_default. destruct (Z.eqb_spec d 0); congruence. Qed.

Lemma or_default_nonzero (t k : Z) : t <> 0 -> or_default (Some t) k = t.
Proof. unfold or_default. destruct (Z.eqb_spec t 0); congruence. Qed.

Lemma shouldComplete_iff (d t f : Z) :
  shouldComplete d t f = true <->
  (t <= d
   \/ ((98 # 100 <= inject_Z d / inject_Z t)%Q /\ 0 < d)
   \/ (t <= d + f /\ (inject_Z f <= Qmax 2 (inject_Z t * (2 # 100)))%Q)).
Proof.
  unfold shouldComplete, completionThreshold.
  rewrite !orb_true_iff, !andb_true_iff, !Z.leb_le, Z.ltb_lt, !Qle_bool_iff.
  tauto.
Qed.

(** The record of the job after the completion check. *)
Lemma checkDownloadCompletion_record (env : Env) (downloadId : string) (s : Engine)
    (d : Download) :
  store s !! downloadId = Some d ->
  let decision :=
    shouldComplete (or_default (downloadedSegments d) 0)
                   (or_default (totalSegments d) 1) (failedCount downloadId s) in
  exists d',
    store (checkDownloadCompletion env downloadId s).1 !! downloadId = Some d'
    /\ (if decision then status d' = completed else d' = d)
    /\ downloadedSegments d' = downloadedSegments d
    /\ (checkDownloadCompletion env downloadId s).2 = Resolved tt.
Proof.
  intros Hs decision. unfold checkDownloadCompletion. run_step. rewrite Hs.
  fold decision. destruct decision.
  - match goal with |- context [mergeSegments ?e ?i ?ss] =>
      destruct (mergeSegments_record e i ss
                  (fold_left assign
                     [set_status completed;
                      set_progress
                        (inject_Z
                           (Z.min 100
                              (Math_round
                                 (inject_Z (or_default (downloadedSegments d) 0)
                                  / inject_Z (or_default (totalSegments d) 1) * 100))))]
                     d))
        as (d' & Hd' & Hstatus & Hcount & Hres);
      [ simpl; rewrite Hs; apply lookup_insert_eq |];
      destruct (mergeSegments e i ss) as [s2 res] end.
    simpl in Hd', Hres. subst res. simpl. exists d'. repeat split; try assumption.
    + destruct Hstatus as [-> | H]; [destruct d; reflexivity | exact H].
    + rewrite Hcount. destruct d; reflexivity.
  - exists d. auto.
Qed.

(** C1, as amended: for a stored job with [total_segments > 0] that is not
    yet marked completed, the completion check marks it completed exactly
    when [downloaded >= total], or [downloaded / total >= 0.98] with
    [downloaded > 0], or [downloaded + |failed| >= total] with
    [|failed| <= max(2, total * 0.02)]: the bound of the third rule is two
    per cent of the segments as it is, with no ceiling. *)
Theorem completion_check_decides (env : Env) (s : Engine) (downloadId : string)
    (download : Download) (d t : Z) :
  store s !! downloadId = Some download ->
  downloadedSegments download = Some d ->
  totalSegments download = Some t ->
  0 < t ->
  status download <> completed ->
  let f := failedCount downloadId s in
  let s' := (checkDownloadCompletion env downloadId s).1 in
  (exists download', store s' !! downloadId = Some download'
                     /\ status download' = completed)
  <-> (t <= d
       \/ ((98 # 100 <= inject_Z d / inject_Z t)%Q /\ 0 < d)
       \/ (t <= d + f /\ (inject_Z f <= Qmax 2 (inject_Z t * (2 # 100)))%Q)).
Proof.
  intros Hs Hd Ht Hpos Hstatus f s'.
  destruct (checkDownloadCompletion_record env downloadId s download Hs)
    as (d' & Hd' & Hdec & _ & _).
  rewrite Hd, Ht, or_default_zero, or_default_nonzero in Hdec by lia.
  fold f in Hdec. rewrite <- shouldComplete_iff.
  destruct (shouldComplete d t f).
  - split; [reflexivity|]. intros _. exists d'. split; assumption.
  - split; [|discriminate]. intros (d'' & Hd'' & Hc).
    unfold s' in Hd''. rewrite Hd' in Hd''. congruence.
Qed.

(** The rule holds for 99 of 100 segments with one failed. *)
Lemma completion_check_decides_witness :
  (exists download',
      store (checkDownloadCompletion (Examples.env 0 None (VideoMerger.RunEnd []))
               "job"
               (Examples.engine (Examples.job 99 100 (Some [])) {[ 42%nat ]} [] ∅)).1
        !! "job" = Some download'
      /\ status download' = completed)
  <-> (100 <= 99
       \/ ((98 # 100 <= inject_Z 99 / inject_Z 100)%Q /\ 0 < 99)
       \/ (100 <= 99 + failedCount "job"
                         (Examples.engine (Examples.job 99 100 (Some [])) {[ 42%nat ]} [] ∅)
           /\ (inject_Z (failedCount "job"
                           (Examples.engine (Examples.job 99 100 (Some []))
                              {[ 42%nat ]} [] ∅))
               <= Qmax 2 (inject_Z 100 * (2 # 100)))%Q)).
Proof.
  apply (completion_check_decides (Examples.env 0 None (VideoMerger.RunEnd [])) 
           (Examples.engine (Examples.job 99 100 (Some [])) {[ 42%nat ]} [] ∅)
           "job" (Examples.job 99 100 (Some [])) 99 100);
    [reflexivity | reflexivity | reflexivity | lia | discriminate].
Defined.

(** With 98 of 101 segments fetched and 3 failed, the rule with the ceiling
    holds ([3 <= max(2, ceil(2.02))]), and the check leaves the job as it
    is: the code compares with [max(2, 2.02)]. *)
Lemma completion_ceiling_counterexample :
  Spec.completionRule 98 101 3
  /\ shouldComplete 98 101 3 = false
  /\ status <$> store (checkDownloadCompletion
                         (Examples.env 0 None (VideoMerger.RunEnd [])) "job"
                         (Examples.engine (Examples.job 98 101 (Some []))
                            {[ 1%nat; 2%nat; 3%nat ]} [] ∅)).1 !! "job"
     = Some downloading.
Proof.
  split; [|split; vm_compute; reflexivity].
  right; right. split; [lia|]. vm_compute. discriminate.
Qed.

End Completion.

(** ** The segment fetcher *)

Section Fetcher.
Import DownloadEngine.

Variable env : Env.
Variable segmentUrl : string.
Variable segmentIndex : nat.
Variable download : Download.

Local Abbreviation fails := (Amended.attemptFails env segmentUrl segmentIndex download).
Local Abbreviation fetched := (DownloadEngine.fetched segmentUrl segmentIndex download).

Lemma attemptSegment_cases (k : nat) :
  (fails k
   /\ exists e, forall s,
        attemptSegment env segmentUrl segmentIndex download k s
        = (with_trace (fun t => t ++ [HttpGet segmentUrl]) s, Rejected e))
  \/ (~ fails k
      /\ exists status data,
           http env segmentUrl k = Response status data
           /\ forall s,
                attemptSegment env segmentUrl segmentIndex download k s
                = (fetched data s, Resolved (Z.of_nat (List.length data)))).
Proof.
  unfold attemptSegment, Amended.attemptFails, DownloadEngine.fetched. run_step.
  destruct (http env segmentUrl k) as [e | status data] eqn:Hhttp; simpl.
  - left. split; [now left | eauto].
  - destruct (Z.leb_spec 200 status), (Z.ltb_spec status 300); simpl;
      try (left; split; [left; left; lia | eauto]).
    destruct data as [|b data]; simpl.
    + left. split; [left; now right | eauto].
    + destruct (segment_write_error env (segmentPath download segmentIndex) k)
        as [e|] eqn:Hw.
      * left. split; [right; congruence | eauto].
      * right. split; [|eauto].
        intros [[H1 | H1] | H1]; [lia | discriminate | congruence].
Qed.

Lemma downloadSegmentLoop_cons (k : nat) (rest : list nat) (lastError : option Error)
    (s : Engine) :
  downloadSegmentLoop env segmentUrl segmentIndex download (k :: rest) lastError s
  = match attemptSegment env segmentUrl segmentIndex download k s with
    | (s', Resolved size) => (s', Resolved size)
    | (s', Rejected e) =>
        downloadSegmentLoop env segmentUrl segmentIndex download rest (Some e)
          (if (k <? maxRetries)%nat
           then with_trace (fun t => t ++ [Sleep (Z.min (1000 * Z.of_nat k) 5000)]) s'
           else s')
    end.
Proof.
  simpl. unfold try_catch, bind.
  destruct (attemptSegment env segmentUrl segmentIndex download k s) as [s' [size|e]];
    [reflexivity|].
  destruct (k <? maxRetries)%nat; reflexivity.
Qed.

(** C2, as amended: a segment fetch makes at most three GETs; an attempt
    fails exactly when the transport fails, the status is not 2xx, the body
    has zero bytes, or the write of the segment file fails; between attempt
    [k] and attempt [k+1] it sleeps [min(1000 * k, 5000)] milliseconds; it
    returns the size at the first attempt that does not fail, and after a
    third failed attempt it rejects with a message that carries the last
    error, never making a fourth GET. *)
Theorem downloadSegment_retries (s : Engine) :
  let run := downloadSegment env segmentUrl segmentIndex download s in
  (forall k s0,
      (exists e, (attemptSegment env segmentUrl segmentIndex download k s0).2
                 = Rejected e) <-> fails k)
  /\ exists n,
       (1 <= n <= 3)%nat
       /\ trace run.1 = trace s ++ Spec.retryTrace segmentUrl 1 n
       /\ (forall k, (1 <= k < n)%nat -> fails k)
       /\ ((~ fails n
            /\ exists status data,
                 http env segmentUrl n = Response status data
                 /\ run.2 = Resolved (Z.of_nat (List.length data))
                 /\ disk run.1 !! segmentPath download segmentIndex = Some data)
           \/ (n = 3%nat /\ fails 3
               /\ exists e,
                    (attemptSegment env segmentUrl segmentIndex download 3 s).2
                    = Rejected e
                    /\ run.2 = Rejected (mkError
                         ("Failed to download segment " +:+ pretty segmentIndex
                          +:+ " after 3 attempts: " +:+ Error_toString e)))).
Proof.
  intros run. split.
  - intros k s0. destruct (attemptSegment_cases k) as [[Hf [e He]] | [Hf (st & data & _ & Hd)]].
    + rewrite He. simpl. split; eauto.
    + rewrite Hd. simpl. split; [intros [e He]; discriminate | tauto].
  - subst run. unfold downloadSegment, maxRetries. simpl seq.
    rewrite downloadSegmentLoop_cons.
    destruct (attemptSegment_cases 1) as [[F1 [e1 E1]] | [F1 (st & data & Hh & E1)]];
      rewrite E1.
    2:{ exists 1%nat. repeat split; try lia.
        left. split; [exact F1|]. exists st, data. repeat split; [exact Hh|].
        unfold DownloadEngine.fetched, disk; simpl. apply lookup_insert_eq. }
    rewrite downloadSegmentLoop_cons.
    destruct (attemptSegment_cases 2) as [[F2 [e2 E2]] | [F2 (st & data & Hh & E2)]];
      rewrite E2.
    2:{ exists 2%nat. repeat split; try lia.
        - simpl. rewrite <- !app_assoc. reflexivity.
        - intros k Hk. assert (k = 1%nat) as -> by lia. exact F1.
        - left. split; [exact F2|]. exists st, data. repeat split; [exact Hh|].
          unfold DownloadEngine.fetched, disk; simpl. apply lookup_insert_eq. }
    rewrite downloadSegmentLoop_cons.
    destruct (attemptSegment_cases 3) as [[F3 [e3 E3]] | [F3 (st & data & Hh & E3)]];
      rewrite E3.
    2:{ exists 3%nat. repeat split; try lia.
        - simpl. rewrite <- !app_assoc. reflexivity.
        - intros k Hk. assert (k = 1 \/ k = 2)%nat as [-> | ->] by lia; assumption.
        - left. split; [exact F3|]. exists st, data. repeat split; [exact Hh|].
          unfold DownloadEngine.fetched, disk; simpl. apply lookup_insert_eq. }
    exists 3%nat. repeat split; try lia.
    + simpl. rewrite <- !app_assoc. reflexivity.
    + intros k Hk. assert (k = 1 \/ k = 2)%nat as [-> | ->] by lia; assumption.
    + right. repeat split; [exact F3|]. exists e3. rewrite E3. split; reflexivity.
Qed.

(** A job that is paused or cancelled: the task throws the sentinel, makes
    no GET and leaves the failed set alone. *)
Lemma segmentTask_not_active (downloadId : string) (total : nat) (s : Engine) :
  activeDownloads s !! downloadId <> Some true ->
  segmentTask env downloadId download (segmentIndex, segmentUrl) total s
  = (s, Rejected (mkError "Download paused or cancelled")).
Proof.
  intros Hactive. unfold segmentTask. run_step.
  destruct (activeDownloads s !! downloadId) as [[|]|]; [congruence | reflexivity..].
Qed.

(** Three failed attempts of a task of a live job: the index joins the
    failed set and the task rejects. *)
Lemma segmentTask_exhausted (downloadId : string) (total : nat) (s : Engine) :
  activeDownloads s !! downloadId = Some true ->
  fails 1 -> fails 2 -> fails 3 ->
  let run := segmentTask env downloadId download (segmentIndex, segmentUrl) total s in
  (exists e, run.2 = Rejected e)
  /\ failedSegments run.1 !! downloadId
     = Some (default ∅ (failedSegments s !! downloadId) ∪ {[segmentIndex]})
  /\ store run.1 = store s.
Proof.
  intros Hactive F1 F2 F3. unfold segmentTask. run_step. rewrite Hactive. simpl.
  unfold downloadSegment, maxRetries. simpl seq.
  rewrite !downloadSegmentLoop_cons.
  destruct (attemptSegment_cases 1) as [[_ [e1 E1]] | [N1 _]]; [|contradiction].
  rewrite E1. rewrite !downloadSegmentLoop_cons.
  destruct (attemptSegment_cases 2) as [[_ [e2 E2]] | [N2 _]]; [|contradiction].
  rewrite E2. rewrite !downloadSegmentLoop_cons.
  destruct (attemptSegment_cases 3) as [[_ [e3 E3]] | [N3 _]]; [|contradiction].
  rewrite E3. simpl. split; [eauto|]. split; [apply lookup_insert_eq | reflexivity].
Qed.

End Fetcher.

(** Every GET answers 200 with one byte and the disk is full: no attempt
    fails for a cause the specification names, yet each attempt fails, the
    fetcher retries twice and reports the segment as failed. *)
Lemma write_failure_counterexample :
  ~ Spec.attemptFails
      (DownloadEngine.http
         (Examples.env 0 (Some Examples.diskFull) (VideoMerger.RunEnd []))
         "http://cdn/0.ts" 1)
  /\ (DownloadEngine.attemptSegment
        (Examples.env 0 (Some Examples.diskFull) (VideoMerger.RunEnd []))
        "http://cdn/0.ts" 0 (Examples.job 0 2 (Some Examples.twoUrls)) 1
        Examples.fresh).2
     = Rejected Examples.diskFull
  /\ DownloadEngine.trace
       (DownloadEngine.downloadSegment
          (Examples.env 0 (Some Examples.diskFull) (VideoMerger.RunEnd []))
          "http://cdn/0.ts" 0 (Examples.job 0 2 (Some Examples.twoUrls))
          Examples.fresh).1
     = Spec.retryTrace "http://cdn/0.ts" 1 3
  /\ (DownloadEngine.downloadSegment
        (Examples.env 0 (Some Examples.diskFull) (VideoMerger.RunEnd []))
        "http://cdn/0.ts" 0 (Examples.job 0 2 (Some Examples.twoUrls))
        Examples.fresh).2
     = Rejected (mkError ("Failed to download segment 0 after 3 attempts: "
                          +:+ "Error: ENOSPC: no space left on device, write")).
Proof.
  repeat split; try (vm_compute; reflexivity).
  simpl. intros [H | H]; [lia | discriminate].
Qed.

(** ** What the merge and the completion check add to the trace *)

Section EngineTrace.
Import DownloadEngine.

Lemma runMerger_trace (env : Env) (downloadId : string) (d : Download)
    (files : list string) (s : Engine) :
  exists events, trace (runMerger env downloadId d files s).1 = trace s ++ events
                 /\ emitsOnly events.
Proof.
  unfold runMerger, callMerger. run_step.
  destruct (VideoMerger.settled (VideoMerger.mergeSegmentsToMKV _ _ _)); simpl.
  - exists []. split; [now rewrite app_nil_r | constructor].
  - eexists. split; [reflexivity|]. repeat constructor. eauto.
Qed.

Lemma mergeSegments_trace (env : Env) (downloadId : string) (s : Engine) :
  exists events, trace (mergeSegments env downloadId s).1 = trace s ++ events
                 /\ emitsOnly events.
Proof.
  unfold mergeSegments. run_step.
  destruct (store s !! downloadId) as [d|];
    [| exists []; split; [now rewrite app_nil_r | constructor]].
  destruct (default [] (segmentFiles s !! downloadId)) as [|p files];
    [exists []; split; [now rewrite app_nil_r | constructor] |].
  match goal with |- context [runMerger ?e ?i ?dd ?ff ?ss] =>
    destruct (runMerger_trace e i dd ff ss) as (ev & Hev & Hemit);
    destruct (runMerger e i dd ff ss) as [s2 [r|err]] end;
    simpl in Hev; [destruct (VideoMerger.success r)|]; simpl; rewrite Hev;
    rewrite <- !app_assoc; (eexists; split; [reflexivity|]);
    (apply Forall_app; split; [repeat constructor; eauto|]);
    (apply Forall_app; split; [exact Hemit | repeat constructor; eauto]).
Qed.

Lemma checkDownloadCompletion_trace (env : Env) (downloadId : string) (s : Engine) :
  exists events,
    trace (checkDownloadCompletion env downloadId s).1 = trace s ++ events
    /\ emitsOnly events.
Proof.
  unfold checkDownloadCompletion. run_step.
  destruct (store s !! downloadId) as [d|];
    [| exists []; split; [now rewrite app_nil_r | constructor]].
  destruct (shouldComplete _ _ _);
    [| exists []; split; [now rewrite app_nil_r | constructor]].
  match goal with |- context [mergeSegments ?e ?i ?ss] =>
    destruct (mergeSegments_trace e i ss) as (ev & Hev & Hemit);
    destruct (mergeSegments e i ss) as [s2 [r|err]] end;
    simpl in Hev; simpl; rewrite Hev.
  - rewrite <- app_assoc. eexists; split; [reflexivity|].
    apply Forall_app; split; [exact Hemit | repeat constructor; eauto].
  - eexists; split; [reflexivity | exact Hemit].
Qed.

End EngineTrace.

(** ** Start: reconciling the job with the disk *)

Section Start.
Import DownloadEngine.

Lemma presentb_iff (d : gmap string (list Byte.byte)) (download : Download) (i : nat) :
  presentb d download i = true
  <-> exists bytes, d !! segmentPath download i = Some bytes
                    /\ (0 < List.length bytes)%nat.
Proof.
  unfold presentb. destruct (d !! segmentPath download i) as [[|b bytes]|].
  - split; [discriminate|]. intros (bytes & [= <-] & H). simpl in H. lia.
  - split; [|reflexivity]. intros _. eexists. split; [reflexivity|]. simpl. lia.
  - split; [discriminate|]. intros (bytes & H & _). discriminate.
Qed.

Lemma checkSegmentsFrom_nonempty (d : gmap string (list Byte.byte)) (download : Download)
    (i : nat) :
  match d !! segmentPath download i with
  | Some bytes => 0 <? Z.of_nat (List.length bytes)
  | None => false
  end = presentb d download i.
Proof.
  unfold presentb. destruct (d !! segmentPath download i) as [[|b bytes]|]; reflexivity.
Qed.

Lemma checkSegmentsFrom_existing (d : gmap string (list Byte.byte)) (download : Download)
    (urls : list string) (i0 : nat) :
  map fst (existingSegments (checkSegmentsFrom d download i0 urls))
  = List.filter (presentb d download) (seq i0 (List.length urls)).
Proof.
  revert i0. induction urls as [|u urls IH]; intros i0; [reflexivity|].
  simpl. rewrite checkSegmentsFrom_nonempty.
  destruct (presentb d download i0); simpl; now rewrite IH.
Qed.

Lemma checkSegmentsFrom_missing (d : gmap string (list Byte.byte)) (download : Download)
    (urls : list string) (i0 : nat) :
  map fst (missingSegments (checkSegmentsFrom d download i0 urls))
  = List.filter (fun i => negb (presentb d download i)) (seq i0 (List.length urls)).
Proof.
  revert i0. induction urls as [|u urls IH]; intros i0; [reflexivity|].
  simpl. rewrite checkSegmentsFrom_nonempty.
  destruct (presentb d download i0); simpl; now rewrite IH.
Qed.

Lemma checkSegmentsFrom_paths (d : gmap string (list Byte.byte)) (download : Download)
    (urls : list string) (i0 : nat) :
  existingSegmentPaths (checkSegmentsFrom d download i0 urls)
  = map (fun e => segmentPath download (fst e))
        (existingSegments (checkSegmentsFrom d download i0 urls)).
Proof.
  revert i0. induction urls as [|u urls IH]; intros i0; [reflexivity|].
  simpl. destruct (match d !! segmentPath download i0 with
                   | Some bytes => 0 <? Z.of_nat (List.length bytes)
                   | None => false end); simpl; now rewrite IH.
Qed.

Lemma checkSegmentsFrom_urls (d : gmap string (list Byte.byte)) (download : Download)
    (urls : list string) (i0 i : nat) (url : string) :
  In (i, url) (existingSegments (checkSegmentsFrom d download i0 urls)
               ++ missingSegments (checkSegmentsFrom d download i0 urls)) ->
  (i0 <= i)%nat /\ urls !! (i - i0)%nat = Some url.
Proof.
  revert i0. induction urls as [|u urls IH]; intros i0; [intros []|].
  simpl. destruct (match d !! segmentPath download i0 with
                   | Some bytes => 0 <? Z.of_nat (List.length bytes)
                   | None => false end); simpl; rewrite ?in_app_iff; simpl.
  - intros [[= <- <-] | [H | H]].
    + split; [lia|]. now rewrite Nat.sub_diag.
    + destruct (IH (S i0)) as [Hle Hl]; [apply in_app_iff; now left|].
      split; [lia|]. replace (i - i0)%nat with (S (i - S i0)) by lia. exact Hl.
    + destruct (IH (S i0)) as [Hle Hl]; [apply in_app_iff; now right|].
      split; [lia|]. replace (i - i0)%nat with (S (i - S i0)) by lia. exact Hl.
  - intros [H | [[= <- <-] | H]].
    + destruct (IH (S i0)) as [Hle Hl]; [apply in_app_iff; now left|].
      split; [lia|]. replace (i - i0)%nat with (S (i - S i0)) by lia. exact Hl.
    + split; [lia|]. now rewrite Nat.sub_diag.
    + destruct (IH (S i0)) as [Hle Hl]; [apply in_app_iff; now right|].
      split; [lia|]. replace (i - i0)%nat with (S (i - S i0)) by lia. exact Hl.
Qed.

(** The shape of a start on a stored job with a segment list: the state
    [s1] after the reconciliation, then the failure of [mkdir], the
    completion check, or the launch of the workers. *)
Lemma startDownload_shape (env : Env) (downloadId : string) (s : Engine)
    (download : Download) (segs : list string) :
  store s !! downloadId = Some download ->
  segments download = Some segs ->
  let check := checkSegmentsFrom (disk s) download 0 segs in
  exists s1,
    startDownload env downloadId s
    = match mkdir_error env with
      | Some e => (s1, Rejected e)
      | None =>
          let s2 :=
            with_trace
              (fun t => t ++ [Emit (download_status downloadId downloading
                                      None None None)])
              (with_activeDownloads (insert downloadId true) s1) in
          match missingSegments check with
          | [] => checkDownloadCompletion env downloadId s2
          | _ :: _ =>
              (with_trace
                 (fun t => t ++ [Launch downloadId (missingSegments check)
                                        (List.length segs)]) s2,
               Resolved tt)
          end
      end
    /\ store s1 !! downloadId = Some (reconciledRecord download segs check)
    /\ trace s1 = trace s
    /\ world s1 = world s
    /\ activeDownloads s1 = activeDownloads s
    /\ downloadStats s1 !! downloadId
       = Some {| startTime := now env;
                 stats_downloadedBytes := or_default (downloadedBytes download) 0;
                 totalBytes := or_default (fileSize download) 0 |}
    /\ segmentFiles s1 !! downloadId = Some (existingSegmentPaths check)
    /\ failedSegments s1 !! downloadId = Some ∅.
Proof.
  intros Hs Hsegs check. unfold startDownload. run_step. rewrite Hs, Hsegs.
  unfold reconciledRecord.
  change (checkSegmentsFrom (disk _) download 0 segs) with check.
  destruct (0 <? Z.of_nat (List.length (existingSegments check))) eqn:Hex.
  - eexists. split.
    { destruct (mkdir_error env); [reflexivity|].
      destruct (missingSegments check); reflexivity. }
    simpl. rewrite Hs, lookup_insert_eq.
    repeat split; apply lookup_insert_eq.
  - eexists. split.
    { destruct (mkdir_error env); [reflexivity|].
      destruct (missingSegments check); reflexivity. }
    simpl. rewrite Hs.
    repeat split; apply lookup_insert_eq.
Qed.

End Start.

Section Reconcile.
Import DownloadEngine.

Lemma reconciledRecord_count (download : Download) (segs : list string)
    (check : SegmentCheck) :
  downloadedSegments (reconciledRecord download segs check)
  = match existingSegments check with
    | [] => downloadedSegments download
    | _ :: _ => Some (Z.of_nat (List.length (existingSegments check)))
    end.
Proof.
  unfold reconciledRecord. destruct (existingSegments check) as [|e l].
  - destruct download; reflexivity.
  - replace (0 <? Z.of_nat (List.length (e :: l))) with true
      by (symmetry; apply Z.ltb_lt; simpl; lia).
    destruct download; reflexivity.
Qed.

Lemma launch_not_emitted (events : list Effect) (downloadId : string)
    (missing : list (nat * string)) (total : nat) :
  emitsOnly events -> ~ In (Launch downloadId missing total) events.
Proof.
  intros Hemit Hin. unfold emitsOnly in Hemit. rewrite Forall_forall in Hemit.
  apply list_elem_of_In in Hin.
  destruct (Hemit _ Hin) as [m Hm]. discriminate.
Qed.

(** C3, as amended: on start, the index [i] of [0 .. total_segments) counts
    as existing exactly when the file at its deterministic path is there
    with size > 0 (an empty file is missing); the stored
    [downloaded_segments] becomes the count of the existing indices when
    that count is positive, and is left as it was when no segment exists;
    workers are launched for the missing indices only. *)
Theorem start_reconciles_with_disk (env : Env) (s : Engine) (downloadId : string)
    (download : Download) (segs : list string) :
  store s !! downloadId = Some download ->
  segments download = Some segs ->
  let check := checkSegmentsFrom (disk s) download 0 segs in
  let s' := (startDownload env downloadId s).1 in
  (forall i,
      presentb (disk s) download i = true
      <-> exists bytes, disk s !! segmentPath download i = Some bytes
                        /\ (0 < List.length bytes)%nat)
  /\ map fst (existingSegments check)
     = List.filter (presentb (disk s) download) (seq 0 (List.length segs))
  /\ map fst (missingSegments check)
     = List.filter (fun i => negb (presentb (disk s) download i))
                   (seq 0 (List.length segs))
  /\ (forall i url,
        In (i, url) (existingSegments check ++ missingSegments check) ->
        segs !! i = Some url)
  /\ (exists download',
        store s' !! downloadId = Some download'
        /\ downloadedSegments download'
           = match existingSegments check with
             | [] => downloadedSegments download
             | _ :: _ => Some (Z.of_nat (List.length (existingSegments check)))
             end)
  /\ (forall id' missing total,
        In (Launch id' missing total) (trace s') ->
        In (Launch id' missing total) (trace s)
        \/ (id' = downloadId /\ missing = missingSegments check
            /\ total = List.length segs)).
Proof.
  intros Hs Hsegs check s'.
  split; [intros i; apply presentb_iff|].
  split; [apply checkSegmentsFrom_existing|].
  split; [apply checkSegmentsFrom_missing|].
  split.
  { intros i url Hin. apply checkSegmentsFrom_urls in Hin as [_ Hin].
    now rewrite Nat.sub_0_r in Hin. }
  destruct (startDownload_shape env downloadId s download segs Hs Hsegs)
    as (s1 & Hrun & Hstore & Htrace & _).
  fold check in Hrun, Hstore. subst s'. rewrite Hrun.
  rewrite <- (reconciledRecord_count download segs check).
  destruct (mkdir_error env) as [e|].
  { simpl. split; [eauto|]. rewrite Htrace. auto. }
  cbv zeta. destruct (missingSegments check) as [|m ms].
  - match goal with |- context [checkDownloadCompletion ?e ?i ?ss] =>
      destruct (checkDownloadCompletion_record e i ss _ Hstore)
        as (d' & Hd' & _ & Hcount & _);
      destruct (checkDownloadCompletion_trace e i ss) as (ev & Hev & Hemit) end.
    split; [eauto|].
    intros id' missing total Hin. rewrite Hev in Hin. simpl in Hin.
    rewrite Htrace in Hin. rewrite !in_app_iff in Hin.
    destruct Hin as [[Hin | [Hin | []]] | Hin]; [now left | discriminate |].
    now apply launch_not_emitted in Hin.
  - simpl. split; [eauto|].
    intros id' missing total Hin. rewrite Htrace in Hin. rewrite !in_app_iff in Hin.
    destruct Hin as [[Hin | [Hin | []]] | [Hin | []]];
      [now left | discriminate | injection Hin as <- <- <-; now right].
Qed.

(** One of two segment files is on disk: the restart counts one segment and
    launches the fetch of the other. *)
Lemma start_reconciles_with_disk_witness :
  (exists download',
      store (startDownload (Examples.env 0 None (VideoMerger.RunEnd [])) "job"
               (Examples.engine (Examples.job 0 2 (Some Examples.twoUrls)) ∅ []
                  {[ "downloads/movie_segment_0.ts" := Examples.oneByte ]})).1
        !! "job" = Some download'
      /\ downloadedSegments download' = Some 1)
  /\ trace (startDownload (Examples.env 0 None (VideoMerger.RunEnd [])) "job"
              (Examples.engine (Examples.job 0 2 (Some Examples.twoUrls)) ∅ []
                 {[ "downloads/movie_segment_0.ts" := Examples.oneByte ]})).1
     = [Emit (download_status "job" downloading None None None);
        Launch "job" [(1%nat, "http://cdn/1.ts")] 2].
Proof.
  split; [| vm_compute; reflexivity].
  destruct (start_reconciles_with_disk (Examples.env 0 None (VideoMerger.RunEnd []))
              (Examples.engine (Examples.job 0 2 (Some Examples.twoUrls)) ∅ []
                 {[ "downloads/movie_segment_0.ts" := Examples.oneByte ]})
              "job" (Examples.job 0 2 (Some Examples.twoUrls)) Examples.twoUrls)
    as (_ & _ & _ & _ & H & _); [reflexivity | reflexivity | exact H].
Defined.

(** The record says two segments were fetched and no segment file is on
    disk (a successful merge deletes them): the start finds no existing
    segment, leaves the stored count at two and launches both fetches. *)
Lemma stale_count_counterexample :
  existingSegments
    (checkSegmentsFrom ∅ (Examples.job 2 2 (Some Examples.twoUrls)) 0 Examples.twoUrls)
  = []
  /\ downloadedSegments
       <$> store (startDownload (Examples.env 0 None (VideoMerger.RunEnd [])) "job"
                    (Examples.engine (Examples.job 2 2 (Some Examples.twoUrls))
                       ∅ [] ∅)).1 !! "job"
     = Some (Some 2)
  /\ trace (startDownload (Examples.env 0 None (VideoMerger.RunEnd [])) "job"
              (Examples.engine (Examples.job 2 2 (Some Examples.twoUrls)) ∅ [] ∅)).1
     = [Emit (download_status "job" downloading None None None);
        Launch "job" [(0%nat, "http://cdn/0.ts"); (1%nat, "http://cdn/1.ts")] 2].
Proof. repeat split; vm_compute; reflexivity. Qed.

End Reconcile.

(** ** Start: errors and repeated starts *)

Section StartAgain.
Import DownloadEngine.

(** [startDownload] rejects exactly when the record is absent, its
    [segments] field is missing, or the output directory cannot be made. *)
Lemma startDownload_rejects_iff (env : Env) (downloadId : string) (s : Engine) :
  (exists e, (startDownload env downloadId s).2 = Rejected e)
  <-> (store s !! downloadId = None
       \/ (exists download, store s !! downloadId = Some download
                            /\ segments download = None)
       \/ mkdir_error env <> None).
Proof.
  destruct (store s !! downloadId) as [download|] eqn:Hs.
  2:{ unfold startDownload. run_step. rewrite Hs. simpl. split; eauto. }
  destruct (segments download) as [segs|] eqn:Hsegs.
  2:{ unfold startDownload. run_step. rewrite Hs, Hsegs. simpl. split; eauto 6. }
  destruct (startDownload_shape env downloadId s download segs Hs Hsegs)
    as (s1 & Hrun & Hstore & _).
  rewrite Hrun. destruct (mkdir_error env) as [e|].
  { simpl. split; [intros _; right; right; discriminate | eauto]. }
  cbv zeta.
  destruct (missingSegments _).
  - match goal with |- context [checkDownloadCompletion ?e ?i ?ss] =>
      destruct (checkDownloadCompletion_record e i ss _ Hstore)
        as (d' & _ & _ & _ & Hres) end.
    rewrite Hres. split; [intros [e He]; discriminate|].
    intros [H | [(d & [= <-] & H) | H]]; congruence.
  - simpl. split; [intros [e He]; discriminate|].
    intros [H | [(d & [= <-] & H) | H]]; congruence.
Qed.

Lemma segmentPath_reconciled (download : Download) (segs : list string)
    (check : SegmentCheck) (i : nat) :
  segmentPath (reconciledRecord download segs check) i = segmentPath download i.
Proof.
  unfold reconciledRecord, segmentPath.
  destruct (0 <? _); destruct download; reflexivity.
Qed.

Lemma reconciledRecord_fields (download : Download) (segs : list string)
    (check : SegmentCheck) :
  segments (reconciledRecord download segs check) = segments download
  /\ downloadedBytes (reconciledRecord download segs check) = downloadedBytes download
  /\ fileSize (reconciledRecord download segs check) = fileSize download
  /\ status (reconciledRecord download segs check) = downloading.
Proof.
  unfold reconciledRecord. destruct (0 <? _); destruct download; auto.
Qed.

Lemma checkSegmentsFrom_ext (d : gmap string (list Byte.byte)) (d1 d2 : Download)
    (urls : list string) (i0 : nat) :
  (forall i, segmentPath d1 i = segmentPath d2 i) ->
  checkSegmentsFrom d d1 i0 urls = checkSegmentsFrom d d2 i0 urls.
Proof.
  intros Hp. revert i0. induction urls as [|u urls IH]; intros i0; [reflexivity|].
  simpl. now rewrite IH, Hp.
Qed.

(** C8, as amended: a second start of a job that is already downloading is
    not a no-op.  For a stored job with a segment still missing on disk the
    second [startDownload] runs the whole start protocol again: it resolves,
    emits the status event again, launches a second set of workers for the
    same missing segments next to the first, and replaces the statistics
    (with the new start time) and the failed set (with the empty set). *)
Theorem second_start_launches_again (env1 env2 : Env) (s : Engine)
    (downloadId : string) (download : Download) (segs : list string) :
  store s !! downloadId = Some download ->
  segments download = Some segs ->
  mkdir_error env1 = None ->
  mkdir_error env2 = None ->
  missingSegments (checkSegmentsFrom (disk s) download 0 segs) <> [] ->
  let missing := missingSegments (checkSegmentsFrom (disk s) download 0 segs) in
  let first := startDownload env1 downloadId s in
  let second := startDownload env2 downloadId first.1 in
  let started :=
    [Emit (download_status downloadId downloading None None None);
     Launch downloadId missing (List.length segs)] in
  first.2 = Resolved tt
  /\ second.2 = Resolved tt
  /\ (status <$> store first.1 !! downloadId) = Some downloading
  /\ activeDownloads first.1 !! downloadId = Some true
  /\ trace first.1 = trace s ++ started
  /\ trace second.1 = trace s ++ started ++ started
  /\ (startTime <$> downloadStats second.1 !! downloadId) = Some (now env2)
  /\ failedSegments second.1 !! downloadId = Some ∅.
Proof.
  intros Hs Hsegs Hm1 Hm2 Hmiss missing first second started.
  destruct (startDownload_shape env1 downloadId s download segs Hs Hsegs)
    as (s1 & Hrun1 & Hstore1 & Htrace1 & Hworld1 & _).
  rewrite Hm1 in Hrun1. cbv zeta in Hrun1. fold missing in Hrun1.
  destruct missing as [|m ms] eqn:Hmissing; [now elim Hmiss|].
  destruct (reconciledRecord_fields download segs (checkSegmentsFrom (disk s) download 0 segs))
    as (Hsegs1 & _ & _ & Hst1).
  rewrite Hsegs in Hsegs1.
  assert (store first.1 !! downloadId
          = Some (reconciledRecord download segs (checkSegmentsFrom (disk s) download 0 segs)))
    as Hstore1'
    by (unfold first; rewrite Hrun1; exact Hstore1).
  destruct (startDownload_shape env2 downloadId first.1 _ segs Hstore1' Hsegs1)
    as (s2 & Hrun2 & Hstore2 & Htrace2 & Hworld2 & _ & Hstats2 & _ & Hfailed2).
  assert (disk first.1 = disk s) as Hdisk
    by (unfold first, disk; rewrite Hrun1; simpl; now rewrite Hworld1).
  rewrite Hdisk in Hrun2.
  rewrite (checkSegmentsFrom_ext (disk s) _ download segs 0
             (segmentPath_reconciled download segs _)) in Hrun2.
  rewrite Hm2 in Hrun2. cbv zeta in Hrun2.
  change (missingSegments (checkSegmentsFrom (disk s) download 0 segs)) with missing in Hrun2.
  rewrite Hmissing in Hrun2.
  assert (trace first.1 = trace s ++ started) as Hfirst.
  { unfold first. rewrite Hrun1. simpl. rewrite Htrace1, <- app_assoc. reflexivity. }
  repeat split.
  - unfold first. now rewrite Hrun1.
  - unfold second. now rewrite Hrun2.
  - rewrite Hstore1'. simpl. now rewrite Hst1.
  - unfold first. rewrite Hrun1. simpl. apply lookup_insert_eq.
  - exact Hfirst.
  - unfold second. rewrite Hrun2. simpl. rewrite Htrace2, Hfirst, <- !app_assoc.
    reflexivity.
  - unfold second. rewrite Hrun2. simpl. now rewrite Hstats2.
  - unfold second. rewrite Hrun2. simpl. exact Hfailed2.
Qed.

(** Two starts of a fresh job of two segments: two launches. *)
Lemma second_start_launches_again_witness :
  trace (startDownload (Examples.env 7 None (VideoMerger.RunEnd [])) "job"
           (startDownload (Examples.env 0 None (VideoMerger.RunEnd [])) "job"
              Examples.fresh).1).1
  = [Emit (download_status "job" downloading None None None);
     Launch "job" [(0%nat, "http://cdn/0.ts"); (1%nat, "http://cdn/1.ts")] 2;
     Emit (download_status "job" downloading None None None);
     Launch "job" [(0%nat, "http://cdn/0.ts"); (1%nat, "http://cdn/1.ts")] 2].
Proof.
  destruct (second_start_launches_again
              (Examples.env 0 None (VideoMerger.RunEnd []))
              (Examples.env 7 None (VideoMerger.RunEnd []))
              Examples.fresh "job" (Examples.job 0 2 (Some Examples.twoUrls))
              Examples.twoUrls)
    as (_ & _ & _ & _ & _ & H & _);
    [reflexivity | reflexivity | reflexivity | reflexivity | discriminate | exact H].
Defined.

(** The engine after a second start differs from the engine after the
    first: the trace holds a second launch of the same two fetches. *)
Lemma second_start_counterexample :
  (startDownload (Examples.env 0 None (VideoMerger.RunEnd [])) "job"
     (startDownload (Examples.env 0 None (VideoMerger.RunEnd [])) "job"
        Examples.fresh).1).1
  <> (startDownload (Examples.env 0 None (VideoMerger.RunEnd [])) "job"
        Examples.fresh).1
  /\ (status <$> store (startDownload (Examples.env 0 None (VideoMerger.RunEnd []))
                          "job" Examples.fresh).1 !! "job") = Some downloading
  /\ List.length
       (trace (startDownload (Examples.env 0 None (VideoMerger.RunEnd [])) "job"
                 Examples.fresh).1) = 2%nat
  /\ List.length
       (trace (startDownload (Examples.env 0 None (VideoMerger.RunEnd [])) "job"
                 (startDownload (Examples.env 0 None (VideoMerger.RunEnd [])) "job"
                    Examples.fresh).1).1) = 4%nat.
Proof.
  split; [| repeat split; vm_compute; reflexivity].
  intros H. apply (f_equal trace) in H. vm_compute in H. discriminate.
Qed.

(** C7, at the failing input: a stored job whose segment list is the empty
    list.  [startDownload] resolves, the route answers 200, the job is
    marked downloading and stays so: the guard [!download.segments] lets the
    empty array through. *)
Theorem start_accepts_empty_segment_list :
  (startDownload (Examples.env 0 None (VideoMerger.RunEnd [])) "job"
     (Examples.engine (Examples.job 0 0 (Some [])) ∅ [] ∅)).2 = Resolved tt
  /\ (postStart (Examples.env 0 None (VideoMerger.RunEnd [])) "job"
        (Examples.engine (Examples.job 0 0 (Some [])) ∅ [] ∅)).2
     = (200, "Download started")
  /\ (status <$> store (startDownload (Examples.env 0 None (VideoMerger.RunEnd []))
                          "job" (Examples.engine (Examples.job 0 0 (Some [])) ∅ [] ∅)).1
                   !! "job") = Some downloading
  /\ trace (startDownload (Examples.env 0 None (VideoMerger.RunEnd [])) "job"
              (Examples.engine (Examples.job 0 0 (Some [])) ∅ [] ∅)).1
     = [Emit (download_status "job" downloading None None None)].
Proof. repeat split; vm_compute; reflexivity. Qed.

End StartAgain.

(** ** The order of the segments in the muxer driver *)

Section Ordering.
Import VideoMerger.

Lemma insertSegment_perm (a : string) (l : list string) :
  Permutation (insertSegment a l) (a :: l).
Proof.
  induction l as [|b l IH]; simpl; [reflexivity|].
  destruct (compareSegments a b <=? 0); [reflexivity|].
  rewrite IH. apply perm_swap.
Qed.

Lemma sortSegments_perm (l : list string) : Permutation (sortSegments l) l.
Proof.
  induction l as [|a l IH]; simpl; [reflexivity|].
  rewrite insertSegment_perm. now constructor.
Qed.

Lemma insertSegment_sorted (a : string) (l : list string) :
  Sorted indexLe l -> Sorted indexLe (insertSegment a l).
Proof.
  induction l as [|b l IH]; intros Hl; simpl.
  - repeat constructor.
  - unfold compareSegments. destruct (Z.leb_spec (segmentIndex a - segmentIndex b) 0).
    + constructor; [exact Hl|]. constructor. unfold indexLe. lia.
    + apply Sorted_inv in Hl as [Hl Hb]. constructor; [now apply IH|].
      destruct l as [|c l]; simpl.
      * constructor. unfold indexLe. lia.
      * destruct (compareSegments a c <=? 0); constructor.
        -- unfold indexLe. lia.
        -- now apply HdRel_inv in Hb.
Qed.

Lemma sortSegments_sorted (l : list string) : Sorted indexLe (sortSegments l).
Proof.
  induction l as [|a l IH]; simpl; [constructor|]. now apply insertSegment_sorted.
Qed.

(** Insertion moves the new path past strictly smaller indices only. *)
Lemma insertSegment_filter (k : Z) (a : string) (l : list string) :
  List.filter (fun p => segmentIndex p =? k) (insertSegment a l)
  = List.filter (fun p => segmentIndex p =? k) (a :: l).
Proof.
  induction l as [|b l IH]; [reflexivity|].
  simpl insertSegment. unfold compareSegments.
  destruct (Z.leb_spec (segmentIndex a - segmentIndex b) 0); [reflexivity|].
  simpl in *. rewrite IH.
  destruct (Z.eqb_spec (segmentIndex a) k), (Z.eqb_spec (segmentIndex b) k);
    try reflexivity; lia.
Qed.

Lemma sortSegments_stable (k : Z) (l : list string) :
  List.filter (fun p => segmentIndex p =? k) (sortSegments l)
  = List.filter (fun p => segmentIndex p =? k) l.
Proof.
  induction l as [|a l IH]; [reflexivity|].
  simpl sortSegments. rewrite insertSegment_filter. simpl. now rewrite IH.
Qed.

Lemma indexLe_transitive : Transitive indexLe.
Proof. unfold indexLe. intros a b c. lia. Qed.

Lemma NoDup_map_injective (l : list string) (a b : string) :
  List.NoDup (map segmentIndex l) -> In a l -> In b l ->
  segmentIndex a = segmentIndex b -> a = b.
Proof.
  induction l as [|c l IH]; intros Hnd Ha Hb Hk; [destruct Ha|].
  simpl in Hnd. apply List.NoDup_cons_iff in Hnd as [Hc Hnd].
  destruct Ha as [-> | Ha], Hb as [-> | Hb]; auto.
  - elim Hc. rewrite Hk. now apply in_map.
  - elim Hc. rewrite <- Hk. now apply in_map.
Qed.

Lemma sortSegments_order_independent (l l' : list string) :
  List.NoDup (map segmentIndex l) -> Permutation l' l ->
  sortSegments l' = sortSegments l.
Proof.
  intros Hnd Hperm.
  eapply @Sorted_unique_strong with (R := indexLe); [apply indexLe_transitive | ..].
  - intros a b Ha Hb Hab Hba. apply list_elem_of_In in Ha, Hb.
    apply (NoDup_map_injective l); [exact Hnd | | |unfold indexLe in *; lia].
    + eapply Permutation_in; [|exact Ha]. rewrite sortSegments_perm. exact Hperm.
    + eapply Permutation_in; [|exact Hb]. apply sortSegments_perm.
  - apply sortSegments_sorted.
  - apply sortSegments_sorted.
  - rewrite !sortSegments_perm. exact Hperm.
Qed.

End Ordering.

(** ** The muxer driver: how its promises settle and what it deletes *)

Section Driver.
Import VideoMerger.

Lemma mergeSegmentsBinary_resolves (env : Env) (options : MergeOptions) (w : World) :
  exists r, settled (mergeSegmentsBinary env options w) = Resolved r.
Proof.
  unfold mergeSegmentsBinary.
  destruct (mkdir_error env); [eauto|].
  destruct (readSegments _ _) as [bytes [p|]]; [eauto|].
  destruct (stream_error env); eauto.
Qed.

(** The call of the external muxer rejects exactly when the binary is not
    found; otherwise it resolves, whatever fails later. *)
Lemma muxSegments_resolves (env : Env) (options : MergeOptions) (w : World) :
  exists r, settled (muxSegments env options w) = Resolved r.
Proof.
  unfold muxSegments.
  destruct (mkdir_error env); [eauto|].
  destruct (manifest_write_error env); [eauto|].
  destruct (ffmpeg_run env); [|eauto].
  destruct (manifest_unlink_error env); eauto.
Qed.

Lemma initialize_disk (env : Env) (w : World) : disk (initialize env w).1 = disk w.
Proof.
  unfold initialize.
  destruct (match List.find (probe env) possiblePaths with
            | Some p => Some p | None => installer_path env end); reflexivity.
Qed.

(** The head of [mergeSegmentsToMKV]: with the binary found the call is the
    [try] block on a world with the same files; else it rejects and touches
    nothing. *)
Lemma mergeSegmentsToMKV_head (env : Env) (options : MergeOptions) (w : World) :
  if muxerFound env w
  then exists w1, disk w1 = disk w
                  /\ mergeSegmentsToMKV env options w = muxSegments env options w1
  else exists e, settled (mergeSegmentsToMKV env options w) = Rejected e
                 /\ disk (world_after (mergeSegmentsToMKV env options w)) = disk w
                 /\ paths_after (mergeSegmentsToMKV env options w) = segmentPaths options.
Proof.
  unfold mergeSegmentsToMKV, muxerFound.
  destruct (ffmpegPath w) as [p|]; [eauto|].
  pose proof (initialize_disk env w) as Hd.
  destruct (initialize env w) as [w1 [[]|e]]; simpl in *; eauto.
Qed.

(** The call of the external muxer rejects exactly when the binary is not
    found; otherwise it resolves, whatever fails later. *)
Lemma mergeSegmentsToMKV_settles (env : Env) (options : MergeOptions) (w : World) :
  if muxerFound env w
  then exists r, settled (mergeSegmentsToMKV env options w) = Resolved r
  else exists e, settled (mergeSegmentsToMKV env options w) = Rejected e.
Proof.
  pose proof (mergeSegmentsToMKV_head env options w) as H.
  destruct (muxerFound env w).
  - destruct H as (w1 & _ & ->). apply muxSegments_resolves.
  - destruct H as (e & He & _). eauto.
Qed.

Lemma mergeSegmentsToMKV_run_error (env : Env) (options : MergeOptions) (w : World)
    (message : string) :
  muxerFound env w = true ->
  mkdir_error env = None ->
  manifest_write_error env = None ->
  ffmpeg_run env = RunError message ->
  settled (mergeSegmentsToMKV env options w) = Resolved (failure message)
  /\ forall p, p <> concatFilePath options ->
               disk (world_after (mergeSegmentsToMKV env options w)) !! p = disk w !! p.
Proof.
  intros Hfound Hmk Hmw Hrun.
  pose proof (mergeSegmentsToMKV_head env options w) as H. rewrite Hfound in H.
  destruct H as (w1 & Hw1 & ->). unfold muxSegments. rewrite Hmk, Hmw, Hrun.
  split; [reflexivity|]. intros p Hp. simpl.
  destruct (manifest_unlink_error env); simpl; rewrite Hw1.
  - now rewrite lookup_insert_ne.
  - now rewrite lookup_delete_ne, lookup_insert_ne.
Qed.

Lemma cleanup_keeps_absent (env : Env) (paths : list string) (w : World) (p : string) :
  disk w !! p = None -> disk (cleanupSegmentFiles env paths w) !! p = None.
Proof.
  unfold cleanupSegmentFiles. simpl. generalize (disk w).
  induction paths as [|q paths IH]; intros d Hd; simpl; [exact Hd|].
  apply IH. destruct (unlink_fails env q); [exact Hd|].
  destruct (decide (q = p)) as [->|Hne];
    [apply lookup_delete_eq | now rewrite lookup_delete_ne].
Qed.

(** A file other than the manifest goes away in the [try] block only when
    the merge succeeded and the clean-up ran. *)
Lemma muxSegments_deletes (env : Env) (options : MergeOptions) (w : World) (p : string) :
  p <> concatFilePath options ->
  disk w !! p <> None ->
  disk (world_after (muxSegments env options w)) !! p = None ->
  exists r, settled (muxSegments env options w) = Resolved r
            /\ success r = true
            /\ outputFile r = Some (outputFilePath options).
Proof.
  intros Hp Hin. unfold muxSegments.
  assert (forall v (d : gmap string (list Byte.byte)) q,
            d !! p <> None -> <[q := v]> d !! p <> None) as Hins.
  { intros v d q Hd. destruct (decide (q = p)) as [->|Hne];
      [now rewrite lookup_insert_eq | now rewrite lookup_insert_ne]. }
  destruct (mkdir_error env); [intros H; now elim Hin|].
  destruct (manifest_write_error env); [intros H; now elim Hin|].
  destruct (ffmpeg_run env).
  - destruct (manifest_unlink_error env); simpl; [|eauto].
    intros H. exfalso. revert H. now apply Hins, Hins.
  - destruct (manifest_unlink_error env); simpl; intros H; exfalso; revert H.
    + now apply Hins.
    + rewrite lookup_delete_ne by congruence. now apply Hins.
Qed.

(** The binary concatenation deletes a file only when it succeeded. *)
Lemma mergeSegmentsBinary_deletes (env : Env) (options : MergeOptions) (w : World)
    (p : string) :
  disk w !! p <> None ->
  disk (world_after (mergeSegmentsBinary env options w)) !! p = None ->
  exists r, settled (mergeSegmentsBinary env options w) = Resolved r
            /\ success r = true
            /\ outputFile r = Some (outputFilePath options).
Proof.
  intros Hin. unfold mergeSegmentsBinary.
  destruct (mkdir_error env); [intros H; now elim Hin|].
  destruct (readSegments _ _) as [bytes [q|]]; simpl.
  - intros H. exfalso. revert H.
    destruct (decide (outputFilePath options = p)) as [->|Hne];
      [now rewrite lookup_insert_eq | now rewrite lookup_insert_ne].
  - destruct (stream_error env); simpl; [intros H; now elim Hin | eauto].
Qed.

End Driver.

(** ** The merge step of the engine *)

Section Merge.
Import DownloadEngine.

Lemma segmentPath_not_manifest (download : Download) (files : list string) (i : nat) :
  segmentPath download i <> VideoMerger.concatFilePath (mergeOptions download files).
Proof.
  unfold segmentPath, VideoMerger.concatFilePath, path_join, mergeOptions. simpl.
  intros H. apply String.app_inj in H. apply (String.app_inj "/") in H.
  apply String.app_inj in H. discriminate.
Qed.

(** With the muxer binary found, the inner [try] is the call of the
    external muxer and nothing else: its [catch] does not run. *)
Lemma runMerger_found (env : Env) (downloadId : string) (d : Download)
    (files : list string) (s : Engine) :
  VideoMerger.muxerFound (merger env) (world s) = true ->
  runMerger env downloadId d files s
  = callMerger downloadId
      (VideoMerger.mergeSegmentsToMKV (merger env) (mergeOptions d files)) s.
Proof.
  intros Hfound. unfold runMerger, try_catch, callMerger.
  pose proof (mergeSegmentsToMKV_settles (merger env) (mergeOptions d files) (world s)) as H.
  rewrite Hfound in H. destruct H as [r ->]. reflexivity.
Qed.

Lemma runMerger_deletes (env : Env) (downloadId : string) (d : Download)
    (files : list string) (s : Engine) (p : string) :
  p <> VideoMerger.concatFilePath (mergeOptions d files) ->
  disk s !! p <> None ->
  disk (runMerger env downloadId d files s).1 !! p = None ->
  exists r, (runMerger env downloadId d files s).2 = Resolved r
            /\ VideoMerger.success r = true
            /\ exists out, VideoMerger.outputFile r = Some out.
Proof.
  intros Hp Hin.
  pose proof (mergeSegmentsToMKV_head (merger env) (mergeOptions d files) (world s)) as H.
  destruct (VideoMerger.muxerFound (merger env) (world s)) eqn:Hfound.
  - rewrite runMerger_found by exact Hfound. unfold callMerger, disk. simpl.
    destruct H as (w1 & Hw1 & ->). intros Hgone.
    destruct (muxSegments_deletes (merger env) (mergeOptions d files) w1 p Hp)
      as (r & Hr & Hs & Ho); [now rewrite Hw1 | exact Hgone |]. eauto.
  - destruct H as (e & He & Hd & Hpaths).
    unfold runMerger, try_catch, callMerger. run_step. rewrite He.
    unfold disk. simpl. rewrite lookup_insert_eq. simpl. intros Hgone.
    apply mergeSegmentsBinary_deletes in Hgone as (r & Hr & Hs & Ho);
      [eauto | now rewrite Hd].
Qed.

End Merge.

Section MergeOutcome.
Import DownloadEngine.

(** [mergeSegments] with something to merge: the state [s1] the merger is
    called in, the state [s2] and the result [r] it leaves, and what the
    two branches on [r.success] do. *)
Lemma mergeSegments_after_run (env : Env) (downloadId : string) (s : Engine)
    (d : Download) (f : string) (files : list string) :
  store s !! downloadId = Some d ->
  default [] (segmentFiles s !! downloadId) = f :: files ->
  exists s1 s2 r,
    world s1 = world s
    /\ runMerger env downloadId d (f :: files) s1 = (s2, Resolved r)
    /\ disk (mergeSegments env downloadId s).1 = disk s2
    /\ (VideoMerger.success r = true ->
        last (trace (mergeSegments env downloadId s).1)
        = Some (Emit (download_status downloadId completed None
                        (VideoMerger.outputFile r) None))
        /\ store (mergeSegments env downloadId s).1 !! downloadId
           = Some (fold_left assign
                     [set_status completed;
                      set_outputFile (VideoMerger.outputFile r);
                      set_duration (VideoMerger.duration r)]
                     (assign d (set_status merging))))
    /\ (VideoMerger.success r = false ->
        last (trace (mergeSegments env downloadId s).1)
        = Some (Emit (download_status downloadId completed
                        (Some ("Merge failed but segments downloaded: "
                               +:+ mergeErrorText r)) None None))
        /\ store (mergeSegments env downloadId s).1 !! downloadId
           = Some (fold_left assign
                     [set_status completed;
                      set_errorMessage ("Merge failed but segments available: "
                                        +:+ mergeErrorText r);
                      set_progress 100]
                     (assign d (set_status merging)))).
Proof.
  intros Hs Hf. unfold mergeSegments. run_step. rewrite Hs, Hf.
  match goal with |- context [runMerger ?e ?i ?dd ?ff ?ss] =>
    exists ss;
    pose proof (runMerger_store e i dd ff ss) as Hst;
    destruct (runMerger_resolves e i dd ff ss) as [r Hr];
    destruct (runMerger e i dd ff ss) as [s2 res] end.
  simpl in Hr; subst res. exists s2, r.
  simpl in Hst; rewrite Hs in Hst.
  split; [reflexivity|]. split; [reflexivity|].
  destruct (VideoMerger.success r); simpl.
  - split; [reflexivity|]. split; [|discriminate]. intros _.
    split; [apply last_snoc|].
    rewrite Hst, lookup_insert_eq. apply lookup_insert_eq.
  - split; [reflexivity|]. split; [discriminate|]. intros _.
    split; [apply last_snoc|].
    rewrite Hst, lookup_insert_eq. apply lookup_insert_eq.
Qed.

(** C4: for a stored job, when the run of the external muxer fails the
    record ends with status [completed] (not [error]) and an
    [error_message] that describes the merge failure, and every segment
    file is as it was; and whenever a segment file that was on disk is gone
    after the merge step, the merge succeeded: the step ended with the
    [completed] event that carries the output file. *)
Theorem merge_failure_keeps_job_completed (env : Env) (s : Engine)
    (downloadId : string) (download : Download) :
  store s !! downloadId = Some download ->
  let s' := (mergeSegments env downloadId s).1 in
  (forall message,
      default [] (segmentFiles s !! downloadId) <> [] ->
      VideoMerger.muxerFound (merger env) (world s) = true ->
      VideoMerger.mkdir_error (merger env) = None ->
      VideoMerger.manifest_write_error (merger env) = None ->
      VideoMerger.ffmpeg_run (merger env) = VideoMerger.RunError message ->
      (exists download',
          store s' !! downloadId = Some download'
          /\ status download' = completed
          /\ errorMessage download'
             = Some ("Merge failed but segments available: "
                     +:+ (if truthy message then message else "Unknown merge error")))
      /\ (forall i, disk s' !! segmentPath download i
                    = disk s !! segmentPath download i))
  /\ (forall i,
        disk s !! segmentPath download i <> None ->
        disk s' !! segmentPath download i = None ->
        exists out download',
          last (trace s')
          = Some (Emit (download_status downloadId completed None (Some out) None))
          /\ store s' !! downloadId = Some download'
          /\ status download' = completed
          /\ outputFile download' = Some out).
Proof.
  intros Hs s'. split.
  - intros message Hfiles Hfound Hmk Hmw Hrun.
    destruct (default [] (segmentFiles s !! downloadId)) as [|f files] eqn:Hf;
      [now elim Hfiles|].
    destruct (mergeSegments_after_run env downloadId s download f files Hs Hf)
      as (s1 & s2 & r & Hw1 & Hrun1 & Hdisk & _ & Hfail).
    rewrite runMerger_found in Hrun1 by (now rewrite Hw1).
    unfold callMerger in Hrun1. rewrite Hw1 in Hrun1.
    destruct (mergeSegmentsToMKV_run_error (merger env) (mergeOptions download (f :: files))
                (world s) message Hfound Hmk Hmw Hrun) as [Hres Hkeep].
    rewrite Hres in Hrun1. injection Hrun1 as <- <-.
    destruct (Hfail eq_refl) as [_ Hrec]. split.
    + eexists. split; [exact Hrec|]. unfold mergeErrorText. simpl.
      destruct download; simpl; auto.
    + intros i. unfold s'. rewrite Hdisk. unfold disk at 1. simpl.
      apply Hkeep, segmentPath_not_manifest.
  - intros i Hin Hgone.
    destruct (default [] (segmentFiles s !! downloadId)) as [|f files] eqn:Hf.
    { exfalso. apply Hin. rewrite <- Hgone. unfold s', mergeSegments. run_step.
      now rewrite Hs, Hf. }
    destruct (mergeSegments_after_run env downloadId s download f files Hs Hf)
      as (s1 & s2 & r & Hw1 & Hrun1 & Hdisk & Hok & _).
    unfold s' in Hgone. rewrite Hdisk in Hgone.
    destruct (runMerger_deletes env downloadId download (f :: files) s1
                (segmentPath download i))
      as (r' & Hr' & Hsucc & out & Hout).
    + apply segmentPath_not_manifest.
    + unfold disk. now rewrite Hw1.
    + now rewrite Hrun1.
    + rewrite Hrun1 in Hr'. injection Hr' as <-.
      destruct (Hok Hsucc) as [Hlast Hrec]. rewrite Hout in Hlast, Hrec.
      exists out. eexists. split; [exact Hlast|]. split; [exact Hrec|].
      destruct download; simpl; auto.
Qed.

(** The muxer run fails with a message: the job ends completed with that
    message, and the two segment files are still there. *)
Lemma merge_failure_keeps_job_completed_witness :
  (exists download',
      store (mergeSegments
               (Examples.env 0 None (VideoMerger.RunError "ffmpeg exited with code 1"))
               "job"
               (Examples.engine (Examples.job 2 2 (Some Examples.twoUrls)) ∅
                  ["downloads/movie_segment_1.ts"; "downloads/movie_segment_0.ts"]
                  {[ "downloads/movie_segment_0.ts" := Examples.oneByte;
                     "downloads/movie_segment_1.ts" := Examples.oneByte ]})).1
        !! "job" = Some download'
      /\ status download' = completed
      /\ errorMessage download'
         = Some "Merge failed but segments available: ffmpeg exited with code 1")
  /\ disk (mergeSegments
             (Examples.env 0 None (VideoMerger.RunError "ffmpeg exited with code 1"))
             "job"
             (Examples.engine (Examples.job 2 2 (Some Examples.twoUrls)) ∅
                ["downloads/movie_segment_1.ts"; "downloads/movie_segment_0.ts"]
                {[ "downloads/movie_segment_0.ts" := Examples.oneByte;
                   "downloads/movie_segment_1.ts" := Examples.oneByte ]})).1
       !! "downloads/movie_segment_1.ts" = Some Examples.oneByte.
Proof.
  destruct (merge_failure_keeps_job_completed
              (Examples.env 0 None (VideoMerger.RunError "ffmpeg exited with code 1"))
              (Examples.engine (Examples.job 2 2 (Some Examples.twoUrls)) ∅
                 ["downloads/movie_segment_1.ts"; "downloads/movie_segment_0.ts"]
                 {[ "downloads/movie_segment_0.ts" := Examples.oneByte;
                    "downloads/movie_segment_1.ts" := Examples.oneByte ]})
              "job" (Examples.job 2 2 (Some Examples.twoUrls)) eq_refl)
    as [H _].
  destruct (H "ffmpeg exited with code 1") as [Hrec Hdisk];
    [discriminate | reflexivity | reflexivity | reflexivity | reflexivity |].
  split; [exact Hrec|]. exact (Hdisk 1%nat).
Defined.

End MergeOutcome.

(** ** Progress accounting *)

Section Progress.
Import DownloadEngine.

Variable env : Env.
Variable download : Download.
Variable stats : Stats.
Variable failed : Z.
Variable total : option Z.

Local Abbreviation f := (figures env download stats failed total).
Local Abbreviation totalSegs :=
  (or_default (or_else total (totalSegments download)) 1).

Lemma figures_count :
  newDownloadedSegments f = or_default (downloadedSegments download) 0 + 1.
Proof. reflexivity. Qed.

Lemma figures_progress :
  rawProgress f = (inject_Z (newDownloadedSegments f) / inject_Z totalSegs * 100)%Q.
Proof. reflexivity. Qed.

Lemma figures_speed :
  newSpeed f
  = if Qlt_bool 0 (elapsedSeconds f)
    then (inject_Z (stats_downloadedBytes stats) / elapsedSeconds f)%Q else 0%Q.
Proof. reflexivity. Qed.

(** The divisor of the average is [new - old + 1] with [new = old + 1]:
    two, whatever was fetched in this run. *)
Lemma figures_average : (avgSegmentTime f == elapsedSeconds f / 2)%Q.
Proof.
  unfold figures. simpl.
  replace (or_default (downloadedSegments download) 0 + 1
           - or_default (downloadedSegments download) 0 + 1) with 2 by lia.
  reflexivity.
Qed.

Lemma figures_eta :
  newEta f
  = if (0 <? remainingSegments f) && Qlt_bool 0 (avgSegmentTime f)
    then Math_round (inject_Z (remainingSegments f) * avgSegmentTime f) else 0.
Proof. reflexivity. Qed.

Lemma figures_eta_zero : remainingSegments f <= 0 -> newEta f = 0.
Proof.
  intros H. rewrite figures_eta.
  destruct (Z.ltb_spec 0 (remainingSegments f)); [lia | reflexivity].
Qed.

End Progress.

(** What one call stores: the count, the rounded progress, the bytes, the
    speed and the estimate. *)
Lemma updateDownloadProgress_stores (env : DownloadEngine.Env) (downloadId : string)
    (segmentIndex : nat) (segmentSize : Z) (total : option Z)
    (s : DownloadEngine.Engine) (download : DownloadEngine.Download)
    (stats : DownloadEngine.Stats) :
  DownloadEngine.store s !! downloadId = Some download ->
  DownloadEngine.downloadStats s !! downloadId = Some stats ->
  exists f download',
    f = DownloadEngine.figures env download
          {| DownloadEngine.startTime := DownloadEngine.startTime stats;
             DownloadEngine.stats_downloadedBytes :=
               DownloadEngine.stats_downloadedBytes stats + segmentSize;
             DownloadEngine.totalBytes := DownloadEngine.totalBytes stats |}
          (DownloadEngine.failedCount downloadId s) total
    /\ DownloadEngine.store
         (DownloadEngine.updateDownloadProgress env downloadId segmentIndex
            segmentSize total s).1 !! downloadId = Some download'
    /\ DownloadEngine.downloadedSegments download'
       = Some (DownloadEngine.newDownloadedSegments f)
    /\ DownloadEngine.progress download' = round2 (DownloadEngine.rawProgress f)
    /\ DownloadEngine.speed download' = Some (DownloadEngine.newSpeed f)
    /\ DownloadEngine.eta download' = Some (DownloadEngine.newEta f).
Proof.
  intros Hs Hst. unfold DownloadEngine.updateDownloadProgress. run_step.
  rewrite Hs, Hst. simpl. rewrite Hs, lookup_insert_eq.
  eexists. eexists. split; [reflexivity|]. split; [reflexivity|].
  destruct download; simpl; auto.
Qed.

(** C6, at the failing input: ten segments, none failed; the third segment
    of the run completes six seconds after the start.  Three segments were
    fetched in six seconds, two seconds each, so the seven that remain
    need 14 seconds; the code divides the six seconds by two and stores
    21. *)
Theorem eta_average_divides_by_two :
  DownloadEngine.eta
    <$> DownloadEngine.store
          (DownloadEngine.updateDownloadProgress
             (Examples.env 6000 None (VideoMerger.RunEnd [])) "job" 2 1 (Some 10)
             Examples.running).1 !! "job"
  = Some (Some 21)
  /\ DownloadEngine.downloadedSegments
       <$> DownloadEngine.store
             (DownloadEngine.updateDownloadProgress
                (Examples.env 6000 None (VideoMerger.RunEnd [])) "job" 2 1 (Some 10)
                Examples.running).1 !! "job"
     = Some (Some 3)
  /\ Spec.eta 10 3 0 6 3 = 14.
Proof. repeat split; vm_compute; reflexivity. Qed.

(** ** The liveness flag of the playlist resolver *)

Section Liveness.
Import M3U8Parser.

Lemma parseLines_fold (m3u8Url : string) (lines : list string)
    (segs : list string) (live : bool) :
  fold_left (fun '(segments, isLive) line =>
               (segments ++ segmentStep m3u8Url line, liveStep isLive line))
            lines (segs, live)
  = (fold_left (fun segments line => segments ++ segmentStep m3u8Url line) lines segs,
     fold_left liveStep lines live).
Proof.
  revert segs live. induction lines as [|l lines IH]; intros segs live; [reflexivity|].
  simpl. apply IH.
Qed.

(** The flag is the fold of the loop body over the lines: each directive
    line overwrites what the lines before it said. *)
Lemma parseLines_isLive (m3u8Url : string) (lines : list string) :
  isLive (parseLines m3u8Url lines) = fold_left liveStep lines false.
Proof. unfold parseLines. now rewrite parseLines_fold. Qed.

Lemma parseLines_last (m3u8Url : string) (lines : list string) (line : string) :
  isLive (parseLines m3u8Url (lines ++ [line]))
  = liveStep (isLive (parseLines m3u8Url lines)) line.
Proof. rewrite !parseLines_isLive. now rewrite fold_left_app. Qed.

(** Without a VOD directive, the code and the rule of the specification
    agree. *)
Lemma isLive_without_vod (m3u8Url : string) (lines : list string) :
  existsb (fun line => includes line "#EXT-X-PLAYLIST-TYPE:VOD") lines = false ->
  isLive (parseLines m3u8Url lines) = Spec.isLive lines.
Proof.
  intros Hvod. rewrite parseLines_isLive. unfold Spec.isLive. rewrite Hvod.
  assert (forall live,
            fold_left liveStep lines live
            = live
              || (existsb (fun line => includes line "#EXT-X-PLAYLIST-TYPE:LIVE") lines
                  || existsb (fun line => includes line "#EXT-X-TARGETDURATION") lines))
    as H; [| now rewrite H].
  induction lines as [|l lines IH]; intros live; [now rewrite orb_false_r|].
  simpl in *. apply orb_false_iff in Hvod as [Hl Hvod].
  rewrite (IH Hvod). unfold liveStep. rewrite Hl.
  destruct (includes l "#EXT-X-PLAYLIST-TYPE:LIVE"),
           (includes l "#EXT-X-TARGETDURATION"), live; simpl;
    rewrite ?orb_true_r; reflexivity.
Qed.

(** C9, at the failing input: a VOD playlist whose
    [#EXT-X-PLAYLIST-TYPE:VOD] line comes before its
    [#EXT-X-TARGETDURATION] line.  The VOD directive appears, and the
    resolver returns the playlist with [isLive = true]: the later line
    overwrites the flag. *)
Theorem vod_before_target_duration_is_live :
  parsePlaylist (FetchBody Examples.vodFirst) "http://cdn/v/index.m3u8"
  = Resolved {| url := "http://cdn/v/index.m3u8";
                segments := ["http://cdn/v/seg0.ts"];
                isLive := true |}
  /\ existsb (fun line => includes line "#EXT-X-PLAYLIST-TYPE:VOD")
             (playlistLines Examples.vodFirst) = true
  /\ Spec.isLive (playlistLines Examples.vodFirst) = false.
Proof. repeat split; vm_compute; reflexivity. Qed.

End Liveness.

(* ===================================================================== *)
(** * Further properties of the code                                      *)
(* ===================================================================== *)

(** ** Segment file names: written by the fetcher, read by the muxer driver *)

Section FileNames.
Import VideoMerger.

Lemma append_cons (x : ascii) (a b : string) : String x a +:+ b = String x (a +:+ b).
Proof. reflexivity. Qed.

Lemma append_nil_l (b : string) : "" +:+ b = b.
Proof. reflexivity. Qed.

Lemma append_assoc (a b c : string) : (a +:+ b) +:+ c = a +:+ (b +:+ c).
Proof.
  induction a as [|x a IH]; [reflexivity|]. rewrite !append_cons. now rewrite IH.
Qed.

Lemma append_nil_r (a : string) : a +:+ "" = a.
Proof.
  induction a as [|x a IH]; [reflexivity|]. rewrite append_cons. now rewrite IH.
Qed.

(** The decimal digits [pretty] writes for a number, most significant
    first, and their value under [parseInt]. *)
Lemma pretty_N_go_digits (x : N) (s : string) :
  exists ds,
    pretty_N_go x s = string_of_list_ascii ds +:+ s
    /\ forallb is_digit ds = true
    /\ parseInt ds = Z.of_N x
    /\ ((0 < x)%N -> ds <> []).
Proof.
  revert s. induction (N.lt_wf_0 x) as [x _ IH]. intros s.
  destruct (N.eq_dec x 0%N) as [->|Hx].
  - exists []. rewrite pretty_N_go_0. repeat split; try reflexivity. lia.
  - rewrite pretty_N_go_step by lia.
    destruct (IH (x `div` 10)%N) with (s := String (pretty_N_char (x `mod` 10)) s)
      as (ds & Hgo & Hdig & Hval & _).
    { apply N.div_lt; lia. }
    exists (ds ++ [pretty_N_char (x `mod` 10)]). repeat split.
    + rewrite Hgo. clear. induction ds as [|d ds IH]; [reflexivity|].
      cbn [app string_of_list_ascii]. rewrite !append_cons. now rewrite IH.
    + rewrite forallb_app, Hdig. simpl.
      assert (x `mod` 10 < 10)%N as Hlt by (apply N.mod_lt; lia).
      destruct (x `mod` 10)%N as [|p]; [reflexivity|].
      do 10 (destruct p as [p|p|]; try reflexivity; try lia).
    + unfold parseInt in *. rewrite fold_left_app. simpl. rewrite Hval.
      assert (x `mod` 10 < 10)%N as Hlt by (apply N.mod_lt; lia).
      assert (digit_value (pretty_N_char (x `mod` 10)) = Z.of_N (x `mod` 10)) as ->.
      { destruct (x `mod` 10)%N as [|p]; [reflexivity|].
        do 10 (destruct p as [p|p|]; try reflexivity; try lia). }
      rewrite (N.div_mod x 10) at 3 by lia. lia.
    + intros _. destruct ds; discriminate.
Qed.

Lemma pretty_nat_digits (i : nat) :
  exists ds,
    pretty i = string_of_list_ascii ds
    /\ forallb is_digit ds = true
    /\ parseInt ds = Z.of_nat i
    /\ ds <> [].
Proof.
  unfold pretty, pretty_nat, pretty, pretty_N.
  destruct (decide (N.of_nat i = 0%N)) as [Hi|Hi].
  - assert (i = 0%nat) as -> by lia.
    exists ["0"%char]. repeat split; try reflexivity. discriminate.
  - destruct (pretty_N_go_digits (N.of_nat i) "") as (ds & Hgo & Hdig & Hval & Hne).
    exists ds. rewrite Hgo, append_nil_r. repeat split; try assumption; [lia|].
    apply Hne. lia.
Qed.

Lemma take_digits_stop (ds : list ascii) (c : ascii) (rest : string) :
  forallb is_digit ds = true -> is_digit c = false ->
  take_digits (string_of_list_ascii ds +:+ String c rest) = (ds, String c rest).
Proof.
  intros Hds Hc. induction ds as [|d ds IH].
  - cbn [string_of_list_ascii]. rewrite append_nil_l. cbn [take_digits]. now rewrite Hc.
  - cbn [forallb string_of_list_ascii] in *. rewrite append_cons. cbn [take_digits].
    apply andb_true_iff in Hds as [Hd Hds]. now rewrite Hd, IH.
Qed.

(** The pattern matches at the head of the name part the fetcher appends. *)
Lemma match_segment_here_tail (ds : list ascii) :
  forallb is_digit ds = true -> ds <> [] ->
  match_segment_here ("_segment_" +:+ string_of_list_ascii ds +:+ ".ts") = Some ds.
Proof.
  intros Hds Hne. unfold match_segment_here.
  rewrite !append_cons, append_nil_l. cbn [strip_prefix Ascii.eqb Bool.eqb].
  rewrite take_digits_stop by (assumption || reflexivity).
  destruct ds; [congruence | reflexivity].
Qed.

(** When [strip_prefix] succeeds across the seam of two strings, the
    pattern ends in the first or continues in the second. *)
Lemma strip_prefix_seam (p r t rest : string) :
  strip_prefix p (r +:+ t) = Some rest ->
  String.prefix p r = true
  \/ exists p2, p = r +:+ p2 /\ strip_prefix p2 t = Some rest.
Proof.
  revert r. induction p as [|a p IH]; intros r H.
  - left. now destruct r.
  - destruct r as [|b r].
    + right. exists (String a p). split; [reflexivity | exact H].
    + rewrite append_cons in H. cbn [strip_prefix] in H.
      destruct (Ascii.eqb_spec a b) as [->|Hne]; [|discriminate].
      destruct (IH r H) as [Hp | (p2 & -> & Hp2)].
      * left. cbn [String.prefix]. destruct (ascii_dec b b); [exact Hp | congruence].
      * right. exists p2. split; [reflexivity | exact Hp2].
Qed.

(** No match begins inside a prefix that does not hold the pattern text. *)
Lemma match_segment_here_prefix (r : string) (ds : list ascii) :
  r <> "" ->
  String.prefix "_segment_" r = false ->
  match_segment_here (r +:+ "_segment_" +:+ string_of_list_ascii ds +:+ ".ts") = None.
Proof.
  intros Hr Hp. unfold match_segment_here.
  destruct (strip_prefix "_segment_" _) as [rest|] eqn:Hs; [|reflexivity].
  apply strip_prefix_seam in Hs as [Hs | (p2 & Heq & Hs)]; [congruence|].
  assert (forall (r p2 : string),
            "_segment_" = r +:+ p2 -> r <> "" ->
            String.prefix "_segment_" r = false ->
            p2 = "_" \/ exists c p3, p2 = String c p3 /\ c <> "_"%char) as Hcases.
  { clear. intros r p2 Heq Hr Hp.
    destruct r as [|c1 r]; [congruence|].
    rewrite append_cons in Heq. injection Heq as Hc Heq. subst c1.
    do 8 (destruct r as [|? r];
          [ rewrite append_nil_l in Heq; subst p2;
            first [ now left | right; do 2 eexists; split; [reflexivity | discriminate] ]
          | rewrite append_cons in Heq; injection Heq as Hc Heq;
            rewrite <- Hc in *; clear Hc ]).
    destruct r; [| discriminate Heq]. vm_compute in Hp. discriminate. }
  destruct (Hcases r p2 Heq Hr Hp) as [-> | (c2 & p3 & -> & Hc2)].
  - rewrite !append_cons, append_nil_l in Hs. cbn in Hs. injection Hs as <-.
    reflexivity.
  - rewrite !append_cons, append_nil_l in Hs. cbn [strip_prefix] in Hs.
    destruct (Ascii.eqb_spec c2 "_"); [congruence | discriminate].
Qed.

Lemma match_segment_skips (r : string) (ds : list ascii) :
  includes r "_segment_" = false ->
  match_segment (r +:+ "_segment_" +:+ string_of_list_ascii ds +:+ ".ts")
  = match_segment ("_segment_" +:+ string_of_list_ascii ds +:+ ".ts").
Proof.
  induction r as [|c r IH]; intros Hinc; [reflexivity|].
  cbn [includes] in Hinc. apply orb_false_iff in Hinc as [Hp Hinc].
  pose proof (match_segment_here_prefix (String c r) ds) as Hhere.
  rewrite append_cons in *. cbn [match_segment].
  rewrite Hhere by (discriminate || exact Hp).
  now apply IH.
Qed.

Lemma segmentIndex_of_segmentPath_keys (download : DownloadEngine.Download) (i : nat) :
  includes (path_join (DownloadEngine.outputPath download)
                      (DownloadEngine.filename download)) "_segment_" = false ->
  segmentIndex (DownloadEngine.segmentPath download i) = Z.of_nat i.
Proof.
  intros Hinc. unfold segmentIndex, DownloadEngine.segmentPath, path_join in *.
  destruct (pretty_nat_digits i) as (ds & -> & Hdig & Hval & Hne).
  assert (forall T,
            DownloadEngine.outputPath download +:+ "/"
              +:+ DownloadEngine.filename download +:+ T
            = (DownloadEngine.outputPath download +:+ "/"
                 +:+ DownloadEngine.filename download) +:+ T) as ->
    by (intros T; now rewrite !append_assoc).
  rewrite match_segment_skips by exact Hinc.
  destruct (string_of_list_ascii ds +:+ ".ts") eqn:Htail;
    [destruct ds; discriminate|]. rewrite <- Htail.
  assert (match_segment ("_segment_" +:+ string_of_list_ascii ds +:+ ".ts")
          = Some ds) as ->.
  { pose proof (match_segment_here_tail ds Hdig Hne) as Hhere.
    rewrite !append_cons, append_nil_l in *. cbn [match_segment].
    now rewrite Hhere. } exact Hval.
Qed.

(** X1: The index the muxer driver reads from the name of a segment file is the
    index the fetcher wrote into it, as long as the directory and the file
    name stem do not hold the text [_segment_] themselves. *)
Theorem segmentIndex_of_segmentPath (download : DownloadEngine.Download) (i : nat) :
  includes (path_join (DownloadEngine.outputPath download)
                      (DownloadEngine.filename download)) "_segment_" = false ->
  match_segment (DownloadEngine.segmentPath download i) <> None
  /\ segmentIndex (DownloadEngine.segmentPath download i) = Z.of_nat i.
Proof.
  intros Hinc. split; [|now apply segmentIndex_of_segmentPath_keys].
  unfold DownloadEngine.segmentPath, path_join in *.
  destruct (pretty_nat_digits i) as (ds & -> & Hdig & Hval & Hne).
  assert (forall T,
            DownloadEngine.outputPath download +:+ "/"
              +:+ DownloadEngine.filename download +:+ T
            = (DownloadEngine.outputPath download +:+ "/"
                 +:+ DownloadEngine.filename download) +:+ T) as ->
    by (intros T; now rewrite !append_assoc).
  rewrite match_segment_skips by exact Hinc.
  destruct (string_of_list_ascii ds +:+ ".ts") eqn:Htail;
    [destruct ds; discriminate|]. rewrite <- Htail.
  assert (match_segment ("_segment_" +:+ string_of_list_ascii ds +:+ ".ts")
          = Some ds) as ->.
  { pose proof (match_segment_here_tail ds Hdig Hne) as Hhere.
    rewrite !append_cons, append_nil_l in *. cbn [match_segment].
    now rewrite Hhere. } discriminate.
Qed.

Lemma segmentIndex_of_segmentPath_witness :
  segmentIndex (DownloadEngine.segmentPath (Examples.job 0 2 (Some Examples.twoUrls)) 1234)
  = 1234.
Proof.
  apply (segmentIndex_of_segmentPath (Examples.job 0 2 (Some Examples.twoUrls)) 1234).
  reflexivity.
Defined.

Lemma insertSegment_head (a : string) (l : list string) :
  Sorted indexLe (a :: l) -> insertSegment a l = a :: l.
Proof.
  intros H. apply Sorted_inv in H as [_ H]. destruct l as [|b l]; [reflexivity|].
  apply HdRel_inv in H. unfold indexLe in H. simpl. unfold compareSegments.
  destruct (Z.leb_spec (segmentIndex a - segmentIndex b) 0); [reflexivity | lia].
Qed.

Lemma sortSegments_sorted_id (l : list string) :
  Sorted indexLe l -> sortSegments l = l.
Proof.
  induction l as [|a l IH]; intros H; [reflexivity|].
  simpl. rewrite IH by (now apply Sorted_inv in H). now apply insertSegment_head.
Qed.

(** X2: In whatever order the fetches of the segments [0 .. n-1] of a job
    completed, the muxer driver works on their files in index order. *)
Theorem merge_order_is_index_order (download : DownloadEngine.Download) (n : nat)
    (completed : list nat) :
  includes (path_join (DownloadEngine.outputPath download)
                      (DownloadEngine.filename download)) "_segment_" = false ->
  Permutation completed (seq 0 n) ->
  sortSegments (map (DownloadEngine.segmentPath download) completed)
  = map (DownloadEngine.segmentPath download) (seq 0 n).
Proof.
  intros Hinc Hperm.
  assert (map segmentIndex (map (DownloadEngine.segmentPath download) (seq 0 n))
          = map Z.of_nat (seq 0 n)) as Hkeys.
  { rewrite map_map. apply map_ext. intros i.
    now apply segmentIndex_of_segmentPath_keys. }
  rewrite (sortSegments_order_independent
             (map (DownloadEngine.segmentPath download) (seq 0 n))
             (map (DownloadEngine.segmentPath download) completed)).
  - apply sortSegments_sorted_id. clear Hperm Hkeys. generalize 0%nat.
    induction n as [|n IH]; intros k; [constructor|]. simpl.
    constructor; [apply IH|]. destruct n; simpl; constructor.
    unfold indexLe. rewrite !segmentIndex_of_segmentPath_keys by exact Hinc. lia.
  - rewrite Hkeys. apply Finite.Injective_map_NoDup; [|apply List.seq_NoDup].
    intros x y. lia.
  - now apply Permutation_map.
Qed.

(** Three segments fetched in the order 2, 0, 1. *)
Lemma merge_order_is_index_order_witness :
  sortSegments (map (DownloadEngine.segmentPath (Examples.job 0 3 None)) [2; 0; 1]%nat)
  = map (DownloadEngine.segmentPath (Examples.job 0 3 None)) (seq 0 3).
Proof.
  apply (merge_order_is_index_order (Examples.job 0 3 None) 3 [2; 0; 1]%nat);
    [reflexivity|].
  change [2; 0; 1]%nat with ([2]%nat ++ [0; 1]%nat).
  change (seq 0 3) with ([0; 1]%nat ++ [2]%nat). apply Permutation_app_comm.
Defined.

End FileNames.

(** ** The concurrency limiter *)

Section LimiterProperties.
Import DownloadEngine.

Variable limit : Z.

Lemma startNext_running (l : Limiter) :
  waiting l <> [] -> running (startNext l) = running l + 1.
Proof.
  unfold startNext, running. destruct (waiting l); [congruence|]. simpl.
  rewrite length_app. simpl. lia.
Qed.

Lemma removeTask_length (t : nat) (ts : list nat) :
  existsb (Nat.eqb t) ts = true ->
  List.length ts = S (List.length (removeTask t ts)).
Proof.
  induction ts as [|u ts IH]; [discriminate|]. simpl.
  rewrite (Nat.eqb_sym u t). destruct (t =? u)%nat; simpl; [reflexivity|].
  intros H. now rewrite <- IH.
Qed.

(** One step keeps the bound on [running] and leaves no slot idle while a
    task waits. *)
Lemma limiterStep_slots (l : Limiter) (e : LimiterEvent) :
  running l <= Z.max limit 0 /\ (waiting l <> [] -> limit <= running l) ->
  running (limiterStep limit l e) <= Z.max limit 0
  /\ (waiting (limiterStep limit l e) <> [] -> limit <= running (limiterStep limit l e)).
Proof.
  intros [Hb Hw]. destruct e as [t|t]; simpl.
  - unfold limiterSubmit, startNext, running in *. simpl.
    destruct (Z.ltb_spec (Z.of_nat (List.length (runningTasks l))) limit) as [Hlt|Hge].
    + destruct (waiting l) as [|w ws] eqn:Hwl; simpl.
      * rewrite length_app. simpl. split; [lia | congruence].
      * assert (limit <= Z.of_nat (List.length (runningTasks l)))
          by (apply Hw; discriminate). lia.
    + simpl. split; [lia|]. intros _. lia.
  - unfold limiterSettle.
    destruct (existsb (Nat.eqb t) (runningTasks l)) eqn:Hin; [|tauto].
    set (l1 := {| waiting := waiting l; runningTasks := removeTask t (runningTasks l);
                  startedTasks := startedTasks l |}).
    assert (running l = running l1 + 1) as Hr.
    { unfold running. simpl. rewrite (removeTask_length t (runningTasks l) Hin). lia. }
    destruct (Z.ltb_spec 0 (Z.of_nat (List.length (waiting l1)))) as [Hq|Hq]; simpl.
    + destruct (Z.ltb_spec (running l1) limit) as [Hlt|Hge].
      * rewrite startNext_running by (simpl; destruct (waiting l); [simpl in Hq; lia | discriminate]).
        split; [lia|]. intros _.
        assert (limit <= running l) by (apply Hw; destruct (waiting l); [simpl in Hq; lia | discriminate]).
        lia.
      * split; [lia|]. intros _. lia.
    + split; [lia|]. intros Hne. simpl in *. destruct (waiting l); [congruence|].
      simpl in Hq. lia.
Qed.

Lemma limiter_slots_at (events : list LimiterEvent) :
  running (limiterRun limit events) <= Z.max limit 0
  /\ (waiting (limiterRun limit events) <> [] -> limit <= running (limiterRun limit events)).
Proof.
  unfold limiterRun. induction events as [|e events IH] using rev_ind.
  - simpl. split; [unfold running; simpl; lia | congruence].
  - rewrite fold_left_app. simpl. now apply limiterStep_slots.
Qed.

(** X3: At every moment at most [limit] tasks run, and a task waits only while
    [limit] tasks run. *)
Theorem limiter_slots (events : list LimiterEvent) :
  running (limiterRun limit events) <= Z.max limit 0
  /\ (waiting (limiterRun limit events) <> [] -> limit <= running (limiterRun limit events)).
Proof. apply limiter_slots_at. Qed.

Lemma limiterStep_order (l : Limiter) (e : LimiterEvent) :
  startedTasks (limiterStep limit l e) ++ waiting (limiterStep limit l e)
  = (startedTasks l ++ waiting l)
    ++ match e with Submitted t => [t] | Settled _ => [] end.
Proof.
  assert (forall l1, startedTasks (startNext l1) ++ waiting (startNext l1)
                     = startedTasks l1 ++ waiting l1) as Hnext.
  { intros l1. unfold startNext. destruct (waiting l1) eqn:Hq; simpl.
    - now rewrite Hq.
    - now rewrite <- app_assoc. }
  destruct e as [t|t]; simpl.
  - unfold limiterSubmit. destruct (_ <? _); rewrite ?Hnext; simpl;
      now rewrite app_assoc.
  - unfold limiterSettle. rewrite app_nil_r.
    destruct (existsb _ _); [|reflexivity].
    destruct (_ && _); rewrite ?Hnext; reflexivity.
Qed.

(** X4: Tasks start in the order they were handed in, each once, and none is
    dropped: the tasks started followed by the tasks waiting are the tasks
    submitted. *)
Theorem limiter_fifo (events : list LimiterEvent) :
  startedTasks (limiterRun limit events) ++ waiting (limiterRun limit events)
  = submittedTasks events.
Proof.
  unfold limiterRun, submittedTasks. induction events as [|e events IH] using rev_ind.
  - reflexivity.
  - rewrite fold_left_app, flat_map_app. simpl. rewrite limiterStep_order, IH.
    now rewrite app_nil_r.
Qed.

(** X5: When a running task settles while tasks wait, the oldest waiting task
    takes its slot at once. *)
Theorem limiter_hands_over (events : list LimiterEvent) (t w : nat) (ws : list nat) :
  existsb (Nat.eqb t) (runningTasks (limiterRun limit events)) = true ->
  waiting (limiterRun limit events) = w :: ws ->
  waiting (limiterRun limit (events ++ [Settled t])) = ws
  /\ runningTasks (limiterRun limit (events ++ [Settled t]))
     = removeTask t (runningTasks (limiterRun limit events)) ++ [w]
  /\ running (limiterRun limit (events ++ [Settled t]))
     = running (limiterRun limit events).
Proof.
  intros Hin Hw. destruct (limiter_slots_at events) as [Hb _].
  unfold limiterRun in *. rewrite fold_left_app. simpl.
  set (l := fold_left (limiterStep limit) events newLimiter) in *.
  pose proof (removeTask_length t (runningTasks l) Hin) as Hlen.
  assert (0 < limit) as Hpos by (unfold running in Hb; lia).
  unfold limiterSettle. rewrite Hin.
  unfold startNext, running in *. cbn [waiting runningTasks startedTasks].
  rewrite Hw.
  assert ((0 <? Z.of_nat (List.length (w :: ws)))
          && (Z.of_nat (List.length (removeTask t (runningTasks l))) <? limit) = true)
    as ->.
  { apply andb_true_iff. split; [apply Z.ltb_lt; simpl; lia | apply Z.ltb_lt; lia]. }
  cbn [waiting runningTasks startedTasks].
  split; [reflexivity|]. split; [reflexivity|].
  rewrite length_app. simpl. lia.
Qed.

(** X6: [processDownload] hands all its tasks to a new limiter before any of
    them settles: the first [limit] of them start at once, in order, and
    the others wait in order. *)
Theorem limiter_batch (tasks : list nat) :
  startedTasks (limiterRun limit (map Submitted tasks)) = take (Z.to_nat limit) tasks
  /\ runningTasks (limiterRun limit (map Submitted tasks)) = take (Z.to_nat limit) tasks
  /\ waiting (limiterRun limit (map Submitted tasks)) = drop (Z.to_nat limit) tasks.
Proof.
  unfold limiterRun. induction tasks as [|t tasks IH] using rev_ind.
  - simpl. now rewrite take_nil, drop_nil.
  - rewrite map_app, fold_left_app. simpl.
    set (l := fold_left (limiterStep limit) (map Submitted tasks) newLimiter) in *.
    destruct IH as (Hs & Hr & Hw).
    unfold limiterSubmit, startNext, running. cbn [waiting runningTasks startedTasks].
    rewrite Hs, Hr, Hw, length_take.
    destruct (Z.ltb_spec (Z.of_nat (Z.to_nat limit `min` List.length tasks)) limit)
      as [Hlt|Hge].
    + assert (List.length tasks < Z.to_nat limit)%nat as Hshort by lia.
      rewrite drop_ge by lia. simpl.
      rewrite !take_ge by (rewrite ?length_app; simpl; lia).
      rewrite drop_ge by (rewrite length_app; simpl; lia). auto.
    + cbn [waiting runningTasks startedTasks].
      assert (Z.to_nat limit <= List.length tasks)%nat as Hlong by lia.
      rewrite take_app_le, drop_app_le by lia. auto.
Qed.

End LimiterProperties.

(** Two slots, three tasks: when task 0 settles, task 2 starts. *)
Lemma limiter_hands_over_witness :
  DownloadEngine.waiting
    (DownloadEngine.limiterRun 2
       ([DownloadEngine.Submitted 0; DownloadEngine.Submitted 1;
         DownloadEngine.Submitted 2] ++ [DownloadEngine.Settled 0])) = []
  /\ DownloadEngine.runningTasks
       (DownloadEngine.limiterRun 2
          ([DownloadEngine.Submitted 0; DownloadEngine.Submitted 1;
            DownloadEngine.Submitted 2] ++ [DownloadEngine.Settled 0]))
     = [1; 2]%nat.
Proof.
  destruct (limiter_hands_over 2
              [DownloadEngine.Submitted 0; DownloadEngine.Submitted 1;
               DownloadEngine.Submitted 2] 0 2 [])
    as (H1 & H2 & _); [reflexivity | reflexivity |].
  split; [exact H1 | exact H2].
Defined.

(** ** A run of the tasks with one thread *)

Section OneThread.
Import DownloadEngine.

Lemma attemptOk_fails (env : Env) (segmentUrl : string) (segmentIndex : nat)
    (download : Download) (k : nat) :
  attemptOk env segmentUrl segmentIndex download k = false
  <-> Amended.attemptFails env segmentUrl segmentIndex download k.
Proof.
  unfold attemptOk, Amended.attemptFails, Spec.attemptFails.
  destruct (http env segmentUrl k) as [e|status data]; [tauto|].
  destruct (segment_write_error env (segmentPath download segmentIndex) k) as [e|].
  - rewrite andb_false_r. split; [intros _; right; discriminate | reflexivity].
  - rewrite andb_true_r.
    destruct (Z.leb_spec 200 status), (Z.ltb_spec status 300); simpl;
      try (split; [intros _; left; left; lia | reflexivity]).
    destruct data as [|b data]; simpl.
    + split; [intros _; left; now right | reflexivity].
    + split; [discriminate|]. intros [[H1|H1]|H1]; [lia | discriminate | congruence].
Qed.

(** What a fetch leaves behind: with an attempt that goes through, the GETs
    and sleeps before it, then the file and the list entry; else only GETs
    and sleeps, and a rejection. *)
Lemma downloadSegment_outcome (env : Env) (segmentUrl : string) (segmentIndex : nat)
    (download : Download) :
  if fetchOk env segmentUrl segmentIndex download
  then exists events data,
         data <> []
         /\ forall s,
              downloadSegment env segmentUrl segmentIndex download s
              = (fetched segmentUrl segmentIndex download data
                   (with_trace (fun t => t ++ events) s),
                 Resolved (Z.of_nat (List.length data)))
  else exists events e,
         forall s,
           downloadSegment env segmentUrl segmentIndex download s
           = (with_trace (fun t => t ++ events) s, Rejected e).
Proof.
  unfold fetchOk, downloadSegment, maxRetries. simpl seq.
  pose proof (attemptOk_fails env segmentUrl segmentIndex download) as Hok.
  destruct (attemptSegment_cases env segmentUrl segmentIndex download 1)
    as [[F1 [e1 E1]] | [F1 (st & data & D1 & E1)]].
  2:{ destruct (attemptOk _ _ _ _ 1) eqn:H1; [|apply Hok in H1; contradiction].
      exists [], data. split; [intros ->; apply F1; left; rewrite D1; now right|].
      intros s. rewrite downloadSegmentLoop_cons, E1.
      unfold fetched, with_trace. simpl. now rewrite app_nil_r. }
  apply Hok in F1. rewrite F1.
  destruct (attemptSegment_cases env segmentUrl segmentIndex download 2)
    as [[F2 [e2 E2]] | [F2 (st & data & D2 & E2)]].
  2:{ destruct (attemptOk _ _ _ _ 2) eqn:H2; [|apply Hok in H2; contradiction].
      exists [HttpGet segmentUrl; Sleep (Z.min (1000 * Z.of_nat 1) 5000)], data. split; [intros ->; apply F2; left; rewrite D2; now right|].
      intros s.
      rewrite downloadSegmentLoop_cons, E1, downloadSegmentLoop_cons, E2.
      unfold fetched, with_trace. simpl. rewrite <- !app_assoc. reflexivity. }
  apply Hok in F2. rewrite F2.
  destruct (attemptSegment_cases env segmentUrl segmentIndex download 3)
    as [[F3 [e3 E3]] | [F3 (st & data & D3 & E3)]].
  2:{ destruct (attemptOk _ _ _ _ 3) eqn:H3; [|apply Hok in H3; contradiction].
      exists [HttpGet segmentUrl; Sleep (Z.min (1000 * Z.of_nat 1) 5000);
              HttpGet segmentUrl; Sleep (Z.min (1000 * Z.of_nat 2) 5000)], data. split; [intros ->; apply F3; left; rewrite D3; now right|].
      intros s.
      rewrite downloadSegmentLoop_cons, E1, downloadSegmentLoop_cons, E2,
        downloadSegmentLoop_cons, E3.
      unfold fetched, with_trace. simpl. rewrite <- !app_assoc. reflexivity. }
  apply Hok in F3. rewrite F3. cbn [orb].
  exists (Spec.retryTrace segmentUrl 1 3). eexists. intros s.
  rewrite downloadSegmentLoop_cons, E1, downloadSegmentLoop_cons, E2,
    downloadSegmentLoop_cons, E3.
  unfold with_trace. simpl. rewrite <- !app_assoc. reflexivity.
Qed.

(** The engine after a progress update of a stored job with statistics:
    the record and the statistics are replaced, an event is emitted, and
    nothing else changes. *)
Lemma updateDownloadProgress_state (env : Env) (downloadId : string) (i : nat)
    (size : Z) (total : option Z) (s : Engine) (rec : Download) (st : Stats) :
  store s !! downloadId = Some rec ->
  downloadStats s !! downloadId = Some st ->
  exists rec' st' event,
    updateDownloadProgress env downloadId i size total s
    = (with_trace (fun t => t ++ [event])
         (with_store (insert downloadId rec')
            (with_downloadStats (insert downloadId st') s)),
       Resolved tt)
    /\ downloadedSegments rec' = Some (or_default (downloadedSegments rec) 0 + 1)
    /\ status rec' = status rec
    /\ totalSegments rec' = totalSegments rec
    /\ stats_downloadedBytes st' = stats_downloadedBytes st + size
    /\ startTime st' = startTime st.
Proof.
  intros Hs Hst. unfold updateDownloadProgress. run_step. rewrite Hs, Hst.
  do 3 eexists. split.
  - unfold with_trace, with_store, with_downloadStats. simpl. rewrite Hs. reflexivity.
  - destruct rec; simpl. auto.
Qed.

(** One task of a live job with a record and statistics. *)
Lemma segmentTask_step (env : Env) (downloadId : string) (download : Download)
    (seg : nat * string) (total : nat) (s : Engine) (rec : Download) (st : Stats) :
  id download = downloadId ->
  activeDownloads s !! downloadId = Some true ->
  store s !! downloadId = Some rec ->
  downloadStats s !! downloadId = Some st ->
  let s' := (segmentTask env downloadId download seg total s).1 in
  activeDownloads s' = activeDownloads s
  /\ is_Some (downloadStats s' !! downloadId)
  /\ if fetchOk env (snd seg) (fst seg) download
     then (exists rec',
              store s' !! downloadId = Some rec'
              /\ downloadedSegments rec'
                 = Some (or_default (downloadedSegments rec) 0 + 1)
              /\ status rec' = status rec
              /\ totalSegments rec' = totalSegments rec)
          /\ failedSegments s' = failedSegments s
          /\ segmentFiles s' !! downloadId
             = Some (default [] (segmentFiles s !! downloadId)
                     ++ [segmentPath download (fst seg)])
          /\ exists data, data <> []
                          /\ disk s' = <[segmentPath download (fst seg) := data]> (disk s)
     else store s' = store s
          /\ downloadStats s' = downloadStats s
          /\ failedSegments s' !! downloadId
             = Some (default ∅ (failedSegments s !! downloadId) ∪ {[fst seg]})
          /\ segmentFiles s' = segmentFiles s
          /\ disk s' = disk s.
Proof.
  intros Hid Hactive Hs Hst s'. subst s'. destruct seg as [i url]. cbn [fst snd].
  unfold segmentTask. run_step. rewrite Hactive.
  pose proof (downloadSegment_outcome env url i download) as Hfetch.
  destruct (fetchOk env url i download).
  - destruct Hfetch as (events & data & Hdata & ->).
    match goal with |- context [updateDownloadProgress ?e ?i ?n ?sz ?tt ?ss] =>
      destruct (updateDownloadProgress_state e i n sz tt ss rec st)
        as (rec' & st' & ev & -> & Hcount & Hstatus & Htotal & _) end;
      [exact Hs | exact Hst |].
    simpl. rewrite Hid. split; [reflexivity|].
    split; [rewrite lookup_insert_eq; eauto|].
    split; [exists rec'; rewrite lookup_insert_eq; auto|].
    split; [reflexivity|]. split; [apply lookup_insert_eq|].
    exists data. split; [exact Hdata | reflexivity].
  - destruct Hfetch as (events & e & ->). simpl.
    split; [reflexivity|]. split; [rewrite Hst; eauto|].
    repeat split. apply lookup_insert_eq.
Qed.

Lemma runTasks_cons (taskEnv : nat -> Env) (downloadId : string) (download : Download)
    (seg : nat * string) (rest : list (nat * string)) (total : nat) (s : Engine) :
  runTasks taskEnv downloadId download (seg :: rest) total s
  = runTasks taskEnv downloadId download rest total
      (segmentTask (taskEnv (fst seg)) downloadId download seg total s).1.
Proof.
  cbn [runTasks]. unfold bind, try_catch, ret.
  destruct (segmentTask _ _ _ _ _ s) as [s1 [size|e]]; reflexivity.
Qed.

Lemma presentb_insert (d : gmap string (list Byte.byte)) (download : Download)
    (p : string) (data : list Byte.byte) (i : nat) :
  data <> [] ->
  presentb d download i = true \/ p = segmentPath download i ->
  presentb (<[p := data]> d) download i = true.
Proof.
  intros Hdata H. unfold presentb in *.
  destruct (decide (p = segmentPath download i)) as [->|Hne].
  - rewrite lookup_insert_eq. destruct data; [congruence | reflexivity].
  - rewrite lookup_insert_ne by exact Hne. destruct H; [assumption | congruence].
Qed.

Lemma runTasks_state (taskEnv : nat -> Env) (downloadId : string)
    (download : Download) (missing : list (nat * string)) (total : nat)
    (s : Engine) (rec : Download) (st : Stats) :
  id download = downloadId ->
  activeDownloads s !! downloadId = Some true ->
  store s !! downloadId = Some rec ->
  downloadStats s !! downloadId = Some st ->
  let s' := (runTasks taskEnv downloadId download missing total s).1 in
  (exists rec',
      store s' !! downloadId = Some rec'
      /\ or_default (downloadedSegments rec') 0
         = or_default (downloadedSegments rec) 0
           + Z.of_nat (List.length (fetchedOf taskEnv download missing))
      /\ status rec' = status rec
      /\ totalSegments rec' = totalSegments rec)
  /\ activeDownloads s' = activeDownloads s
  /\ is_Some (downloadStats s' !! downloadId)
  /\ default ∅ (failedSegments s' !! downloadId)
     = default ∅ (failedSegments s !! downloadId)
       ∪ list_to_set (map fst (lostOf taskEnv download missing))
  /\ default [] (segmentFiles s' !! downloadId)
     = default [] (segmentFiles s !! downloadId)
       ++ map (fun seg => segmentPath download (fst seg))
              (fetchedOf taskEnv download missing)
  /\ (forall seg, In seg (fetchedOf taskEnv download missing) ->
                  presentb (disk s') download (fst seg) = true)
  /\ (forall i, presentb (disk s) download i = true ->
                presentb (disk s') download i = true)
  /\ (runTasks taskEnv downloadId download missing total s).2 = Resolved tt.
Proof.
  intros Hid. revert s rec st.
  induction missing as [|seg rest IH]; intros s rec st Hactive Hs Hst s'.
  - subst s'. simpl. split; [exists rec; repeat split; [exact Hs | lia]|].
    repeat split; try tauto;
      [eauto | simpl; now rewrite (right_id_L ∅ (∪)) | now rewrite app_nil_r].
  - subst s'. rewrite runTasks_cons.
    destruct (segmentTask_step (taskEnv (fst seg)) downloadId download seg total s rec st
                Hid Hactive Hs Hst) as (Hact1 & [st1 Hst1] & Hstep).
    set (s1 := (segmentTask (taskEnv (fst seg)) downloadId download seg total s).1) in *.
    unfold fetchedOf, lostOf in *. cbn [List.filter].
    destruct (fetchOk (taskEnv (fst seg)) (snd seg) (fst seg) download) eqn:Hok.
    + destruct Hstep as ((rec1 & Hs1 & Hcount & Hstatus & Htotal) & Hfailed & Hfiles
                         & data & Hdata & Hdisk).
      destruct (IH s1 rec1 st1) as ((rec' & Hs' & Hc' & Hst' & Ht') & Ha' & Hstats'
                                    & Hf' & Hfl' & Hp' & Hk' & Hr');
        [now rewrite Hact1 | exact Hs1 | exact Hst1 |].
      split.
      { exists rec'. split; [exact Hs'|]. split; [|split; congruence].
        rewrite Hc', Hcount, or_default_zero. cbn [negb List.length]. lia. }
      split; [congruence|]. split; [exact Hstats'|].
      split; [cbn [negb]; rewrite Hf', Hfailed; reflexivity|].
      split; [rewrite Hfl', Hfiles; simpl; now rewrite <- app_assoc|].
      split; [|split; [|exact Hr']].
      * intros seg' [<- | Hin]; [|now apply Hp'].
        apply Hk'. rewrite Hdisk. apply presentb_insert; [exact Hdata | now right].
      * intros i Hi. apply Hk'. rewrite Hdisk.
        apply presentb_insert; [exact Hdata | now left].
    + destruct Hstep as (Hstore1 & Hstats1 & Hfailed & Hfiles & Hdisk).
      destruct (IH s1 rec st1) as ((rec' & Hs' & Hc' & Hst' & Ht') & Ha' & Hstats'
                                   & Hf' & Hfl' & Hp' & Hk' & Hr');
        [now rewrite Hact1 | now rewrite Hstore1 | exact Hst1 |].
      split; [exists rec'; auto|].
      split; [congruence|]. split; [exact Hstats'|].
      split.
      { cbn [negb map list_to_set]. rewrite Hf', Hfailed. simpl.
        now rewrite (assoc_L (∪)). }
      split; [rewrite Hfl', Hfiles; reflexivity|].
      split; [|split; [|exact Hr']].
      * intros seg' Hin. now apply Hp'.
      * intros i Hi. apply Hk'. now rewrite Hdisk.
Qed.

(** X7: With one thread, the stored count grows by the number of segments whose
    fetch went through, the failed set by the indices of the others, the
    list of files by the paths of the fetched segments in order; every
    fetched segment has its file on disk, and no file is lost. *)
Theorem runTasks_converges (taskEnv : nat -> Env) (downloadId : string)
    (download : Download) (missing : list (nat * string)) (total : nat)
    (s : Engine) (rec : Download) (st : Stats) :
  maxConcurrency download = 1 ->
  id download = downloadId ->
  activeDownloads s !! downloadId = Some true ->
  store s !! downloadId = Some rec ->
  downloadStats s !! downloadId = Some st ->
  let s' := (runTasks taskEnv downloadId download missing total s).1 in
  (exists rec',
      store s' !! downloadId = Some rec'
      /\ or_default (downloadedSegments rec') 0
         = or_default (downloadedSegments rec) 0
           + Z.of_nat (List.length (fetchedOf taskEnv download missing))
      /\ status rec' = status rec
      /\ totalSegments rec' = totalSegments rec)
  /\ activeDownloads s' = activeDownloads s
  /\ is_Some (downloadStats s' !! downloadId)
  /\ default ∅ (failedSegments s' !! downloadId)
     = default ∅ (failedSegments s !! downloadId)
       ∪ list_to_set (map fst (lostOf taskEnv download missing))
  /\ default [] (segmentFiles s' !! downloadId)
     = default [] (segmentFiles s !! downloadId)
       ++ map (fun seg => segmentPath download (fst seg))
              (fetchedOf taskEnv download missing)
  /\ (forall seg, In seg (fetchedOf taskEnv download missing) ->
                  presentb (disk s') download (fst seg) = true)
  /\ (forall i, presentb (disk s) download i = true ->
                presentb (disk s') download i = true)
  /\ (runTasks taskEnv downloadId download missing total s).2 = Resolved tt.
Proof. intros _. apply runTasks_state. Qed.







End OneThread.

(** ** Runs of the job of one thread *)

Section OneThreadRuns.
Import DownloadEngine.

(** Two segments to fetch, the second answered 404 three times: the count
    grows by one and the index 1 joins the failed set. *)
Lemma runTasks_converges_witness :
  (exists rec',
     store (runTasks Scenarios.secondLost "job" Scenarios.soloJob
              [(0%nat, "http://cdn/0.ts"); (1%nat, "http://cdn/1.ts")] 2
              Scenarios.live).1 !! "job" = Some rec'
     /\ or_default (downloadedSegments rec') 0 = 1)
  /\ default ∅ (failedSegments
                  (runTasks Scenarios.secondLost "job" Scenarios.soloJob
                     [(0%nat, "http://cdn/0.ts"); (1%nat, "http://cdn/1.ts")] 2
                     Scenarios.live).1 !! "job")
     = {[ 1%nat ]}.
Proof.
  pose proof (runTasks_converges Scenarios.secondLost "job" Scenarios.soloJob
              [(0%nat, "http://cdn/0.ts"); (1%nat, "http://cdn/1.ts")] 2
              Scenarios.live Scenarios.soloJob
              {| startTime := 0; stats_downloadedBytes := 0; totalBytes := 0 |}) as H.
  destruct H
    as ((rec' & Hs & Hc & _) & _ & _ & Hf & _);
    [vm_compute; reflexivity..|].
  split; [exists rec'; split; [exact Hs | ] |].
  rewrite Hc.
  vm_compute; reflexivity.
   rewrite Hf. vm_compute. reflexivity.
Defined.


End OneThreadRuns.

(** ** Pause, cancel and the errors of a run *)

Section Supervision.
Import DownloadEngine.

Lemma runTasks_not_active (taskEnv : nat -> Env) (downloadId : string)
    (download : Download) (missing : list (nat * string)) (total : nat) (s : Engine) :
  activeDownloads s !! downloadId <> Some true ->
  runTasks taskEnv downloadId download missing total s = (s, Resolved tt).
Proof.
  intros Hactive. induction missing as [|[i url] rest IH]; [reflexivity|].
  rewrite runTasks_cons. cbn [fst snd].
  rewrite segmentTask_not_active by exact Hactive. exact IH.
Qed.

(** X9: once a job is paused or cancelled, the tasks of its run that have
    not started fetch nothing and change nothing: each one is rejected at
    its check of the liveness flag. *)
Theorem pause_stops_fetching (taskEnv : nat -> Env) (downloadId : string)
    (download : Download) (rest : list (nat * string)) (total : nat) (s : Engine) :
  runTasks taskEnv downloadId download rest total (pauseDownload downloadId s).1
  = ((pauseDownload downloadId s).1, Resolved tt)
  /\ runTasks taskEnv downloadId download rest total (cancelDownload downloadId s).1
     = ((cancelDownload downloadId s).1, Resolved tt).
Proof.
  split; apply runTasks_not_active; unfold pauseDownload, cancelDownload; run_step;
    cbn [activeDownloads with_activeDownloads with_store with_trace with_downloadStats
         with_segmentFiles with_failedSegments].
  - rewrite lookup_insert_eq. discriminate.
  - rewrite lookup_delete_eq. discriminate.
Qed.

Lemma runTasks_resolves (taskEnv : nat -> Env) (downloadId : string)
    (download : Download) (missing : list (nat * string)) (total : nat) (s : Engine) :
  (runTasks taskEnv downloadId download missing total s).2 = Resolved tt.
Proof.
  revert s. induction missing as [|seg rest IH]; intros s; [reflexivity|].
  cbn [runTasks]. run_step.
  destruct (segmentTask _ _ _ _ _ s) as [s1 [z|e]]; apply IH.
Qed.

Lemma checkDownloadCompletion_resolves (env : Env) (downloadId : string) (s : Engine) :
  (checkDownloadCompletion env downloadId s).2 = Resolved tt.
Proof.
  destruct (store s !! downloadId) as [d|] eqn:Hs.
  - now destruct (checkDownloadCompletion_record env downloadId s d Hs) as (? & _ & _ & _ & H).
  - unfold checkDownloadCompletion. run_step. now rewrite Hs.
Qed.

Lemma processDownloadOneThread_resolves (taskEnv : nat -> Env) (env : Env)
    (downloadId : string) (missing : list (nat * string)) (total : nat) (s : Engine) :
  (processDownloadOneThread taskEnv env downloadId missing total s).2 = Resolved tt.
Proof.
  unfold processDownloadOneThread. run_step.
  destruct (store s !! downloadId) as [d|]; [|reflexivity].
  pose proof (runTasks_resolves taskEnv downloadId d missing total s) as Hr.
  destruct (runTasks _ _ _ _ _ s) as [s1 r]. simpl in Hr. subst r.
  apply checkDownloadCompletion_resolves.
Qed.

(** X10: the run of a job never rejects, whatever the fetches meet: the error
    handler that would mark the job as failed is never called. *)
Theorem run_never_marks_error (taskEnv : nat -> Env) (env : Env)
    (downloadId : string) (missing : list (nat * string)) (total : nat) (s : Engine) :
  launchOneThread taskEnv env downloadId missing total s
  = ((processDownloadOneThread taskEnv env downloadId missing total s).1, Resolved tt).
Proof.
  unfold launchOneThread, try_catch.
  pose proof (processDownloadOneThread_resolves taskEnv env downloadId missing total s) as H.
  destruct (processDownloadOneThread _ _ _ _ _ s) as [s1 r]. simpl in H. now subst r.
Qed.


End Supervision.

(** ** Progress updates that interleave *)

Section Interleaving.
Import DownloadEngine.

Lemma updateDownloadProgress_split (env : Env) (downloadId : string) (segmentIndex : nat)
    (segmentSize : Z) (total : option Z) (s : Engine) :
  updateDownloadProgress env downloadId segmentIndex segmentSize total s
  = match store s !! downloadId with
    | None => (s, Resolved tt)
    | Some download => commitDownloadProgress env downloadId segmentSize total download s
    end.
Proof.
  unfold updateDownloadProgress, commitDownloadProgress. run_step.
  destruct (store s !! downloadId); reflexivity.
Qed.

(** The state after the part of an update that follows its read: the count
    is that of the record read plus one, the bytes are those of the shared
    counter plus the size. *)
Lemma commitDownloadProgress_state (env : Env) (downloadId : string) (segmentSize : Z)
    (total : option Z) (read current : Download) (st : Stats) (s : Engine) :
  store s !! downloadId = Some current ->
  downloadStats s !! downloadId = Some st ->
  let s' := (commitDownloadProgress env downloadId segmentSize total read s).1 in
  (exists d', store s' !! downloadId = Some d'
              /\ downloadedSegments d' = Some (or_default (downloadedSegments read) 0 + 1)
              /\ downloadedBytes d' = Some (stats_downloadedBytes st + segmentSize))
  /\ downloadStats s' !! downloadId
     = Some {| startTime := startTime st;
               stats_downloadedBytes := stats_downloadedBytes st + segmentSize;
               totalBytes := totalBytes st |}.
Proof.
  intros Hs Hst s'. subst s'. unfold commitDownloadProgress. run_step.
  rewrite Hst. simpl. rewrite Hs, !lookup_insert_eq.
  split; [|reflexivity]. eexists. split; [reflexivity|].
  destruct current; simpl; auto.
Qed.

(** X12: two progress updates of one job.  Run one after the other they
    count two segments.  When the second has read the record before the
    first has written it, the stored count grows by one only, while the
    byte counter, which is shared, has both sizes. *)
Theorem interleaved_updates_lose_a_segment (env1 env2 : Env) (downloadId : string)
    (i1 i2 : nat) (size1 size2 : Z) (total : option Z)
    (s : Engine) (rec : Download) (st : Stats) :
  store s !! downloadId = Some rec ->
  downloadStats s !! downloadId = Some st ->
  let count := or_default (downloadedSegments rec) 0 in
  let bytes := stats_downloadedBytes st + size1 + size2 in
  let inTurn :=
    (updateDownloadProgress env2 downloadId i2 size2 total
       (updateDownloadProgress env1 downloadId i1 size1 total s).1).1 in
  let interleaved :=
    (commitDownloadProgress env2 downloadId size2 total rec
       (commitDownloadProgress env1 downloadId size1 total rec s).1).1 in
  (exists d, store inTurn !! downloadId = Some d
             /\ downloadedSegments d = Some (count + 2)
             /\ downloadedBytes d = Some bytes)
  /\ (exists d, store interleaved !! downloadId = Some d
                /\ downloadedSegments d = Some (count + 1)
                /\ downloadedBytes d = Some bytes).
Proof.
  intros Hs Hst count bytes inTurn interleaved.
  destruct (commitDownloadProgress_state env1 downloadId size1 total rec rec st s Hs Hst)
    as ((d1 & Hd1 & Hc1 & Hb1) & Hst1).
  split.
  - subst inTurn. rewrite (updateDownloadProgress_split env1), Hs.
    rewrite (updateDownloadProgress_split env2), Hd1.
    destruct (commitDownloadProgress_state env2 downloadId size2 total d1 d1 _ _ Hd1 Hst1)
      as ((d2 & Hd2 & Hc2 & Hb2) & _).
    exists d2. split; [exact Hd2|]. rewrite Hc2, Hb2, Hc1, or_default_zero.
    subst count bytes. simpl. split; f_equal; lia.
  - subst interleaved.
    destruct (commitDownloadProgress_state env2 downloadId size2 total rec d1 _ _ Hd1 Hst1)
      as ((d2 & Hd2 & Hc2 & Hb2) & _).
    exists d2. split; [exact Hd2|]. rewrite Hc2, Hb2. subst count bytes. simpl. auto.
Qed.

End Interleaving.

(** ** The routes that call the engine *)

Section Routes.
Import DownloadEngine.




(** X14: with no tracked file and no segment file on disk, a retry of the
    merge resolves without a merge: no event, the record and the disk as
    they were. *)
Theorem retry_merge_without_files (env : Env) (downloadId : string) (s : Engine)
    (rec : Download) :
  store s !! downloadId = Some rec ->
  default [] (segmentFiles s !! downloadId) = [] ->
  (forall i, disk s !! segmentPath rec i = None) ->
  retryMerge env downloadId s
  = (with_segmentFiles (insert downloadId []) s, Resolved tt).
Proof.
  intros Hs Hfiles Hdisk. unfold retryMerge. run_step. rewrite Hs, Hfiles.
  assert (reconstructedPaths (disk s) rec = []) as ->.
  { unfold reconstructedPaths.
    induction (seq 0 _) as [|i l IH]; [reflexivity|].
    cbn [map List.filter]. rewrite Hdisk.
    rewrite bool_decide_eq_false_2 by (intros [? ?]; discriminate). exact IH. }
  unfold mergeSegments. run_step.
  cbn [store with_segmentFiles]. rewrite Hs. cbv beta.
  change (segmentFiles (with_segmentFiles <[downloadId:=[]]> s))
    with (<[downloadId:=[]]> (segmentFiles s)).
  rewrite lookup_insert_eq. reflexivity.
Qed.

(** X15: the delete route cancels, then deletes: afterwards the job is in
    neither the store nor the engine's maps, the cancelled event went out
    also when the job was not stored, and the files on disk are left as
    they were; the answer is 200 or 404, and it is 200 only for a job that
    was stored. *)
Theorem delete_route_answers (downloadId : string) (s : Engine) :
  let answer := deleteRoute downloadId s in
  (answer.2.1 = 200 \/ answer.2.1 = 404)
  /\ (answer.2.1 = 200 -> is_Some (store s !! downloadId))
  /\ store answer.1 = delete downloadId (store s)
  /\ activeDownloads answer.1 = delete downloadId (activeDownloads s)
  /\ downloadStats answer.1 = delete downloadId (downloadStats s)
  /\ segmentFiles answer.1 = delete downloadId (segmentFiles s)
  /\ failedSegments answer.1 = delete downloadId (failedSegments s)
  /\ world answer.1 = world s
  /\ trace answer.1
     = trace s ++ [Emit (download_status downloadId cancelled None None None)].
Proof.
  unfold deleteRoute, cancelDownload, deleteDownload. run_step. simpl.
  destruct (store s !! downloadId) as [d|] eqn:Hs; simpl.
  - rewrite lookup_insert_eq.
    rewrite bool_decide_eq_true_2 by eauto. simpl.
    rewrite Hs. repeat split; eauto. apply delete_insert_eq.
  - rewrite bool_decide_eq_false_2 by (rewrite Hs; intros [? ?]; discriminate). simpl.
    rewrite ?Hs. repeat split; auto. discriminate.
Qed.

(** X16: when the output directory cannot be created, the start rejects after
    it has marked the job as downloading: the record stays so, the job is
    not active, no event goes out and the route answers 500. *)
Theorem start_mkdir_failure (env : Env) (downloadId : string) (s : Engine)
    (rec : Download) (segs : list string) (e : Error) :
  store s !! downloadId = Some rec ->
  segments rec = Some segs ->
  mkdir_error env = Some e ->
  let run := startDownload env downloadId s in
  run.2 = Rejected e
  /\ (exists rec', store run.1 !! downloadId = Some rec' /\ status rec' = downloading)
  /\ activeDownloads run.1 = activeDownloads s
  /\ trace run.1 = trace s
  /\ (postStart env downloadId s).2 = (500, err_message e).
Proof.
  intros Hs Hsegs Hmk run.
  destruct (startDownload_shape env downloadId s rec segs Hs Hsegs)
    as (s1 & Hrun & Hstore & Htrace & _ & Hactive & _).
  rewrite Hmk in Hrun. unfold postStart. subst run. rewrite Hrun. simpl.
  split; [reflexivity|]. split; [|auto].
  eexists. split; [exact Hstore|]. apply reconciledRecord_fields.
Qed.

End Routes.

(** ** Runs of the supervision and of the routes *)

Section SupervisionRuns.
Import DownloadEngine.


(** Two updates of one byte each on the started job of two segments, both
    reading the record with no segment counted: the store says one. *)
Lemma interleaved_updates_lose_a_segment_witness :
  exists d,
    store (commitDownloadProgress Scenarios.quiet "job" 1 (Some 2) Scenarios.soloJob
             (commitDownloadProgress Scenarios.quiet "job" 1 (Some 2) Scenarios.soloJob
                Scenarios.live).1).1 !! "job" = Some d
    /\ downloadedSegments d = Some 1
    /\ downloadedBytes d = Some 2.
Proof.
  destruct (interleaved_updates_lose_a_segment Scenarios.quiet Scenarios.quiet "job"
              0 1 1 1 (Some 2) Scenarios.live Scenarios.soloJob
              {| startTime := 0; stats_downloadedBytes := 0; totalBytes := 0 |})
    as (_ & d & H); [vm_compute; reflexivity | vm_compute; reflexivity |].
  exists d. exact H.
Defined.

(** The job is stored as completed and nothing of it is on disk. *)
Lemma retry_merge_without_files_witness :
  retryMerge Scenarios.quiet "job" (Examples.engine (Examples.job 2 2 None) ∅ [] ∅)
  = (with_segmentFiles (insert "job" [])
       (Examples.engine (Examples.job 2 2 None) ∅ [] ∅), Resolved tt).
Proof.
  apply (retry_merge_without_files Scenarios.quiet "job"
           (Examples.engine (Examples.job 2 2 None) ∅ [] ∅) (Examples.job 2 2 None));
    [vm_compute; reflexivity | vm_compute; reflexivity | intros i; apply lookup_empty].
Defined.

(** The output directory of the fresh job cannot be created. *)
Lemma start_mkdir_failure_witness :
  (startDownload Scenarios.readOnly "job" Examples.fresh).2
  = Rejected (mkError "EACCES: permission denied, mkdir 'downloads'")
  /\ (postStart Scenarios.readOnly "job" Examples.fresh).2
     = (500, "EACCES: permission denied, mkdir 'downloads'").
Proof.
  destruct (start_mkdir_failure Scenarios.readOnly "job" Examples.fresh
              (Examples.job 0 2 (Some Examples.twoUrls)) Examples.twoUrls
              (mkError "EACCES: permission denied, mkdir 'downloads'"))
    as (H1 & _ & _ & _ & H2); [vm_compute; reflexivity..|].
  split; [exact H1 | exact H2].
Defined.

End SupervisionRuns.

(** ** What the completion rule lets through *)

Section CompletionBounds.
Import DownloadEngine.

Lemma ratio_le (d t : Z) :
  0 < t -> (98 # 100 <= inject_Z d / inject_Z t)%Q -> 49 * t <= 50 * d.
Proof.
  intros Ht H. destruct t as [|p|p]; try lia.
  unfold Qle, Qdiv, Qmult, Qinv, inject_Z in H. simpl in H. lia.
Qed.

Lemma failed_le (f t : Z) :
  (inject_Z f <= Qmax 2 (inject_Z t * (2 # 100)))%Q -> f <= 2 \/ 50 * f <= t.
Proof.
  intros H. apply Q.max_le_iff in H as [H|H]; [left | right];
    unfold Qle, Qmult, inject_Z in H; simpl in H; lia.
Qed.

Lemma failed_ge (f t : Z) :
  f <= 2 -> (inject_Z f <= Qmax 2 (inject_Z t * (2 # 100)))%Q.
Proof.
  intros H. apply Q.max_le_iff. left. unfold Qle, inject_Z. simpl. lia.
Qed.

(** X17: a job the completion rule lets through lacks at most two segments,
    or at most two per cent of them when that is more: with [t] segments
    in all and [d] counted, [t - d <= max(2, t / 50)]. *)
Theorem completed_job_lacks_few (d t f : Z) :
  0 < t ->
  shouldComplete d t f = true ->
  50 * (t - d) <= Z.max 100 t.
Proof.
  intros Ht H. apply shouldComplete_iff in H as [H | [[H _] | [H1 H2]]].
  - lia.
  - apply ratio_le in H; lia.
  - apply failed_le in H2. lia.
Qed.

Lemma completed_job_lacks_few_witness : 50 * (100 - 98) <= Z.max 100 100.
Proof. apply (completed_job_lacks_few 98 100 0); [lia | vm_compute; reflexivity]. Defined.

(** X18: with no segment counted, the rule lets a job through exactly when
    every segment is in the failed set and there are at most two of them. *)
Theorem nothing_fetched_completes (t f : Z) :
  0 < t ->
  shouldComplete 0 t f = true <-> t <= f /\ f <= 2.
Proof.
  intros Ht. rewrite shouldComplete_iff. split.
  - intros [H | [[_ H] | [H1 H2]]]; [lia | lia |].
    apply failed_le in H2. lia.
  - intros [H1 H2]. right; right. split; [lia | now apply failed_ge].
Qed.

Lemma nothing_fetched_completes_witness :
  shouldComplete 0 2 2 = true <-> 2 <= 2 /\ 2 <= 2.
Proof. apply (nothing_fetched_completes 2 2). lia. Defined.

End CompletionBounds.

(** ** Reversal, suffixes and the name of the output file *)

Section OutputName.
Import VideoMerger.

Lemma rev_app_append (a b acc : string) :
  String.rev_app (a +:+ b) acc = String.rev_app b (String.rev_app a acc).
Proof.
  revert acc. induction a as [|c a IH]; intros acc; [now rewrite append_nil_l|].
  rewrite append_cons. simpl. apply IH.
Qed.

Lemma rev_app_acc (s acc : string) :
  String.rev_app s acc = String.rev_app s "" +:+ acc.
Proof.
  revert acc. induction s as [|c s IH]; intros acc; [now rewrite append_nil_l|].
  simpl. rewrite (IH (String c acc)), (IH (String c "")).
  now rewrite append_assoc, append_cons, append_nil_l.
Qed.

Lemma rev_append (a b : string) : String.rev (a +:+ b) = String.rev b +:+ String.rev a.
Proof. unfold String.rev. rewrite rev_app_append. apply rev_app_acc. Qed.

Lemma rev_app_rev_app (s a b : string) :
  String.rev_app (String.rev_app s a) b = String.rev_app a (s +:+ b).
Proof.
  revert a. induction s as [|c s IH]; intros a; [now rewrite append_nil_l|].
  simpl. rewrite IH. simpl. now rewrite append_cons.
Qed.

Lemma rev_involutive (s : string) : String.rev (String.rev s) = s.
Proof. unfold String.rev. rewrite rev_app_rev_app. simpl. apply append_nil_r. Qed.

Lemma prefix_append (p r : string) : String.prefix p (p +:+ r) = true.
Proof.
  induction p as [|c p IH]; [now destruct r|].
  rewrite append_cons. simpl. destruct (ascii_dec c c); [exact IH | congruence].
Qed.

Lemma prefix_split (p s : string) :
  String.prefix p s = true -> exists r, s = p +:+ r.
Proof.
  revert s. induction p as [|c p IH]; intros s H.
  - exists s. now rewrite append_nil_l.
  - destruct s as [|c' s]; [discriminate|]. simpl in H.
    destruct (ascii_dec c c') as [<-|]; [|discriminate].
    destruct (IH s H) as [r ->]. exists r. now rewrite append_cons.
Qed.

Lemma endsWith_append (stem suffix : string) : endsWith (stem +:+ suffix) suffix = true.
Proof. unfold endsWith. rewrite rev_append. apply prefix_append. Qed.

Lemma endsWith_split (s suffix : string) :
  endsWith s suffix = true -> exists stem, s = stem +:+ suffix.
Proof.
  unfold endsWith. intros H. apply prefix_split in H as [r Hr].
  exists (String.rev r).
  rewrite <- (rev_involutive s), Hr, rev_append. now rewrite rev_involutive.
Qed.

Lemma length_append (a b : string) :
  String.length (a +:+ b) = (String.length a + String.length b)%nat.
Proof.
  induction a as [|c a IH]; [now rewrite append_nil_l|].
  rewrite append_cons. simpl. now rewrite IH.
Qed.

Lemma substring_append (a b : string) :
  String.substring 0 (String.length a) (a +:+ b) = a.
Proof.
  induction a as [|c a IH]; [rewrite append_nil_l; now destruct b|].
  rewrite append_cons. simpl. now rewrite IH.
Qed.

Lemma cleanFilename_append (stem : string) : cleanFilename (stem +:+ ".mkv") = stem.
Proof.
  unfold cleanFilename. rewrite endsWith_append, length_append. simpl String.length.
  rewrite Nat.add_sub. apply substring_append.
Qed.

(** X19: the name of the output file is the job's file name when that ends
    in [.mkv], and the file name with [.mkv] appended when not: the
    extension is never doubled, and the names [movie] and [movie.mkv] give
    the same output file. *)
Theorem output_file_name (options : MergeOptions) :
  outputFilePath options
  = path_join (outputPath options)
      (if endsWith (filename options) ".mkv"
       then filename options else filename options +:+ ".mkv").
Proof.
  unfold outputFilePath. f_equal.
  destruct (endsWith (filename options) ".mkv") eqn:H.
  - apply endsWith_split in H as [stem ->]. now rewrite cleanFilename_append.
  - unfold cleanFilename. now rewrite H.
Qed.


End OutputName.

(** ** What a merge that succeeds leaves *)

Section MergeSuccess.
Import VideoMerger.

Lemma readSegments_all (d : gmap string (list Byte.byte)) (paths : list string) :
  (forall p, In p paths -> is_Some (d !! p)) ->
  readSegments d paths
  = (List.concat (map (fun p => default [] (d !! p)) paths), None).
Proof.
  induction paths as [|p paths IH]; intros Hall; [reflexivity|].
  cbn [readSegments map List.concat].
  destruct (Hall p (or_introl eq_refl)) as [bytes Hp]. rewrite Hp.
  rewrite IH by (intros q Hq; apply Hall; now right). reflexivity.
Qed.

Lemma cleanup_keeps_other (env : Env) (paths : list string) (w : World) (p : string) :
  ~ In p paths -> disk (cleanupSegmentFiles env paths w) !! p = disk w !! p.
Proof.
  unfold cleanupSegmentFiles. simpl. generalize (disk w).
  induction paths as [|q paths IH]; intros d Hp; simpl; [reflexivity|].
  rewrite IH by (intros H; apply Hp; now right).
  destruct (unlink_fails env q); [reflexivity|].
  apply lookup_delete_ne. intros ->. apply Hp. now left.
Qed.

Lemma cleanup_deletes (env : Env) (paths : list string) (w : World) (p : string) :
  In p paths -> unlink_fails env p = false ->
  disk (cleanupSegmentFiles env paths w) !! p = None.
Proof.
  intros Hin Hok. revert w. induction paths as [|q paths IH]; intros w; [destruct Hin|].
  destruct Hin as [-> | Hin].
  - change (cleanupSegmentFiles env (p :: paths) w)
      with (cleanupSegmentFiles env paths
              (set_disk (fun d => if unlink_fails env p then d else delete p d) w)).
    apply cleanup_keeps_absent. simpl. rewrite Hok. apply lookup_delete_eq.
  - change (cleanupSegmentFiles env (q :: paths) w)
      with (cleanupSegmentFiles env paths
              (set_disk (fun d => if unlink_fails env q then d else delete q d) w)).
    apply IH, Hin.
Qed.

Lemma In_sortSegments (p : string) (l : list string) : In p (sortSegments l) <-> In p l.
Proof.
  split; apply Permutation_in; [apply sortSegments_perm |].
  symmetry. apply sortSegments_perm.
Qed.

Lemma binary_merge_state (env : Env) (options : MergeOptions) (w : World) :
  mkdir_error env = None ->
  stream_error env = None ->
  (forall p, In p (segmentPaths options) -> is_Some (disk w !! p)) ->
  let out := mergeSegmentsBinary env options w in
  let sorted := sortSegments (segmentPaths options) in
  settled out = Resolved {| success := true;
                            outputFile := Some (outputFilePath options);
                            error := None; duration := None |}
  /\ (forall p, In p (segmentPaths options) -> unlink_fails env p = false ->
                disk (world_after out) !! p = None)
  /\ (~ In (outputFilePath options) (segmentPaths options) ->
      disk (world_after out) !! outputFilePath options
      = Some (List.concat (map (fun p => default [] (disk w !! p)) sorted))).
Proof.
  intros Hmk Hstream Hall out sorted. subst out. unfold mergeSegmentsBinary.
  rewrite Hmk, readSegments_all, Hstream
    by (intros p Hp; apply Hall; now apply In_sortSegments).
  cbn [settled world_after]. split; [reflexivity|]. split.
  - intros p Hp Hok. apply cleanup_deletes; [now apply In_sortSegments | exact Hok].
  - intros Hout. rewrite cleanup_keeps_other by (now rewrite In_sortSegments).
    simpl. apply lookup_insert_eq.
Qed.




End MergeSuccess.

(** ** The merge step of the engine when the muxer succeeds *)

Section MergeDelivers.
Import DownloadEngine.



End MergeDelivers.


(** ** Runs of the merge *)

Section MergeRuns.
Import VideoMerger.



End MergeRuns.

Section MergeStepRuns.
Import DownloadEngine.


End MergeStepRuns.

(** ** The playlist resolver: segments, base URL, detections *)

Section Resolver.
Import M3U8Parser.

Lemma segments_fold (m3u8Url : string) (lines : list string) (segs : list string) :
  fold_left (fun segments line => segments ++ segmentStep m3u8Url line) lines segs
  = segs ++ flat_map (segmentStep m3u8Url) lines.
Proof.
  revert segs. induction lines as [|l lines IH]; intros segs; simpl.
  - now rewrite app_nil_r.
  - rewrite IH. now rewrite <- app_assoc.
Qed.

Lemma truthy_length (line : string) :
  truthy line = true -> (0 <? Z.of_nat (String.length line)) = true.
Proof. destruct line; [discriminate | reflexivity]. Qed.

Lemma segments_of_lines (m3u8Url : string) (lines : list string) :
  Forall (fun line => truthy line = true) lines ->
  flat_map (segmentStep m3u8Url) lines
  = map (fun line => if startsWith line "http" then line else baseUrl m3u8Url +:+ line)
        (List.filter (fun line => negb (startsWith line "#")) lines).
Proof.
  induction 1 as [|l lines Hl _ IH]; [reflexivity|].
  cbn [flat_map List.filter]. unfold segmentStep at 1.
  rewrite (truthy_length l Hl), andb_true_r.
  destruct (negb (startsWith l "#")); simpl; now rewrite IH.
Qed.

Lemma playlistLines_truthy (content : string) :
  Forall (fun line => truthy line = true) (playlistLines content).
Proof.
  unfold playlistLines. apply List.Forall_forall. intros l Hl.
  now apply filter_In in Hl.
Qed.

(** X23: when [response.data] is a string, the call resolves, and the
    segments of the parsed playlist are the lines of the string that do not
    start with [#], trimmed and with the empty ones left out, in the order
    of the playlist: a line that starts with [http] as it is, any other
    line appended to the base URL. *)
Theorem playlist_segments (m3u8Url content : string) :
  parsePlaylist (FetchBody content) m3u8Url
  = Resolved (parseLines m3u8Url (playlistLines content))
  /\ segments (parseLines m3u8Url (playlistLines content))
     = map (fun line =>
              if startsWith line "http" then line else baseUrl m3u8Url +:+ line)
           (List.filter (fun line => negb (startsWith line "#"))
                        (playlistLines content)).
Proof.
  split; [reflexivity|].
  unfold parseLines. rewrite parseLines_fold. cbn [segments].
  rewrite segments_fold. apply segments_of_lines, playlistLines_truthy.
Qed.

Lemma dropToSlash_rev_app (name acc : string) :
  includes name "/" = false ->
  dropToSlash (String.rev_app name acc) = dropToSlash acc.
Proof.
  revert acc. induction name as [|c name IH]; intros acc H; [reflexivity|].
  cbn [includes] in H. apply orb_false_iff in H as [Hc Hname].
  simpl String.rev_app. rewrite IH by exact Hname.
  simpl. simpl in Hc. destruct (Ascii.eqb_spec c "/") as [->|Hne]; [|reflexivity].
  simpl in Hc. destruct name; discriminate.
Qed.

(** X24: the base URL of a playlist URL is the URL up to and with its last
    slash: for [dir/name] with no slash in [name] it is [dir/], and for a
    URL with no slash it is empty. *)
Theorem baseUrl_of_directory (dir name : string) :
  includes name "/" = false ->
  baseUrl (dir +:+ "/" +:+ name) = dir +:+ "/"
  /\ baseUrl name = "".
Proof.
  intros Hname. unfold baseUrl, String.rev. split.
  - rewrite !rev_app_append, dropToSlash_rev_app by exact Hname.
    simpl. rewrite rev_app_rev_app. apply append_nil_l.
  - rewrite dropToSlash_rev_app by exact Hname. reflexivity.
Qed.

Lemma findIndexFrom_lt (i : nat) (url : string) (pre rest : list string) :
  In url pre ->
  findIndexFrom i url (pre ++ rest) < Z.of_nat (i + List.length pre).
Proof.
  revert i. induction pre as [|u pre IH]; intros i Hin; [destruct Hin|].
  simpl. destruct (String.eqb_spec u url) as [->|Hne]; [lia|].
  destruct Hin as [-> | Hin]; [congruence|]. specialize (IH (S i) Hin). lia.
Qed.

Lemma findIndexFrom_app (i : nat) (url : string) (pre rest : list string) :
  ~ In url pre ->
  findIndexFrom i url (pre ++ rest) = findIndexFrom (i + List.length pre) url rest.
Proof.
  revert i. induction pre as [|u pre IH]; intros i Hpre; simpl.
  - now rewrite Nat.add_0_r.
  - destruct (String.eqb_spec u url) as [->|Hne]; [elim Hpre; now left|].
    rewrite IH by (intros H; apply Hpre; now right). f_equal. lia.
Qed.

Lemma findIndex_here (url : string) (pre rest : list string) :
  (Z.of_nat (List.length pre) =? findIndex url (pre ++ url :: rest)) = true
  <-> ~ In url pre.
Proof.
  unfold findIndex. rewrite Z.eqb_eq. split.
  - intros H Hin. pose proof (findIndexFrom_lt 0 url pre (url :: rest) Hin). lia.
  - intros Hpre. rewrite findIndexFrom_app by exact Hpre. simpl.
    now rewrite String.eqb_refl.
Qed.

Lemma keepFirstFrom_spec (pre rest : list string) :
  (forall url, In url (keepFirstFrom (pre ++ rest) (List.length pre) rest)
               <-> In url rest /\ ~ In url pre)
  /\ List.NoDup (keepFirstFrom (pre ++ rest) (List.length pre) rest).
Proof.
  revert pre. induction rest as [|x rest IH]; intros pre.
  - simpl. split; [tauto | constructor].
  - specialize (IH (pre ++ [x])). rewrite <- app_assoc, length_app in IH.
    simpl in IH. rewrite Nat.add_1_r in IH. destruct IH as [IHin IHnd].
    cbn [keepFirstFrom].
    destruct (Z.of_nat (List.length pre) =? findIndex x (pre ++ x :: rest)) eqn:Hx.
    + apply findIndex_here in Hx. split.
      * intros url. simpl. rewrite IHin, in_app_iff. simpl.
        destruct (decide (x = url)) as [->|Hne]; [tauto|]. tauto.
      * apply List.NoDup_cons; [|exact IHnd].
        rewrite IHin, in_app_iff. simpl. tauto.
    + assert (In x pre) as Hpre.
      { destruct (in_dec string_dec x pre) as [H|H]; [exact H|].
        apply (findIndex_here x pre rest) in H. rewrite H in Hx. discriminate. }
      split; [|exact IHnd].
      intros url. simpl. rewrite IHin, in_app_iff. simpl.
      destruct (decide (x = url)) as [->|Hne]; tauto.
Qed.

Lemma keepFirstFrom_NoDup (pre rest : list string) :
  List.NoDup (pre ++ rest) ->
  keepFirstFrom (pre ++ rest) (List.length pre) rest = rest.
Proof.
  revert pre. induction rest as [|x rest IH]; intros pre Hnd; [reflexivity|].
  cbn [keepFirstFrom].
  assert (~ In x pre) as Hx.
  { apply NoDup_remove_2 in Hnd. intros H. apply Hnd, in_or_app. now left. }
  apply (findIndex_here x pre rest) in Hx. rewrite Hx. f_equal.
  specialize (IH (pre ++ [x])). rewrite <- app_assoc, length_app in IH.
  simpl in IH. rewrite Nat.add_1_r in IH. apply IH. exact Hnd.
Qed.

Lemma filter_filter_same (f : string -> bool) (l : list string) :
  List.filter f (List.filter f l) = List.filter f l.
Proof.
  induction l as [|x l IH]; [reflexivity|]. simpl.
  destruct (f x) eqn:Hx; [simpl; rewrite Hx; now f_equal | exact IH].
Qed.

Lemma uniqueDetections_spec (parses : string -> bool) (detections : list string) :
  List.NoDup (uniqueDetections parses detections)
  /\ (forall url, In url (uniqueDetections parses detections)
                  <-> In url detections /\ isValidM3U8Url parses url = true)
  /\ uniqueDetections parses (uniqueDetections parses detections)
     = uniqueDetections parses detections.
Proof.
  destruct (keepFirstFrom_spec [] detections) as [Hin Hnd]. simpl in Hin, Hnd.
  fold (uniqueUrls detections) in Hin, Hnd.
  assert (List.NoDup (uniqueDetections parses detections)) as Hnd'
    by (unfold uniqueDetections; now apply List.NoDup_filter).
  split; [exact Hnd'|split].
  - intros url. unfold uniqueDetections. rewrite filter_In, Hin. tauto.
  - pose proof (keepFirstFrom_NoDup [] _ Hnd') as Hid. simpl in Hid.
    unfold uniqueDetections at 1. unfold uniqueUrls at 1. rewrite Hid.
    unfold uniqueDetections. apply filter_filter_same.
Qed.

(** X25: what a detection returns has no URL twice and holds exactly the URLs
    found that pass the validity check; filtering it again changes
    nothing. *)
Theorem detections_unique_and_valid (parses : string -> bool) (detections : list string) :
  List.NoDup (uniqueDetections parses detections)
  /\ (forall url, In url (uniqueDetections parses detections)
                  <-> In url detections /\ isValidM3U8Url parses url = true)
  /\ uniqueDetections parses (uniqueDetections parses detections)
     = uniqueDetections parses detections.
Proof. apply uniqueDetections_spec. Qed.

End Resolver.

Section ResolverRuns.
Import M3U8Parser.

(** The playlist of a directory, and a bare file name. *)
Lemma baseUrl_of_directory_witness :
  baseUrl ("http://cdn/live" +:+ "/" +:+ "index.m3u8") = "http://cdn/live" +:+ "/"
  /\ baseUrl "index.m3u8" = "".
Proof. apply (baseUrl_of_directory "http://cdn/live" "index.m3u8"). reflexivity. Defined.

End ResolverRuns.

(** ** The order the muxer driver works in *)

Section SortedInput.
Import VideoMerger.

(** An index a double holds exactly. *)
Local Abbreviation exact p := (segmentIndex p < 2 ^ 53).

Lemma toNumber_exact (z : Z) : z < 2 ^ 53 -> toNumber z = Some z.
Proof.
  intros H. unfold toNumber. destruct (Z.ltb_spec z (2 ^ 53)); [reflexivity | lia].
Qed.

Lemma compareSegmentNumbers_exact (a b : string) :
  exact a -> exact b -> compareSegmentNumbers a b = compareSegments a b.
Proof.
  intros Ha Hb. unfold compareSegmentNumbers, compareSegments.
  now rewrite !toNumber_exact.
Qed.

Lemma insertSegmentNumber_exact (a : string) (l : list string) :
  exact a -> Forall (fun p => exact p) l -> insertSegmentNumber a l = insertSegment a l.
Proof.
  intros Ha. induction 1 as [|b l Hb _ IH]; [reflexivity|].
  simpl. rewrite compareSegmentNumbers_exact by assumption. now rewrite IH.
Qed.

Lemma sortSegmentNumbers_exact (l : list string) :
  Forall (fun p => exact p) l -> sortSegmentNumbers l = sortSegments l.
Proof.
  induction 1 as [|a l Ha Hl IH]; [reflexivity|].
  unfold sortSegmentNumbers, sortSegments in *. cbn [foldr]. rewrite IH.
  apply insertSegmentNumber_exact; [exact Ha|].
  apply List.Forall_forall. intros p Hp.
  apply (proj1 (List.Forall_forall _ _) Hl).
  apply (Permutation_in p (sortSegments_perm l)). exact Hp.
Qed.

(** With the binary found and the directory and the manifest written, the
    call is the run of the muxer in a world that holds the manifest of the
    sorted segments. *)
Lemma mergeSegmentsToMKV_manifest (env : Env) (options : MergeOptions) (w : World) :
  muxerFound env w = true ->
  mkdir_error env = None ->
  manifest_write_error env = None ->
  exists w1,
    disk w1 = disk w
    /\ mergeSegmentsToMKV env options w
       = runMuxer env options (sortSegments (segmentPaths options))
           (set_disk
              (insert (concatFilePath options)
                 (list_byte_of_string
                    (String.concat newline
                       (map (fun p => "file '" +:+ path_resolve env p +:+ "'")
                            (sortSegments (segmentPaths options))))))
              w1).
Proof.
  intros Hfound Hmk Hmw.
  pose proof (mergeSegmentsToMKV_head env options w) as H. rewrite Hfound in H.
  destruct H as (w1 & Hw1 & ->). exists w1. split; [exact Hw1|].
  unfold muxSegments, runMuxer. rewrite Hmk, Hmw. reflexivity.
Qed.

(** C5, as amended: for a list of paths whose indices are below [2^53],
    where the doubles of the comparator are the integers the names spell,
    both merge paths work on the input sorted by the index of the first
    [_segment_<n>.] in each path.  The sort of the code is a permutation of
    the input in nondecreasing order of that index, a path without a match
    counting as index 0 and paths of equal index keeping their input order;
    with distinct indices it is the same for every order of the input.  The
    external muxer is run on a manifest that names the segments in that
    order, one [file '<absolute path>'] line each; the binary fallback
    leaves the caller's array in that order and, when all the files are
    there, writes their bytes in that order. *)
Theorem segments_sorted_by_index (l : list string) :
  Forall (fun p => segmentIndex p < 2 ^ 53) l ->
  sortSegmentNumbers l = sortSegments l
  /\ Permutation (sortSegmentNumbers l) l
  /\ Sorted indexLe (sortSegmentNumbers l)
  /\ (forall k,
        List.filter (fun p => segmentIndex p =? k) (sortSegmentNumbers l)
        = List.filter (fun p => segmentIndex p =? k) l)
  /\ (forall p, match_segment p = None -> segmentIndex p = 0)
  /\ (forall p digits, match_segment p = Some digits -> segmentIndex p = parseInt digits)
  /\ (List.NoDup (map segmentIndex l) ->
      forall l', Permutation l' l -> sortSegmentNumbers l' = sortSegmentNumbers l)
  /\ (forall env w options,
        segmentPaths options = l -> muxerFound env w = true ->
        mkdir_error env = None -> manifest_write_error env = None ->
        paths_after (mergeSegmentsToMKV env options w) = sortSegmentNumbers l
        /\ exists w1,
             disk w1 = disk w
             /\ mergeSegmentsToMKV env options w
                = runMuxer env options (sortSegmentNumbers l)
                    (set_disk
                       (insert (concatFilePath options)
                          (list_byte_of_string
                             (String.concat newline
                                (map (fun p => "file '" +:+ path_resolve env p +:+ "'")
                                     (sortSegmentNumbers l)))))
                       w1))
  /\ (forall env w options,
        segmentPaths options = l -> mkdir_error env = None ->
        paths_after (mergeSegmentsBinary env options w) = sortSegmentNumbers l
        /\ (stream_error env = None ->
            (forall p, In p l -> is_Some (disk w !! p)) ->
            ~ In (outputFilePath options) l ->
            disk (world_after (mergeSegmentsBinary env options w))
              !! outputFilePath options
            = Some (List.concat (map (fun p => default [] (disk w !! p))
                                     (sortSegmentNumbers l))))).
Proof.
  intros Hexact.
  assert (forall l', Permutation l' l -> sortSegmentNumbers l' = sortSegments l')
    as Hsame.
  { intros l' Hperm. apply sortSegmentNumbers_exact.
    apply List.Forall_forall. intros p Hp.
    apply (proj1 (List.Forall_forall _ _) Hexact).
    apply (Permutation_in p Hperm). exact Hp. }
  rewrite (Hsame l (Permutation_refl l)).
  split; [reflexivity|].
  split; [apply sortSegments_perm|].
  split; [apply sortSegments_sorted|].
  split; [intros k; apply sortSegments_stable|].
  split; [intros p Hp; unfold segmentIndex; now rewrite Hp|].
  split; [intros p ds Hp; unfold segmentIndex; now rewrite Hp|].
  split.
  { intros Hnd l' Hperm. rewrite (Hsame l' Hperm).
    now apply sortSegments_order_independent. }
  split.
  - intros env w options <- Hfound Hmk Hmw.
    destruct (mergeSegmentsToMKV_manifest env options w Hfound Hmk Hmw)
      as (w1 & Hw1 & Hrun).
    split; [|exists w1; split; [exact Hw1 | exact Hrun]].
    rewrite Hrun. unfold runMuxer.
    destruct (ffmpeg_run env); [|reflexivity].
    destruct (manifest_unlink_error env); reflexivity.
  - intros env w options <- Hmk. split.
    + unfold mergeSegmentsBinary. rewrite Hmk.
      destruct (readSegments _ _) as [bytes [p|]]; [reflexivity|].
      destruct (stream_error env); reflexivity.
    + intros Hstream Hall Hout.
      destruct (binary_merge_state env options w Hmk Hstream Hall) as (_ & _ & H).
      apply H, Hout.
Qed.

(** Segments 10, 2 and 0 in the order their fetches completed, and in index
    order: the same sorted list. *)
Lemma segments_sorted_by_index_witness :
  sortSegmentNumbers ["downloads/movie_segment_10.ts"; "downloads/movie_segment_2.ts";
                      "downloads/movie_segment_0.ts"]
  = sortSegmentNumbers ["downloads/movie_segment_0.ts"; "downloads/movie_segment_2.ts";
                        "downloads/movie_segment_10.ts"]
  /\ sortSegmentNumbers ["downloads/movie_segment_0.ts"; "downloads/movie_segment_2.ts";
                         "downloads/movie_segment_10.ts"]
     = ["downloads/movie_segment_0.ts"; "downloads/movie_segment_2.ts";
        "downloads/movie_segment_10.ts"].
Proof.
  split; [| vm_compute; reflexivity].
  destruct (segments_sorted_by_index
              ["downloads/movie_segment_0.ts"; "downloads/movie_segment_2.ts";
               "downloads/movie_segment_10.ts"])
    as (_ & _ & _ & _ & _ & _ & H & _).
  - repeat constructor; vm_compute; reflexivity.
  - apply H.
    + vm_compute. repeat constructor; simpl; intuition discriminate.
    + apply Permutation_rev.
Defined.

(** The indices [2^53 + 1] and [2^53] are the same double: the comparator
    answers 0 and the sort leaves the two paths in their input order, the
    larger index first. *)
Lemma large_index_counterexample :
  segmentIndex "downloads/movie_segment_9007199254740992.ts"
  < segmentIndex "downloads/movie_segment_9007199254740993.ts"
  /\ compareSegmentNumbers "downloads/movie_segment_9007199254740993.ts"
                           "downloads/movie_segment_9007199254740992.ts" = 0
  /\ sortSegmentNumbers ["downloads/movie_segment_9007199254740993.ts";
                         "downloads/movie_segment_9007199254740992.ts"]
     = ["downloads/movie_segment_9007199254740993.ts";
        "downloads/movie_segment_9007199254740992.ts"]
  /\ ~ Sorted indexLe
        (sortSegmentNumbers ["downloads/movie_segment_9007199254740993.ts";
                             "downloads/movie_segment_9007199254740992.ts"]).
Proof.
  split; [vm_compute; reflexivity|].
  split; [vm_compute; reflexivity|].
  split; [vm_compute; reflexivity|].
  intros H. vm_compute sortSegmentNumbers in H.
  apply Sorted_inv in H as [_ H]. apply HdRel_inv in H.
  vm_compute in H. apply H. reflexivity.
Qed.

End SortedInput.

(** ** How the promises of the muxer driver settle *)

Section Settle.
Import VideoMerger.

(** C10, at the failing input: one segment to concatenate, and an output
    file that cannot be opened (a directory has its name).  The write
    stream emits ['error'] while the segment is read; its listeners are
    attached only after the reads, so nothing handles the event and the
    promise of [mergeSegmentsBinary] is never settled.  The same error
    after the listeners are attached rejects the inner promise and the call
    resolves with [success = false]. *)
Theorem binary_merge_early_stream_error :
  mergeSegmentsBinaryCall (Scenarios.streamFails true)
    {| outputPath := "downloads"; filename := "movie";
       segmentPaths := ["downloads/movie_segment_0.ts"] |}
    {| disk := {[ "downloads/movie_segment_0.ts" := Examples.oneByte ]};
       ffmpegPath := None |}
  = None
  /\ settled
       <$> mergeSegmentsBinaryCall (Scenarios.streamFails false)
             {| outputPath := "downloads"; filename := "movie";
                segmentPaths := ["downloads/movie_segment_0.ts"] |}
             {| disk := {[ "downloads/movie_segment_0.ts" := Examples.oneByte ]};
                ffmpegPath := None |}
     = Some (Resolved (failure
               ("Binary merge failed: "
                +:+ "EISDIR: illegal operation on a directory, open 'downloads/movie.mkv'"))).
Proof. split; vm_compute; reflexivity. Qed.

(** X26: once the muxer binary is found, [mergeSegmentsToMKV] resolves; a
    failed run of the muxer resolves it with [success = false] and the
    message of the error; it rejects only when the binary is not found, so
    that in the engine a run failure never reaches the fallback to binary
    concatenation. *)
Theorem external_muxer_settles (env : DownloadEngine.Env) (options : MergeOptions)
    (w : World) :
  (muxerFound (DownloadEngine.merger env) w = true ->
   exists r, settled (mergeSegmentsToMKV (DownloadEngine.merger env) options w)
             = Resolved r)
  /\ (forall message,
        muxerFound (DownloadEngine.merger env) w = true ->
        mkdir_error (DownloadEngine.merger env) = None ->
        manifest_write_error (DownloadEngine.merger env) = None ->
        ffmpeg_run (DownloadEngine.merger env) = RunError message ->
        settled (mergeSegmentsToMKV (DownloadEngine.merger env) options w)
        = Resolved {| success := false; outputFile := None;
                      error := Some message; duration := None |})
  /\ (forall e,
        settled (mergeSegmentsToMKV (DownloadEngine.merger env) options w) = Rejected e ->
        muxerFound (DownloadEngine.merger env) w = false)
  /\ (forall downloadId download files s,
        DownloadEngine.world s = w ->
        DownloadEngine.mergeOptions download files = options ->
        muxerFound (DownloadEngine.merger env) w = true ->
        DownloadEngine.runMerger env downloadId download files s
        = DownloadEngine.callMerger downloadId
            (mergeSegmentsToMKV (DownloadEngine.merger env) options) s).
Proof.
  pose proof (mergeSegmentsToMKV_settles (DownloadEngine.merger env) options w) as H.
  split; [intros Hfound; now rewrite Hfound in H|].
  split.
  { intros message Hfound Hmk Hmw Hrun.
    now destruct (mergeSegmentsToMKV_run_error _ options w message Hfound Hmk Hmw Hrun). }
  split.
  { intros e He. destruct (muxerFound _ w); [|reflexivity].
    destruct H as [r Hr]. congruence. }
  intros downloadId download files s <- <- Hfound. now apply runMerger_found.
Qed.

(** The muxer is found and its run fails: the promise resolves with the
    failure. *)
Lemma external_muxer_settles_witness :
  settled (mergeSegmentsToMKV (Examples.driver (RunError "ffmpeg exited with code 1"))
             {| outputPath := "downloads"; filename := "movie";
                segmentPaths := ["downloads/movie_segment_0.ts"] |}
             {| disk := ∅; ffmpegPath := None |})
  = Resolved {| success := false; outputFile := None;
                error := Some "ffmpeg exited with code 1"; duration := None |}.
Proof.
  destruct (external_muxer_settles
              (Examples.env 0 None (RunError "ffmpeg exited with code 1"))
              {| outputPath := "downloads"; filename := "movie";
                 segmentPaths := ["downloads/movie_segment_0.ts"] |}
              {| disk := ∅; ffmpegPath := None |})
    as (_ & H & _).
  apply (H "ffmpeg exited with code 1"); reflexivity.
Defined.

End Settle.
